(** * reel: the parallel chunked-encoding engine, embedded in Rocq

    A shallow embedding of the parts of github.com/five82/reel that plan
    chunks, keep the resume log, admit workers, collect results and decide
    on a crop rectangle, together with the properties proved about them.

    Conventions.
    - A Go [string] is a byte sequence: [list ascii].
    - A Go [int] is a 64-bit signed integer, a [uint32]/[uint64] an unsigned
      one; they are carried as [Z], with the wrap-around written out where
      the code does arithmetic on them.
    - A Go [float64] is an IEEE-754 binary64 number: [spec_float] with
      [prec = 53] and [emax = 1024], rounded to nearest even.
    - A Go [map] is a [gmap]; ranging over it visits its entries in an
      order the language leaves open, so loops over a map take that order
      as an argument.
    - Host readings ([util.AvailableMemoryBytes], [util.PhysicalCores],
      [util.LogicalCores]) and the work directory are explicit arguments. *)

From Stdlib Require Import ZArith Ascii String Lia Bool.
From Stdlib Require Import Floats.SpecFloat Sorting.Sorted.
From stdpp Require Import gmap list strings sorting.

Local Open Scope Z_scope.

Abbreviation gostring := (list ascii).

(** Go string literals. *)
Definition str (s : string) : gostring := list_ascii_of_string s.

(* ===================================================================== *)
(** * Machine integers *)
(* ===================================================================== *)

Module goint.

Definition maxInt : Z := 2 ^ 63 - 1.
Definition minInt : Z := - 2 ^ 63.
Definition maxUint32 : Z := 2 ^ 32 - 1.
Definition maxUint64 : Z := 2 ^ 64 - 1.

(** Two's-complement wrap-around of [int] arithmetic. *)
Definition wrap_int (z : Z) : Z := (z + 2 ^ 63) mod 2 ^ 64 - 2 ^ 63.

(** Wrap-around of [uint64] arithmetic. *)
Definition wrap_uint64 (z : Z) : Z := z mod 2 ^ 64.

(** Conversion [uint32(x)] of an unsigned 64-bit value. *)
Definition to_uint32 (z : Z) : Z := z mod 2 ^ 32.

Definition is_int (z : Z) : Prop := minInt <= z <= maxInt.
Definition is_uint32 (z : Z) : Prop := 0 <= z <= maxUint32.
Definition is_uint64 (z : Z) : Prop := 0 <= z <= maxUint64.

End goint.

(* ===================================================================== *)
(** * Package strings and bufio, as far as the engine uses them *)
(* ===================================================================== *)

Module strings.

(** [asciiSpace]: the white space of [TrimSpace] and [Fields] on ASCII
    input (tab, line feed, vertical tab, form feed, carriage return,
    space). Multi-byte Unicode white space is not modelled. *)
Definition isSpace (c : ascii) : bool :=
  let n := N_of_ascii c in
  ((9 <=? n) && (n <=? 13) || (n =? 32))%N.

Fixpoint trimLeft (s : gostring) : gostring :=
  match s with
  | c :: r => if isSpace c then trimLeft r else s
  | [] => []
  end.

(** [strings.TrimSpace]. *)
Definition TrimSpace (s : gostring) : gostring :=
  rev (trimLeft (rev (trimLeft s))).

(** [strings.Fields]: [cur] is the field being read. *)
Fixpoint fieldsFrom (cur s : gostring) : list gostring :=
  match s with
  | [] => match cur with [] => [] | _ => [cur] end
  | c :: r =>
      if isSpace c
      then match cur with [] => fieldsFrom [] r | _ => cur :: fieldsFrom [] r end
      else fieldsFrom (cur ++ [c]) r
  end.

Definition Fields (s : gostring) : list gostring := fieldsFrom [] s.

(** [strings.Split(s, sep)] for a one-byte separator: always at least one
    part. *)
Fixpoint splitFrom (sep : ascii) (cur s : gostring) : list gostring :=
  match s with
  | [] => [cur]
  | c :: r =>
      if Ascii.eqb c sep then cur :: splitFrom sep [] r
      else splitFrom sep (cur ++ [c]) r
  end.

Definition Split (s : gostring) (sep : ascii) : list gostring :=
  splitFrom sep [] s.

(** [strings.TrimPrefix]: [s] without the leading [prefix], or [s] itself
    when it does not start with [prefix]. *)
Fixpoint cutPrefix (s prefix : gostring) {struct prefix} : option gostring :=
  match prefix, s with
  | [], _ => Some s
  | p :: prefix', c :: s' => if Ascii.eqb c p then cutPrefix s' prefix' else None
  | _ :: _, [] => None
  end.

Definition TrimPrefix (s prefix : gostring) : gostring :=
  default s (cutPrefix s prefix).

(** [bufio.Scanner] with [ScanLines]: the raw lines of [data], split at
    line feeds; a last line without line feed counts when not empty. *)
Fixpoint rawLinesFrom (cur data : gostring) : list gostring :=
  match data with
  | [] => match cur with [] => [] | _ => [cur] end
  | c :: r =>
      if Ascii.eqb c "010" then cur :: rawLinesFrom [] r
      else rawLinesFrom (cur ++ [c]) r
  end.

(** [dropCR]: one trailing carriage return is dropped from a line. *)
Definition dropCR (line : gostring) : gostring :=
  match rev line with
  | c :: r => if Ascii.eqb c "013" then rev r else line
  | [] => line
  end.

(** [bufio.MaxScanTokenSize]: a line that does not fit the buffer stops
    the scanner with [ErrTooLong]. *)
Definition MaxScanTokenSize : Z := 64 * 1024.

Definition tooLong (raw : gostring) : bool :=
  MaxScanTokenSize <=? Z.of_nat (length raw).

(** The tokens [Scan]/[Text] deliver, and whether [scanner.Err()] is set
    at the end. *)
Fixpoint scanTokens (raws : list gostring) : list gostring * bool :=
  match raws with
  | [] => ([], false)
  | raw :: rest =>
      if tooLong raw then ([], true)
      else let '(toks, err) := scanTokens rest in (dropCR raw :: toks, err)
  end.

Definition Scanner (data : gostring) : list gostring * bool :=
  scanTokens (rawLinesFrom [] data).

End strings.

(* ===================================================================== *)
(** * Package strconv and the [%d] verb of fmt *)
(* ===================================================================== *)

Module strconv.

Definition isDigit (c : ascii) : bool :=
  let n := N_of_ascii c in ((48 <=? n) && (n <=? 57))%N.

Definition digitVal (c : ascii) : Z := Z.of_N (N_of_ascii c) - 48.

Definition digitChar (d : Z) : ascii := ascii_of_N (Z.to_N (d + 48)).

(** The decimal value of a run of digits, [None] at the first byte that
    is not a digit. *)
Fixpoint parseDigits (s : gostring) (acc : Z) : option Z :=
  match s with
  | [] => Some acc
  | c :: r => if isDigit c then parseDigits r (acc * 10 + digitVal c) else None
  end.

(** [strconv.ParseUint(s, 10, bitSize)]: [None] stands for a syntax or a
    range error. *)
Definition ParseUint (s : gostring) (bitSize : Z) : option Z :=
  match s with
  | [] => None
  | _ =>
      match parseDigits s 0 with
      | Some n => if n <? 2 ^ bitSize then Some n else None
      | None => None
      end
  end.

(** [strconv.Atoi]: an optional sign, then digits; the value must fit an
    [int]. *)
Definition Atoi (s : gostring) : option Z :=
  match s with
  | [] => None
  | c :: r =>
      let neg := Ascii.eqb c "-" in
      let digits := if neg || Ascii.eqb c "+" then r else s in
      match digits with
      | [] => None
      | _ =>
          match parseDigits digits 0 with
          | Some un =>
              if neg then (if un <=? 2 ^ 63 then Some (- un) else None)
              else (if un <? 2 ^ 63 then Some un else None)
          | None => None
          end
      end
  end.

(** [formatBits]: the decimal digits of [u], most significant first,
    written in front of [acc]. Twenty digits hold every [uint64]. *)
Fixpoint formatBits (fuel : nat) (u : Z) (acc : gostring) : gostring :=
  match fuel with
  | O => acc
  | S k =>
      if u <? 10 then digitChar u :: acc
      else formatBits k (u / 10) (digitChar (u mod 10) :: acc)
  end.

Definition FormatUint (u : Z) : gostring := formatBits 20 u [].

(** The verb [%d] on a signed integer. *)
Definition FormatInt (i : Z) : gostring :=
  if i <? 0 then "-"%char :: FormatUint (- i) else FormatUint i.

End strconv.

(* ===================================================================== *)
(** * Errors and files *)
(* ===================================================================== *)

(** The failures the engine distinguishes. Failures of the external
    encoder and decoder carry their message. *)
Inductive error : Type :=
  | ErrOpenScenes
  | ErrInvalidFrameNumber (line : gostring)
  | ErrReadScenes
  | ErrOpenResume
  | ErrReadResume
  | ErrEncodeDir
  | ErrDecodeStrat
  | ErrCancelled
  | ErrVideoSource (msg : gostring)
  | ErrChunk (msg : gostring).

Inductive result (A : Type) : Type :=
  | Ok (a : A)
  | Fail (e : error).
Arguments Ok {A} a.
Arguments Fail {A} e.

(** What [os.Open] finds at a path. *)
Inductive file : Type :=
  | NotExist
  | Unreadable
  | Content (data : gostring).

(* ===================================================================== *)
(** * Package chunk (internal/chunk/chunk.go) *)
(* ===================================================================== *)

Module chunk.

Record Scene := { StartFrame : Z; EndFrame : Z }.

(** [End] is reserved in Rocq: the field is [End_]. *)
Record Chunk := { Idx : Z; Start : Z; End_ : Z }.

Definition Frames (c : Chunk) : Z := goint.wrap_int (End_ c - Start c).

Record ChunkComp := { cIdx : Z; cFrames : Z; cSize : Z }.

Record ResumeInf := { ChunksDone : list ChunkComp }.

(** [sort.Ints]: the result is the sorted arrangement of the slice, which
    is unique; insertion sort computes it. *)
Fixpoint insertInt (x : Z) (l : list Z) : list Z :=
  match l with
  | [] => [x]
  | y :: r => if x <=? y then x :: l else y :: insertInt x r
  end.

Fixpoint sortInts (l : list Z) : list Z :=
  match l with
  | [] => []
  | x :: r => insertInt x (sortInts r)
  end.

(** First loop of [LoadScenes]: one frame number per non-blank line. *)
Fixpoint parseFrameNums (lines : list gostring) : result (list Z) :=
  match lines with
  | [] => Ok []
  | text :: rest =>
      let line := strings.TrimSpace text in
      match line with
      | [] => parseFrameNums rest
      | _ =>
          match strconv.Atoi line with
          | None => Fail (ErrInvalidFrameNumber line)
          | Some frameNum =>
              match parseFrameNums rest with
              | Ok frameNums => Ok (frameNum :: frameNums)
              | Fail e => Fail e
              end
          end
      end
  end.

(** Last loop of [LoadScenes]: entry [i] opens a scene that ends at entry
    [i+1], the last one at [totalFrames]; empty scenes are dropped. *)
Fixpoint scenesOf (frameNums : list Z) (totalFrames : Z) : list Scene :=
  match frameNums with
  | [] => []
  | start :: rest =>
      let end_ := match rest with [] => totalFrames | next :: _ => next end in
      if start <? end_
      then {| StartFrame := start; EndFrame := end_ |} :: scenesOf rest totalFrames
      else scenesOf rest totalFrames
  end.

(** "Ensure we start at frame 0". *)
Definition ensureZero (frameNums : list Z) : list Z :=
  match frameNums with
  | [] => [0]
  | first :: _ => if first =? 0 then frameNums else 0 :: frameNums
  end.

Definition LoadScenes (f : file) (totalFrames : Z) : result (list Scene) :=
  match f with
  | NotExist | Unreadable => Fail ErrOpenScenes
  | Content data =>
      let '(lines, scanErr) := strings.Scanner data in
      match parseFrameNums lines with
      | Fail e => Fail e
      | Ok frameNums =>
          if scanErr then Fail ErrReadScenes
          else Ok (scenesOf (ensureZero (sortInts frameNums)) totalFrames)
      end
  end.

(** [Chunkify]: scene [i] becomes chunk [i]. *)
Definition Chunkify (scenes : list Scene) : list Chunk :=
  imap (fun i scene =>
          {| Idx := Z.of_nat i; Start := StartFrame scene; End_ := EndFrame scene |})
       scenes.

(** One line of [done.txt], as [GetResume] reads it: [None] for a line
    that is skipped. *)
Definition parseDoneLine (text : gostring) : option ChunkComp :=
  let line := strings.TrimSpace text in
  match line with
  | [] => None
  | _ =>
      match strings.Fields line with
      | [p0; p1; p2] =>
          match strconv.Atoi p0 with
          | None => None
          | Some idx =>
              match strconv.Atoi p1 with
              | None => None
              | Some frames =>
                  match strconv.ParseUint p2 64 with
                  | None => None
                  | Some size => Some {| cIdx := idx; cFrames := frames; cSize := size |}
                  end
              end
          end
      | _ => None
      end
  end.

(** [GetResume] on the file [<workDir>/done.txt]. *)
Definition GetResume (done : file) : result ResumeInf :=
  match done with
  | NotExist => Ok {| ChunksDone := [] |}
  | Unreadable => Fail ErrOpenResume
  | Content data =>
      let '(lines, scanErr) := strings.Scanner data in
      let chunks := omap parseDoneLine lines in
      if scanErr then Fail ErrReadResume else Ok {| ChunksDone := chunks |}
  end.

(** The line [AppendDone] writes: ["%d %d %d\n"]. *)
Definition formatDone (c : ChunkComp) : gostring :=
  strconv.FormatInt (cIdx c) ++ " "%char ::
  strconv.FormatInt (cFrames c) ++ " "%char ::
  strconv.FormatUint (cSize c) ++ ["010"%char].

(** [AppendDone]: the file is created when missing; when it cannot be
    opened nothing is written and the error is returned. *)
Definition AppendDone (c : ChunkComp) (done : file) : file * option error :=
  match done with
  | NotExist => (Content (formatDone c), None)
  | Unreadable => (Unreadable, Some ErrOpenResume)
  | Content data => (Content (data ++ formatDone c), None)
  end.

(** [DoneSet]: the indices of the log as a [map[int]bool]. *)
Definition DoneSet (r : ResumeInf) : gmap Z bool :=
  foldl (fun done c => <[cIdx c := true]> done) ∅ (ChunksDone r).

(** Reading [m[k]] from a [map[int]bool]: [false] when [k] is absent. *)
Definition index (m : gmap Z bool) (k : Z) : bool := default false (m !! k).

Definition TotalEncodedSize (r : ResumeInf) : Z :=
  foldl (fun total c => goint.wrap_uint64 (total + cSize c)) 0 (ChunksDone r).

Definition TotalEncodedFrames (r : ResumeInf) : Z :=
  foldl (fun total c => goint.wrap_int (total + cFrames c)) 0 (ChunksDone r).

End chunk.

(* ===================================================================== *)
(** * float64 *)
(* ===================================================================== *)

Module float64.

Definition prec : Z := 53.
Definition emax : Z := 1024.

(** [float64(n)] for a non-negative integer: rounded to nearest even. *)
Definition of_int (n : Z) : spec_float := binary_normalize prec emax n 0 false.

Definition mul : spec_float -> spec_float -> spec_float := SFmul prec emax.
Definition div : spec_float -> spec_float -> spec_float := SFdiv prec emax.

(** [a > b]. *)
Definition gtb (a b : spec_float) : bool := SFltb b a.

(** An untyped decimal constant [num/den] used as a [float64]: the
    nearest binary64 number, which is the rounded quotient. *)
Definition const (num den : Z) : spec_float := div (of_int num) (of_int den).

(** [uint64(f)] for a finite non-negative [f] below [2^64]: the integer
    part. (Go leaves the other cases to the implementation; the engine
    never reaches them.) *)
Definition to_uint64 (f : spec_float) : Z :=
  match f with
  | S754_finite false m e => Z.shiftl (Zpos m) e
  | _ => 0
  end.

End float64.

(* ===================================================================== *)
(** * The host (internal/util) *)
(* ===================================================================== *)

(** Readings of the machine the engine runs on. [AvailableMemoryBytes] is
    a [uint64] and is [0] when the host cannot tell. *)
Record Host := {
  AvailableMemoryBytes : Z;
  PhysicalCores : Z;
  LogicalCores : Z
}.

(* ===================================================================== *)
(** * Package encode: admission (internal/encode/permits.go) *)
(* ===================================================================== *)

Module encode.
Import chunk.

Definition MemPerWorker4K : Z := Z.shiftl 5 30.
Definition MemPerWorker1080p : Z := Z.shiftl 2 30.
Definition MemPerWorkerSD : Z := Z.shiftl 512 20.

Definition MemoryFraction : spec_float := float64.const 7 10.

Definition memoryPerWorker (width height : Z) : Z :=
  if (3840 <=? width) || (2160 <=? height) then MemPerWorker4K
  else if (1920 <=? width) || (1080 <=? height) then MemPerWorker1080p
  else MemPerWorkerSD.

Definition CapWorkers (host : Host) (requested width height : Z) : Z * bool :=
  let memPerWorker := memoryPerWorker width height in
  let available := AvailableMemoryBytes host in
  let maxByMemory :=
    if 0 <? available then
      let usable :=
        float64.to_uint64 (float64.mul (float64.of_int available) MemoryFraction) in
      Z.max (usable / memPerWorker) 1
    else requested in
  if maxByMemory <? requested then (maxByMemory, true) else (requested, false).

Definition CalculatePermits (workers buffer : Z) : Z :=
  Z.max (goint.wrap_int (workers + buffer)) 1.

(** [calculateThreadsPerWorker]. Go's [/] on [int] truncates: [Z.quot]. *)
Definition maxThreadsFor (width : Z) : Z :=
  if 3840 <=? width then 16 else if 1920 <=? width then 10 else 6.

Definition calculateThreadsPerWorker (host : Host) (workers width : Z) : Z :=
  if workers <=? 0 then 1
  else
    let physical := PhysicalCores host in
    let logical := LogicalCores host in
    let hasSMT := physical <? logical in
    let maxThreads := maxThreadsFor width in
    let threadsPerWorker := Z.quot physical workers in
    let threadsPerWorker :=
      if hasSMT && (threadsPerWorker <? maxThreads)
      then threadsPerWorker + 1 else threadsPerWorker in
    Z.max 1 (Z.min threadsPerWorker maxThreads).

(* ------------------------------------------------------------------- *)
(** ** The pipeline (EncodeAll) *)
(* ------------------------------------------------------------------- *)

(** The fields of [EncodeConfig] the scheduling reads. *)
Record EncodeConfig := {
  Workers : Z;
  ChunkBuffer : Z;
  LogicalProcessors : Z
}.

(** [worker.Progress], with the fields [EncodeAll] sets and updates. *)
Record Progress := {
  ChunksTotal : Z;
  ChunksComplete : Z;
  FramesTotal : Z;
  FramesComplete : Z;
  BytesComplete : Z
}.

(** [worker.EncodeResult]. *)
Record EncodeResult := {
  ChunkIdx : Z;
  rFrames : Z;
  rSize : Z;
  Error : option error
}.

(** The work directory: whether [encode/] can be created, [done.txt],
    and the indices whose encoded output file exists. *)
Record WorkDir := {
  encodeDirOk : bool;
  doneTxt : file;
  outputs : gset Z
}.

(** [ffms.VidInf] and [ffms.CropCalc], as far as the dimensions go. *)
Record VidInf := { Width : Z; Height : Z }.
Record CropCalc := { NewW : Z; NewH : Z }.

(** The loop "Count remaining chunks". *)
Definition countRemaining (doneSet : gmap Z bool) (chunks : list Chunk)
  : list Chunk * Z :=
  foldl (fun '(remainingChunks, totalFrames) ch =>
           (if negb (index doneSet (Idx ch))
            then remainingChunks ++ [ch] else remainingChunks,
            goint.wrap_int (totalFrames + Frames ch)))
        ([], 0) chunks.

(** The atomic error slot: [setError] is [CompareAndSwap(nil, &err)]. *)
Definition setError (err : error) (encodeErr : option error) : option error :=
  match encodeErr with
  | None => Some err
  | Some _ => encodeErr
  end.

Definition getError (encodeErr : option error) : option error := encodeErr.

(** What the collector goroutine owns or shares: the progress, the
    resume log, the error slot, and the snapshots handed to the progress
    callback so far. *)
Record Collector := {
  progress : Progress;
  doneFile : file;
  encodeErr : option error;
  reported : list Progress
}.

(** One iteration of the collector loop on a received result. *)
Definition collect (st : Collector) (r : EncodeResult) : Collector :=
  match Error r with
  | Some e =>
      {| progress := progress st; doneFile := doneFile st;
         encodeErr := setError e (encodeErr st); reported := reported st |}
  | None =>
      let p := progress st in
      let p' :=
        {| ChunksTotal := ChunksTotal p;
           ChunksComplete := goint.wrap_int (ChunksComplete p + 1);
           FramesTotal := FramesTotal p;
           FramesComplete := goint.wrap_int (FramesComplete p + rFrames r);
           BytesComplete := goint.wrap_uint64 (BytesComplete p + rSize r) |} in
      let c := {| cIdx := ChunkIdx r; cFrames := rFrames r; cSize := rSize r |} in
      {| progress := p'; doneFile := fst (AppendDone c (doneFile st));
         encodeErr := encodeErr st; reported := reported st ++ [p'] |}
  end.

(** What happens, in the order the error slot and the result channel see
    it, while the workers run: a worker fails to open its video source
    and latches that error itself, or the collector receives a result. *)
Inductive event : Type :=
  | WorkerSourceFailed (e : error)
  | Received (r : EncodeResult).

Definition step (st : Collector) (ev : event) : Collector :=
  match ev with
  | WorkerSourceFailed e =>
      {| progress := progress st; doneFile := doneFile st;
         encodeErr := setError e (encodeErr st); reported := reported st |}
  | Received r => collect st r
  end.

Definition run (st : Collector) (trace : list event) : Collector :=
  foldl step st trace.

(** What one call of [EncodeAll] leaves behind. *)
Record Outcome := {
  actualWorkers : Z;
  returned : option error;
  doneAfter : file;
  updates : list Progress
}.

Definition EncodeAll (host : Host) (chunks : list Chunk) (inf : VidInf)
    (cfg : EncodeConfig) (wd : WorkDir) (strat : result (option CropCalc))
    (trace : list event) : Outcome :=
  let early n e :=
    {| actualWorkers := n; returned := e; doneAfter := doneTxt wd; updates := [] |} in
  if negb (encodeDirOk wd) then early 0 (Some ErrEncodeDir)
  else
    match GetResume (doneTxt wd) with
    | Fail e => early 0 (Some e)
    | Ok resume =>
        let doneSet := DoneSet resume in
        let '(remainingChunks, totalFrames) := countRemaining doneSet chunks in
        match remainingChunks with
        | [] => early (Workers cfg) None
        | _ =>
            match strat with
            | Fail e => early 0 (Some e)
            | Ok cropCalc =>
                let width := match cropCalc with Some c => NewW c | None => Width inf end in
                let height := match cropCalc with Some c => NewH c | None => Height inf end in
                let workers := fst (CapWorkers host (Workers cfg) width height) in
                let progress0 :=
                  {| ChunksTotal := Z.of_nat (length chunks);
                     ChunksComplete :=
                       Z.of_nat (length chunks) - Z.of_nat (length remainingChunks);
                     FramesTotal := totalFrames;
                     FramesComplete := TotalEncodedFrames resume;
                     BytesComplete := TotalEncodedSize resume |} in
                let st :=
                  run {| progress := progress0; doneFile := doneTxt wd;
                         encodeErr := None; reported := [] |} trace in
                {| actualWorkers := workers; returned := getError (encodeErr st);
                   doneAfter := doneFile st; updates := reported st |}
            end
        end
    end.

End encode.

(* ===================================================================== *)
(** * Package processing: crop detection (internal/processing/crop.go) *)
(* ===================================================================== *)

Module processing.

Record CropResult := {
  CropFilter : gostring;
  Required : bool;
  MultipleRatios : bool;
  Message : gostring
}.

(** The sample points of [DetectCrop]: [i/200] for [i] from 30 to 170. *)
Definition numSamples : Z := 170 - 30 + 1.

Definition sampleMsg : gostring :=
  str "Analyzed " ++ strconv.FormatInt numSamples ++ str " samples".

(** [isValidCropFormat]: four fields, each a [uint32]. *)
Definition isValidCropFormat (crop : gostring) : bool :=
  let parts := strings.Split crop ":" in
  if negb (Nat.eqb (length parts) 4) then false
  else forallb (fun part => bool_decide (is_Some (strconv.ParseUint part 32))) parts.

(** [isEffectiveCrop]: does the crop remove pixels? What cannot be
    parsed counts as effective. *)
Definition isEffectiveCrop (crop : gostring) (sourceWidth sourceHeight : Z) : bool :=
  match strings.Split crop ":" with
  | p0 :: p1 :: _ =>
      match strconv.ParseUint p0 32 with
      | None => true
      | Some cropWidth =>
          match strconv.ParseUint p1 32 with
          | None => true
          | Some cropHeight =>
              negb (goint.to_uint32 cropWidth =? sourceWidth)
              || negb (goint.to_uint32 cropHeight =? sourceHeight)
          end
      end
  | _ => true
  end.

(** [sort.Slice] with [less i j := count i > count j]: an arrangement of
    the entries by falling count. Which of several entries with the same
    count comes first is left to the library and to the order in which
    the map was walked; insertion keeps the walking order among them. *)
Fixpoint insertByCount (x : gostring * Z) (l : list (gostring * Z))
  : list (gostring * Z) :=
  match l with
  | [] => [x]
  | y :: r => if x.2 <? y.2 then y :: insertByCount x r else x :: l
  end.

Definition sortByCount (l : list (gostring * Z)) : list (gostring * Z) :=
  foldr insertByCount [] l.

Definition noCrop (msg : gostring) : CropResult :=
  {| CropFilter := []; Required := false; MultipleRatios := false; Message := msg |}.

Definition cropTo (crop : gostring) : CropResult :=
  {| CropFilter := str "crop=" ++ crop; Required := true; MultipleRatios := false;
     Message := str "Black bars detected" |}.

(** [ratio > 0.8] with [ratio := float64(count) / float64(totalSamples)]. *)
Definition dominant (count totalSamples : Z) : bool :=
  let ratio := float64.div (float64.of_int count) (float64.of_int totalSamples) in
  float64.gtb ratio (float64.const 8 10).

(** The part "Analyze results" of [DetectCrop]. [cropCounts] lists the
    entries of the map of that name in the order [range] visits them. *)
Definition analyze (cropCounts : list (gostring * Z)) (width height : Z)
  : CropResult :=
  match cropCounts with
  | [] => noCrop sampleMsg
  | [(crop, _)] =>
      if negb (isEffectiveCrop crop width height) then noCrop sampleMsg
      else cropTo crop
  | _ =>
      let totalSamples :=
        foldl (fun total e => goint.wrap_int (total + e.2)) 0 cropCounts in
      match sortByCount cropCounts with
      | mostCommon :: _ =>
          if dominant mostCommon.2 totalSamples then
            if negb (isEffectiveCrop mostCommon.1 width height)
            then noCrop sampleMsg
            else cropTo mostCommon.1
          else
            {| CropFilter := []; Required := false; MultipleRatios := true;
               Message := str "Multiple aspect ratios detected" |}
      | [] => noCrop sampleMsg
      end
  end.

(** The map [cropCounts] after all samples reported: an empty sample
    result counts for nothing. *)
Definition countCrops (samples : list gostring) : gmap gostring Z :=
  foldl (fun counts crop =>
           match crop with
           | [] => counts
           | _ => <[crop := goint.wrap_int (default 0 (counts !! crop) + 1)]> counts
           end) ∅ samples.

Definition DetectCrop (disableCrop : bool) (cropCounts : list (gostring * Z))
    (width height : Z) : CropResult :=
  if disableCrop
  then {| CropFilter := []; Required := false; MultipleRatios := false;
          Message := str "Skipped" |}
  else analyze cropCounts width height.

(** [GetOutputDimensions]. *)
Definition GetOutputDimensions (originalWidth originalHeight : Z)
    (cropFilter : gostring) : Z * Z :=
  match cropFilter with
  | [] => (originalWidth, originalHeight)
  | _ =>
      let params := strings.TrimPrefix cropFilter (str "crop=") in
      match strings.Split params ":" with
      | p0 :: p1 :: _ =>
          match strconv.ParseUint p0 32 with
          | Some width =>
              match strconv.ParseUint p1 32 with
              | Some height => (goint.to_uint32 width, goint.to_uint32 height)
              | None => (originalWidth, originalHeight)
              end
          | None => (originalWidth, originalHeight)
          end
      | _ => (originalWidth, originalHeight)
      end
  end.

End processing.

(* ===================================================================== *)
(** * The vocabulary of the specification *)
(* ===================================================================== *)

Module spec.
Import chunk encode processing.

(** [clamp(x, lo, hi)]. *)
Definition clamp (x lo hi : Z) : Z := Z.max lo (Z.min x hi).

(** [T_max]: 6, 10 or 16 threads for SD, HD, UHD widths. *)
Definition T_max (width : Z) : Z :=
  if width <? 1920 then 6 else if width <? 3840 then 10 else 16.

(** The thread budget as the specification writes it. *)
Definition threads (physical logical W width : Z) : Z :=
  clamp (physical ÷ W + (if physical <? logical then 1 else 0)) 1 (T_max width).

(** The worker count as the specification writes it, with the product
    and the quotient taken exactly: [available * 0.70 / class] is
    [7 * available / (10 * class)]. *)
Definition workers (available W_req class : Z) : Z * bool :=
  let W := clamp (7 * available / (10 * class)) 1 W_req in (W, W <? W_req).

(** The same with the product as the code takes it: in binary64, then
    cut to an integer. *)
Definition usable (available : Z) : Z :=
  float64.to_uint64 (float64.mul (float64.of_int available) (float64.const 7 10)).


Definition GiB : Z := 2 ^ 30.

(** The errors latched while the workers run, in order. *)
Definition failures (trace : list event) : list error :=
  omap (fun ev => match ev with
                  | WorkerSourceFailed e => Some e
                  | Received r => Error r
                  end) trace.

(** The chunks [EncodeAll] queues for encoding in a work directory;
    the others are skipped. *)
Definition remaining (wd : WorkDir) (chunks : list Chunk) : option (list Chunk) :=
  match GetResume (doneTxt wd) with
  | Ok resume => Some (countRemaining (DoneSet resume) chunks).1
  | Fail _ => None
  end.

(** The index appears in at least one well-formed line of the log. *)
Definition logged (resume : ResumeInf) (idx : Z) : Prop :=
  ∃ c, c ∈ ChunksDone resume ∧ cIdx c = idx.

(** [t] is [s] without an optional leading ["crop="]. *)
Definition stripped (s t : gostring) : Prop :=
  s = str "crop=" ++ t \/ ((forall t', s <> str "crop=" ++ t') /\ t = s).

(** [p0] and [p1] are the first two colon-separated fields of [s]. *)
Definition firstTwoFields (s p0 p1 : gostring) : Prop :=
  (":"%char ∉ p0) /\ (":"%char ∉ p1)
  /\ (s = p0 ++ ":"%char :: p1 \/ exists rest, s = p0 ++ ":"%char :: p1 ++ ":"%char :: rest).

(** The crop filter names the dimensions [w] x [h]: its first two
    fields parse as unsigned integers. *)
Definition cropDims (cropFilter : gostring) (w h : Z) : Prop :=
  exists params p0 p1,
    stripped cropFilter params /\ firstTwoFields params p0 p1
    /\ strconv.ParseUint p0 32 = Some w /\ strconv.ParseUint p1 32 = Some h.

(** The chunk list is an exact partition of [[0, total)]: it is not empty,
    starts at 0, each chunk ends where the next one starts, the last one
    ends at [total], chunk [i] has index [i], and no chunk is empty. *)
Definition partitions (chunks : list Chunk) (total : Z) : Prop :=
  (1 <= length chunks)%nat
  /\ (forall c, chunks !! 0%nat = Some c -> Start c = 0)
  /\ (forall i c c', chunks !! i = Some c -> chunks !! S i = Some c' -> End_ c = Start c')
  /\ (forall c, last chunks = Some c -> End_ c = total)
  /\ (forall i c, chunks !! i = Some c -> Idx c = Z.of_nat i)
  /\ (forall c, c ∈ chunks -> 1 <= End_ c - Start c).

(** Scenes that follow one another without gap from frame [a] to frame
    [b], none of them empty. *)
Fixpoint chained (a : Z) (scenes : list Scene) (b : Z) : Prop :=
  match scenes with
  | [] => a = b
  | s :: rest => StartFrame s = a /\ a < EndFrame s /\ chained (EndFrame s) rest b
  end.

(** The bytes [%d] can produce: digits and the minus sign. *)
Definition isNumeric (c : ascii) : bool := strconv.isDigit c || Ascii.eqb c "-".

(** What the formatted numbers look like: not empty, at most 21 bytes,
    digits and sign only. *)
Definition numeral (s : gostring) : Prop :=
  s <> [] /\ (length s <= 21)%nat /\ Forall (fun c => isNumeric c = true) s.

(** The line written for a record, seen as three numerals. *)
Definition doneLine (a b c : gostring) : gostring := a ++ " "%char :: b ++ " "%char :: c.

Definition sumZ (l : list Z) : Z := foldr Z.add 0 l.

(** The number of samples behind a walk of the count map. *)
Definition totalOf (entries : list (gostring * Z)) : Z := sumZ (entries.*2).

(** [r], seen [n] times, is a most common rectangle. *)
Definition mostCommon (entries : list (gostring * Z)) (r : gostring) (n : Z) : Prop :=
  (r, n) ∈ entries /\ forall e, e ∈ entries -> e.2 <= n.

(** The share [n / total] exceeds 0.80, exactly. *)
Definition exceeds80 (n total : Z) : Prop := 4 * total < 5 * n.

(** The rectangle [r] has exactly the width [w] and the height [h]. *)
Definition rectDims (r : gostring) (w h : Z) : Prop :=
  exists p0 p1, firstTwoFields r p0 p1
                /\ strconv.ParseUint p0 32 = Some w /\ strconv.ParseUint p1 32 = Some h.

(** The binary64 test [ratio > 0.8] agrees with the exact comparison for
    all counts that [numSamples] samples can produce. *)
Definition dominantTable : bool :=
  forallb (fun total =>
             forallb (fun n => Bool.eqb (dominant n total) (4 * total <? 5 * n))
                     (seqZ 1 total))
          (seqZ 1 numSamples).

(** The frames of a chunk list. *)
Definition framesOf (chunks : list Chunk) : Z :=
  sumZ ((fun ch => End_ ch - Start ch) <$> chunks).

(** What a worker can report for the chunk [ch] it was handed: a failure,
    or the chunk's frame count and the size of the output file. *)
Definition resultFor (ch : Chunk) (r : EncodeResult) : Prop :=
  ChunkIdx r = Idx ch
  /\ (Error r = None -> rFrames r = Frames ch /\ 0 <= rSize r <= goint.maxUint64).

(** The traces one run can produce over the chunks still to encode: the
    dispatcher hands out every remaining chunk at most once, in any order
    of completion, and a chunk that was handed out is reported at most
    once. *)
Inductive admissible : list Chunk -> list event -> Prop :=
  | admissible_nil rem : admissible rem []
  | admissible_source rem e trace :
      admissible rem trace -> admissible rem (WorkerSourceFailed e :: trace)
  | admissible_result rem1 ch rem2 r trace :
      resultFor ch r -> admissible (rem1 ++ rem2) trace ->
      admissible (rem1 ++ ch :: rem2) (Received r :: trace).

(** The log agrees with the plan: its records are, one for one, different
    chunks of the plan, each with the frame count of its chunk. *)
Definition consistent (chunks : list Chunk) (resume : ResumeInf) : Prop :=
  exists doneChunks,
    doneChunks ⊆+ chunks
    /\ Forall2 (fun ch c => cIdx c = Idx ch /\ cFrames c = End_ ch - Start ch)
               doneChunks (ChunksDone resume).

(** The bytes the successful results of a trace report. *)
Definition bytesIn (trace : list event) : Z :=
  sumZ (omap (fun ev => match ev with
                        | Received r =>
                            match Error r with None => Some (rSize r) | Some _ => None end
                        | WorkerSourceFailed _ => None
                        end) trace).

(** All bytes of a run: those of the log and those of the trace. *)
Definition bytesOf (resume : ResumeInf) (trace : list event) : Z :=
  sumZ (cSize <$> ChunksDone resume) + bytesIn trace.

Definition le_progress (p q : Progress) : Prop :=
  ChunksComplete p <= ChunksComplete q
  /\ FramesComplete p <= FramesComplete q
  /\ BytesComplete p <= BytesComplete q.

(** The two totals [Progress] has bound their counters. *)
Definition bounded (p : Progress) : Prop :=
  ChunksComplete p <= ChunksTotal p /\ FramesComplete p <= FramesTotal p.

Definition monotone (ps : list Progress) : Prop :=
  forall i p q, ps !! i = Some p -> ps !! S i = Some q -> le_progress p q.

(** What holds of the collector while [rem] is still to be reported and
    [trace] is still to come. *)
Definition collecting (N F : Z) (rem : list Chunk) (trace : list event)
    (st : Collector) : Prop :=
  let p := progress st in
  ChunksTotal p = N /\ FramesTotal p = F
  /\ N <= goint.maxInt /\ F <= goint.maxInt
  /\ 0 <= ChunksComplete p /\ ChunksComplete p + Z.of_nat (length rem) <= N
  /\ 0 <= FramesComplete p /\ FramesComplete p + framesOf rem <= F
  /\ 0 <= BytesComplete p /\ BytesComplete p + bytesIn trace <= goint.maxUint64
  /\ Forall (fun q => le_progress q p /\ bounded q) (reported st)
  /\ monotone (reported st).

End spec.

(* ===================================================================== *)
(** * Package chunk: scene validation (internal/chunk/chunk.go) *)
(* ===================================================================== *)

Module scenes.
Import chunk.

(** The four ways [ValidateScenes] fails. *)
Inductive sceneError : Type :=
  | ErrNoScenes
  | ErrFPSDenominator
  | ErrSceneTooLong (i length maxFrames : Z)
  | ErrSceneLength (i length : Z).

(** [int(f)] for a finite [f]: the integer part, towards zero. (Go leaves
    infinities and NaN to the implementation; they do not arise from the
    quotient of two [uint32] with a non-zero divisor.) *)
Definition to_int (f : spec_float) : Z :=
  match f with
  | S754_finite s m e => cond_Zopp s (Z.shiftl (Zpos m) e)
  | _ => 0
  end.

(** [min(int(fps*30), 1000)] with [fps := float64(fpsNum) / float64(fpsDen)]. *)
Definition maxSceneFrames (fpsNum fpsDen : Z) : Z :=
  let fps := float64.div (float64.of_int fpsNum) (float64.of_int fpsDen) in
  Z.min (to_int (float64.mul fps (float64.of_int 30))) 1000.

(** The loop over the scenes, from scene number [i] on. *)
Fixpoint validateFrom (i : Z) (scenes : list Scene) (maxFrames : Z)
  : option sceneError :=
  match scenes with
  | [] => None
  | scene :: rest =>
      let length := goint.wrap_int (EndFrame scene - StartFrame scene) in
      if maxFrames <? length then Some (ErrSceneTooLong i length maxFrames)
      else if length <=? 0 then Some (ErrSceneLength i length)
      else validateFrom (i + 1) rest maxFrames
  end.

(** [ValidateScenes]: [None] is Go's [nil]. *)
Definition ValidateScenes (scenes : list Scene) (fpsNum fpsDen : Z)
  : option sceneError :=
  match scenes with
  | [] => Some ErrNoScenes
  | _ =>
      if fpsDen =? 0 then Some ErrFPSDenominator
      else validateFrom 0 scenes (maxSceneFrames fpsNum fpsDen)
  end.

End scenes.

(* ===================================================================== *)
(** * Package encode: one chunk on one worker (encodeChunkStreaming) *)
(* ===================================================================== *)

Module worker.
Import chunk encode.

(** What the encoder process, the decoder and the context answer while
    one chunk is encoded; an error is given by its message. *)
Record ChunkIO := {
  stdinPipe : option gostring;
  startCmd : option gostring;
  cancelled : Z -> bool;
  extractFrame : Z -> option gostring;
  writeFrame : Z -> option gostring;
  waitCmd : option gostring;
  statErr : option gostring;
  statSize : Z
}.

(** How the frame loop ends. *)
Inductive loopEnd : Type :=
  | LoopDone
  | LoopCancelled
  | LoopExtractFailed (frameIdx : Z) (msg : gostring)
  | LoopWriteFailed (msg : gostring).

(** [for i := 0; i < frameCount; i++]: [n] iterations are left, [written]
    lists the frames handed to the encoder so far. *)
Fixpoint streamFrames (io : ChunkIO) (start i : Z) (n : nat) (written : list Z)
  : loopEnd * list Z :=
  match n with
  | O => (LoopDone, written)
  | S n' =>
      if cancelled io i then (LoopCancelled, written)
      else
        let frameIdx := goint.wrap_int (start + i) in
        match extractFrame io frameIdx with
        | Some msg => (LoopExtractFailed frameIdx msg, written)
        | None =>
            match writeFrame io i with
            | Some msg => (LoopWriteFailed msg, written)
            | None => streamFrames io start (i + 1) n' (written ++ [frameIdx])
            end
        end
  end.

(** A result that carries [fmt.Errorf(prefix + ": %w", err)]. *)
Definition failed (ch : Chunk) (prefix msg : gostring) : EncodeResult :=
  {| ChunkIdx := Idx ch; rFrames := 0; rSize := 0;
     Error := Some (ErrChunk (prefix ++ str ": " ++ msg)) |}.

(** [encodeChunkStreaming]: the result sent to the collector and the
    frames written to the encoder, in order. *)
Definition encodeChunkStreaming (io : ChunkIO) (ch : Chunk) : EncodeResult * list Z :=
  let frameCount := Frames ch in
  match stdinPipe io with
  | Some msg => (failed ch (str "failed to create stdin pipe") msg, [])
  | None =>
      match startCmd io with
      | Some msg => (failed ch (str "failed to start encoder") msg, [])
      | None =>
          match streamFrames io (Start ch) 0 (Z.to_nat frameCount) [] with
          | (LoopCancelled, written) =>
              ({| ChunkIdx := Idx ch; rFrames := 0; rSize := 0;
                  Error := Some ErrCancelled |}, written)
          | (LoopExtractFailed frameIdx msg, written) =>
              (failed ch (str "failed to extract frame " ++ strconv.FormatInt frameIdx) msg, written)
          | (LoopWriteFailed msg, written) =>
              (failed ch (str "failed to write frame data") msg, written)
          | (LoopDone, written) =>
              match waitCmd io with
              | Some msg => (failed ch (str "encoder failed") msg, written)
              | None =>
                  match statErr io with
                  | Some msg => (failed ch (str "failed to stat output") msg, written)
                  | None =>
                      ({| ChunkIdx := Idx ch; rFrames := frameCount;
                          rSize := goint.wrap_uint64 (statSize io); Error := None |},
                       written)
                  end
              end
          end
      end
  end.

End worker.

(* ===================================================================== *)
(** * Package chunk: batched merge (internal/encoder/encoder.go) *)
(* ===================================================================== *)

Module merge.

Definition batchSize : Z := 500.

Inductive mergeError : Type :=
  | ErrTempDir
  | ErrBatchConcat (batchNum : Z)
  | ErrBatchMerge
  | ErrFinalConcat
  | ErrFinalMerge
  | ErrRename.

(** What the file system and ffmpeg answer. *)
Record MergeIO := {
  mkdirOk : bool;
  concatOk : Z -> bool;
  batchOk : Z -> bool;
  finalConcatOk : bool;
  finalOk : bool;
  renameOk : bool
}.

(** One merged batch: its number and the chunk indices whose files it
    lists, in order. *)
Record Batch := { batchNum : Z; members : list Z }.

(** [for start := 0; start < numChunks; start += batchSize]. The loop is
    run for at most [fuel] rounds; [None] when these do not suffice. *)
Fixpoint batchLoop (fuel : nat) (io : MergeIO) (numChunks start num : Z)
    (done : list Batch) : option (list Batch * option mergeError) :=
  if negb (start <? numChunks) then Some (done, None)
  else
    match fuel with
    | O => None
    | S fuel' =>
        let end_ := goint.wrap_int (start + batchSize) in
        let end_ := if numChunks <? end_ then numChunks else end_ in
        let batchPaths := seqZ start (end_ - start) in
        if negb (concatOk io num) then Some (done, Some (ErrBatchConcat num))
        else if negb (batchOk io num) then Some (done, Some ErrBatchMerge)
        else batchLoop fuel' io numChunks (goint.wrap_int (start + batchSize))
                       (goint.wrap_int (num + 1))
                       (done ++ [{| batchNum := num; members := batchPaths |}])
    end.

(** [MergeBatched]: the batches merged and the error returned, if any. *)
Definition MergeBatched (io : MergeIO) (numChunks : Z)
  : option (list Batch * option mergeError) :=
  if numChunks <=? batchSize then Some ([], None)
  else if negb (mkdirOk io) then Some ([], Some ErrTempDir)
  else
    match batchLoop (Z.to_nat (numChunks / batchSize + 1)) io numChunks 0 0 [] with
    | None => None
    | Some (done, Some e) => Some (done, Some e)
    | Some (done, None) =>
        if negb (finalConcatOk io) then Some (done, Some ErrFinalConcat)
        else if negb (finalOk io) then Some (done, Some ErrFinalMerge)
        else if negb (renameOk io) then Some (done, Some ErrRename)
        else Some (done, None)
    end.

(** A batch lists at least one and at most 500 chunk files. *)
Definition batchSized (b : Batch) : Prop := (1 <= length (members b) <= 500)%nat.

End merge.

(* ===================================================================== *)
(** * Package config: validation and resolution tiers *)
(* ===================================================================== *)

Module config.

Definition HDWidthThreshold : Z := 1920.
Definition UHDWidthThreshold : Z := 3840.

(** The fields of [Config] that [Validate] and the tier functions read.
    The [uint8] and [int] fields are integers, the durations [float64]. *)
Record Config := {
  SVTAV1Preset : Z;
  CRFSD : Z;
  CRFHD : Z;
  CRFUHD : Z;
  Workers : Z;
  ChunkBuffer : Z;
  ChunkDurationSD : spec_float;
  ChunkDurationHD : spec_float;
  ChunkDurationUHD : spec_float
}.

Inductive configError : Type :=
  | ErrPreset
  | ErrCRFSD
  | ErrCRFHD
  | ErrCRFUHD
  | ErrWorkers
  | ErrChunkBuffer
  | ErrChunkDuration (name : string).

(** [cd.value < 1 || cd.value > 120]. *)
Definition durationOutOfRange (value : spec_float) : bool :=
  SFltb value (float64.of_int 1) || float64.gtb value (float64.of_int 120).

Definition Validate (c : Config) : option configError :=
  if 13 <? SVTAV1Preset c then Some ErrPreset
  else if 63 <? CRFSD c then Some ErrCRFSD
  else if 63 <? CRFHD c then Some ErrCRFHD
  else if 63 <? CRFUHD c then Some ErrCRFUHD
  else if Workers c <? 1 then Some ErrWorkers
  else if ChunkBuffer c <? 0 then Some ErrChunkBuffer
  else if durationOutOfRange (ChunkDurationSD c) then Some (ErrChunkDuration "chunk_duration_sd")
  else if durationOutOfRange (ChunkDurationHD c) then Some (ErrChunkDuration "chunk_duration_hd")
  else if durationOutOfRange (ChunkDurationUHD c) then Some (ErrChunkDuration "chunk_duration_uhd")
  else None.

Definition CRFForWidth (c : Config) (width : Z) : Z :=
  if UHDWidthThreshold <=? width then CRFUHD c
  else if HDWidthThreshold <=? width then CRFHD c
  else CRFSD c.

Definition ChunkDurationForWidth (c : Config) (width : Z) : spec_float :=
  if UHDWidthThreshold <=? width then ChunkDurationUHD c
  else if HDWidthThreshold <=? width then ChunkDurationHD c
  else ChunkDurationSD c.

End config.

(* ===================================================================== *)
(** * The command line: the --crf flag (parseCRF) *)
(* ===================================================================== *)

Module cli.
Import config.

(** The three ways [parseCRF] fails: a single value that does not parse,
    a value of a triple that does not parse (with its position, from 1),
    and a number of values that is neither 1 nor 3. *)
Inductive crfError : Type :=
  | ErrCRFValue
  | ErrCRFPosition (position : Z)
  | ErrCRFCount (n : Z).

(** [uint8(v)]. *)
Definition to_uint8 (v : Z) : Z := v mod 2 ^ 8.

(** The configuration after the three CRF fields were assigned. *)
Definition withCRF (cfg : Config) (sd hd uhd : Z) : Config :=
  {| SVTAV1Preset := SVTAV1Preset cfg;
     CRFSD := sd; CRFHD := hd; CRFUHD := uhd;
     Workers := Workers cfg; ChunkBuffer := ChunkBuffer cfg;
     ChunkDurationSD := ChunkDurationSD cfg;
     ChunkDurationHD := ChunkDurationHD cfg;
     ChunkDurationUHD := ChunkDurationUHD cfg |}.

(** [parseCRF]: the configuration it leaves when it returns [nil], or
    its error; on an error the configuration was not touched. *)
Definition parseCRF (crfStr : gostring) (cfg : Config) : Config + crfError :=
  match strings.Split crfStr "," with
  | [part] =>
      match strconv.ParseUint (strings.TrimSpace part) 8 with
      | None => inr ErrCRFValue
      | Some val => inl (withCRF cfg (to_uint8 val) (to_uint8 val) (to_uint8 val))
      end
  | [p0; p1; p2] =>
      match strconv.ParseUint (strings.TrimSpace p0) 8 with
      | None => inr (ErrCRFPosition 1)
      | Some v0 =>
          match strconv.ParseUint (strings.TrimSpace p1) 8 with
          | None => inr (ErrCRFPosition 2)
          | Some v1 =>
              match strconv.ParseUint (strings.TrimSpace p2) 8 with
              | None => inr (ErrCRFPosition 3)
              | Some v2 => inl (withCRF cfg (to_uint8 v0) (to_uint8 v1) (to_uint8 v2))
              end
          end
      end
  | parts => inr (ErrCRFCount (Z.of_nat (length parts)))
  end.

(** The number of commas in a string. *)
Definition commas (s : gostring) : nat :=
  length (filter (fun c => c = ","%char) s).

End cli.

(* ===================================================================== *)
(** * Package encode: one worker (streamingWorker) *)
(* ===================================================================== *)

Module pool.
Import chunk encode worker.

(** What one worker meets: whether its video source opens and, for the
    [i]-th chunk it takes from the channel, whether the context is done,
    whether an error is latched, and what encoder and decoder answer. *)
Record WorkerIO := {
  openSrc : option gostring;
  ctxDone : nat -> bool;
  errLatched : nat -> bool;
  chunkIO : nat -> ChunkIO
}.

(** What the worker did: how often it called [sem.Release], the results
    it sent, in order, and the error it latched itself. *)
Record WorkerOut := {
  released : nat;
  sent : list EncodeResult;
  latched : option error
}.

(** [for ch := range chunkChan] with an open source; [chunks] are the
    chunks this worker takes from the channel, [i] counts them. *)
Fixpoint workerLoop (io : WorkerIO) (i : nat) (chunks : list Chunk)
    (released : nat) (sent : list EncodeResult) : nat * list EncodeResult :=
  match chunks with
  | [] => (released, sent)
  | ch :: rest =>
      if ctxDone io i then
        workerLoop io (S i) rest (S released)
          (sent ++ [{| ChunkIdx := Idx ch; rFrames := 0; rSize := 0;
                       Error := Some ErrCancelled |}])
      else if errLatched io i then
        workerLoop io (S i) rest (S released) sent
      else
        let result := (encodeChunkStreaming (chunkIO io i) ch).1 in
        workerLoop io (S i) rest (S released) (sent ++ [result])
  end.

(** [streamingWorker]. Without a video source the worker latches the
    error, drains the channel and releases a permit for every chunk. *)
Definition streamingWorker (io : WorkerIO) (chunks : list Chunk) : WorkerOut :=
  match openSrc io with
  | Some msg =>
      {| released := foldl (fun n _ => S n) O chunks; sent := [];
         latched := Some (ErrVideoSource msg) |}
  | None =>
      let '(n, results) := workerLoop io 0 chunks O [] in
      {| released := n; sent := results; latched := None |}
  end.

End pool.

(* ===================================================================== *)
(** * More vocabulary: logs and runs *)
(* ===================================================================== *)

Module runs.
Import chunk encode.

(** A log to which a line can be appended as a line of its own: no file
    yet, an empty file, or one that ends in a line feed. *)
Definition wellTerminated (f : file) : Prop :=
  f = NotExist \/ exists data, f = Content data /\ (data = [] \/ exists d, data = d ++ ["010"%char]).

(** The fields of a record fit their Go types. *)
Definition inRange (c : ChunkComp) : Prop :=
  goint.is_int (cIdx c) /\ goint.is_int (cFrames c) /\ goint.is_uint64 (cSize c).


(** A clean and complete run over the chunks [rem]: every one of them is
    reported once, in some order, and every report is a success. *)
Definition completes (rem : list Chunk) (trace : list event) : Prop :=
  exists order results,
    order ≡ₚ rem /\ trace = Received <$> results
    /\ Forall2 (fun ch r => spec.resultFor ch r /\ Error r = None) order results.

(** The number of samples that produced a rectangle. *)
Definition hits (samples : list gostring) : Z :=
  Z.of_nat (length (filter (fun crop => crop <> []) samples)).

(** The sum of all counts of a count map. *)
Definition mapTotal (counts : gmap gostring Z) : Z :=
  spec.sumZ ((map_to_list counts).*2).

End runs.

(* ===================================================================== *)
(** * Admission policy *)
(* ===================================================================== *)

Section admission.
Import encode spec.

Lemma maxThreadsFor_T_max width : maxThreadsFor width = T_max width.
Proof.
  unfold maxThreadsFor, T_max.
  repeat case_match; lia.
Qed.

Lemma T_max_pos width : 1 <= T_max width.
Proof. unfold T_max. repeat case_match; lia. Qed.

(** C8. For every worker count [W >= 1], every reading of the physical
    and logical core counts and every frame width,
    [calculateThreadsPerWorker] returns
    [clamp(physical / W + (1 if logical > physical else 0), 1, T_max(width))],
    the division being Go's integer division and [T_max] being 6 below
    width 1920, 10 from 1920 up to 3839 and 16 from 3840 on. *)
Theorem threads_per_worker_clamp (host : Host) (W width : Z) :
  1 <= W ->
  calculateThreadsPerWorker host W width
  = threads (PhysicalCores host) (LogicalCores host) W width.
Proof.
  intros HW. unfold calculateThreadsPerWorker, threads, clamp.
  rewrite maxThreadsFor_T_max.
  pose proof (T_max_pos width) as Hmax.
  destruct (Z.leb_spec W 0) as [?|_]; [lia|].
  set (q := PhysicalCores host ÷ W). clearbody q.
  destruct (PhysicalCores host <? LogicalCores host); cbn [andb].
  - destruct (Z.ltb_spec q (T_max width)); lia.
  - replace (q + 0) with q by lia. reflexivity.
Qed.

Lemma threads_per_worker_clamp_witness :
  calculateThreadsPerWorker
    {| AvailableMemoryBytes := 0; PhysicalCores := 16; LogicalCores := 32 |} 4 1920
  = threads 16 32 4 1920.
Proof.
  apply (threads_per_worker_clamp
           {| AvailableMemoryBytes := 0; PhysicalCores := 16; LogicalCores := 32 |}
           4 1920).
  lia.
Defined.

Lemma usable_nonneg available : 0 <= usable available.
Proof.
  unfold usable, float64.to_uint64.
  destruct (float64.mul _ _) as [ | | |[] m e]; try lia.
  apply Z.shiftl_nonneg. lia.
Qed.

Lemma memoryPerWorker_pos width height : 0 < memoryPerWorker width height.
Proof. unfold memoryPerWorker. repeat case_match; reflexivity. Qed.

(** The three memory classes: 0.5 GiB, 2 GiB and 5 GiB. *)
Lemma memoryPerWorker_classes width height :
  memoryPerWorker width height =
    if (3840 <=? width) || (2160 <=? height) then 5 * 2 ^ 30
    else if (1920 <=? width) || (1080 <=? height) then 2 * 2 ^ 30
    else 2 ^ 29.
Proof. unfold memoryPerWorker. repeat case_match; reflexivity. Qed.



(** The scenario of the specification: 12 GiB available, UHD, eight
    workers requested. *)
Example cap_workers_uhd_12GiB :
  CapWorkers {| AvailableMemoryBytes := 12 * GiB; PhysicalCores := 8; LogicalCores := 16 |}
             8 3840 2160 = (1, true).
Proof. vm_compute. reflexivity. Qed.


(** The binary64 product can also fall one short of the exact quotient:
    45 GiB at class 0.5 GiB is 63 workers exactly, 62 in the code. *)
Example cap_workers_rounding :
  CapWorkers {| AvailableMemoryBytes := 45 * GiB; PhysicalCores := 8; LogicalCores := 16 |}
             64 1280 720 = (62, true)
  /\ workers (45 * GiB) 64 (memoryPerWorker 1280 720) = (63, true).
Proof. vm_compute. split; reflexivity. Qed.

(** C9 as stated fails: the same request on the same frame size is
    answered differently on hosts that report different memory. *)
Lemma cap_workers_reads_host :
  ~ (forall (h1 h2 : Host) requested width height,
        CapWorkers h1 requested width height = CapWorkers h2 requested width height).
Proof.
  intros H.
  specialize (H {| AvailableMemoryBytes := 12 * GiB; PhysicalCores := 8; LogicalCores := 16 |}
                {| AvailableMemoryBytes := 64 * GiB; PhysicalCores := 8; LogicalCores := 16 |}
                8 3840 2160).
  vm_compute in H. discriminate H.
Qed.

(** C9, as the code has it. The admission policy is a function of the
    requested worker count, the width, the height and the host's reading
    of available memory: two invocations that agree on these four return
    the same (effective workers, capped) pair, whatever else differs
    between the hosts. *)
Theorem cap_workers_deterministic (h1 h2 : Host) (requested width height : Z) :
  AvailableMemoryBytes h1 = AvailableMemoryBytes h2 ->
  CapWorkers h1 requested width height = CapWorkers h2 requested width height.
Proof. intros Heq. unfold CapWorkers. rewrite Heq. reflexivity. Qed.

Lemma cap_workers_deterministic_witness :
  CapWorkers {| AvailableMemoryBytes := 12 * GiB; PhysicalCores := 8; LogicalCores := 16 |}
             8 3840 2160
  = CapWorkers {| AvailableMemoryBytes := 12 * GiB; PhysicalCores := 4; LogicalCores := 4 |}
               8 3840 2160.
Proof. apply cap_workers_deterministic. reflexivity. Defined.

End admission.

(* ===================================================================== *)
(** * Resume: which chunks are skipped *)
(* ===================================================================== *)

Section resume.
Import chunk encode spec.

Lemma countRemaining_from (doneSet : gmap Z bool) (chunks acc : list Chunk) (total : Z) :
  (foldl (fun '(remainingChunks, totalFrames) ch =>
            (if negb (index doneSet (Idx ch))
             then remainingChunks ++ [ch] else remainingChunks,
             goint.wrap_int (totalFrames + Frames ch)))
         (acc, total) chunks).1
  = acc ++ List.filter (fun ch => negb (index doneSet (Idx ch))) chunks.
Proof.
  revert acc total. induction chunks as [|ch chunks IH]; intros acc total; cbn.
  - by rewrite app_nil_r.
  - rewrite IH. destruct (negb (index doneSet (Idx ch))); cbn.
    + by rewrite <- app_assoc.
    + reflexivity.
Qed.

Lemma countRemaining_filter (doneSet : gmap Z bool) (chunks : list Chunk) :
  (countRemaining doneSet chunks).1
  = List.filter (fun ch => negb (index doneSet (Idx ch))) chunks.
Proof. unfold countRemaining. by rewrite countRemaining_from. Qed.

Lemma index_insert_true (m : gmap Z bool) (i k : Z) :
  index (<[i := true]> m) k = true <-> i = k \/ index m k = true.
Proof.
  unfold index. destruct (decide (i = k)) as [->|Hne].
  - rewrite lookup_insert_eq. cbn. tauto.
  - rewrite lookup_insert_ne by done. split; [tauto|]. intros [?|?]; done.
Qed.

Lemma index_DoneSet_from (l : list ChunkComp) (m : gmap Z bool) (k : Z) :
  index (foldl (fun done c => <[cIdx c := true]> done) m l) k = true
  <-> index m k = true \/ exists c, c ∈ l /\ cIdx c = k.
Proof.
  revert m. induction l as [|c l IH]; intros m; cbn.
  - split; [tauto|]. intros [?|(c & Hc & _)]; [done|]. by apply not_elem_of_nil in Hc.
  - rewrite IH, index_insert_true. split.
    + intros [[Heq|Hm]|(c' & Hin & Heq)].
      * right. exists c. split; [apply list_elem_of_here|done].
      * by left.
      * right. exists c'. split; [by apply list_elem_of_further|done].
    + intros [Hm|(c' & Hin & Heq)]; [tauto|].
      apply elem_of_cons in Hin as [->|Hin]; [tauto|].
      right. by exists c'.
Qed.

(** [doneSet[idx]] holds exactly for the indices that occur in the log. *)
Lemma index_DoneSet (resume : ResumeInf) (k : Z) :
  index (DoneSet resume) k = true <-> logged resume k.
Proof.
  unfold DoneSet, logged. rewrite index_DoneSet_from.
  unfold index at 1. rewrite lookup_empty. cbn. split; [|tauto].
  intros [?|?]; done.
Qed.

Lemma remaining_iff (resume : ResumeInf) (chunks : list Chunk) (ch : Chunk) :
  ch ∈ chunks ->
  ch ∈ (countRemaining (DoneSet resume) chunks).1 <-> ~ logged resume (Idx ch).
Proof.
  intros Hin. rewrite countRemaining_filter, list_elem_of_In, filter_In.
  rewrite <- list_elem_of_In, <- index_DoneSet.
  destruct (index (DoneSet resume) (Idx ch)); cbn.
  - split; [intros [_ Hf]; discriminate Hf|]. intros Hn. exfalso. by apply Hn.
  - split; [intros _ Hf; discriminate Hf|]. intros _. split; [done|reflexivity].
Qed.

(** C1 as stated fails: a chunk whose index is in [done.txt] is skipped
    even when its output file is missing. *)
Lemma resume_ignores_output_files :
  ~ (forall (wd : WorkDir) (chunks rem : list Chunk) (resume : ResumeInf) (ch : Chunk),
        GetResume (doneTxt wd) = Ok resume ->
        remaining wd chunks = Some rem ->
        ch ∈ chunks ->
        (ch ∉ rem <-> (logged resume (Idx ch) /\ Idx ch ∈ outputs wd))).
Proof.
  intros H.
  pose (ch := {| Idx := 0; Start := 0; End_ := 10 |}).
  pose (wd := {| encodeDirOk := true;
                 doneTxt := Content (str "0 10 100" ++ ["010"%char]);
                 outputs := ∅ |}).
  specialize (H wd [ch] [] {| ChunksDone := [{| cIdx := 0; cFrames := 10; cSize := 100 |}] |} ch).
  destruct H as [H _]; [reflexivity|reflexivity|apply list_elem_of_here|].
  destruct H as [_ Hout]; [apply not_elem_of_nil|].
  cbn in Hout. by apply not_elem_of_empty in Hout.
Qed.

(** C1, as the code has it. For every planned chunk, [EncodeAll] skips it
    on resume exactly when its index appears at least once in a
    well-formed line of [done.txt], whether or not its output file
    exists; in particular a chunk whose output file exists but whose
    index is absent from the log is queued for encoding again. *)
Theorem resume_skips_logged (wd : WorkDir) (chunks : list Chunk)
    (resume : ResumeInf) (ch : Chunk) :
  GetResume (doneTxt wd) = Ok resume ->
  ch ∈ chunks ->
  exists rem,
    remaining wd chunks = Some rem
    /\ (ch ∉ rem <-> logged resume (Idx ch))
    /\ (Idx ch ∈ outputs wd -> ~ logged resume (Idx ch) -> ch ∈ rem).
Proof.
  intros Hres Hin. unfold remaining. rewrite Hres. eexists. split; [reflexivity|].
  pose proof (remaining_iff resume chunks ch Hin) as Hiff.
  split.
  - rewrite Hiff. split; [|tauto].
    intros Hnn. destruct (index (DoneSet resume) (Idx ch)) eqn:E.
    + by apply index_DoneSet.
    + exfalso. apply Hnn. rewrite <- index_DoneSet, E. discriminate.
  - intros _ Hno. by apply Hiff.
Qed.

Lemma resume_skips_logged_witness :
  let ch := {| Idx := 1; Start := 10; End_ := 20 |} in
  let wd := {| encodeDirOk := true;
               doneTxt := Content (str "0 10 100" ++ ["010"%char]);
               outputs := {[ 1 ]} |} in
  let resume := {| ChunksDone := [{| cIdx := 0; cFrames := 10; cSize := 100 |}] |} in
  exists rem,
    remaining wd [{| Idx := 0; Start := 0; End_ := 10 |}; ch] = Some rem
    /\ (ch ∉ rem <-> logged resume (Idx ch))
    /\ (Idx ch ∈ outputs wd -> ~ logged resume (Idx ch) -> ch ∈ rem).
Proof.
  intros ch wd resume.
  apply (resume_skips_logged wd _ resume ch).
  - reflexivity.
  - apply list_elem_of_further, list_elem_of_here.
Defined.

End resume.

(* ===================================================================== *)
(** * The error slot *)
(* ===================================================================== *)

Section latching.
Import chunk encode spec.

Lemma step_encodeErr (st : Collector) (ev : event) :
  encodeErr (step st ev)
  = match ev with
    | WorkerSourceFailed e => setError e (encodeErr st)
    | Received r =>
        match Error r with
        | Some e => setError e (encodeErr st)
        | None => encodeErr st
        end
    end.
Proof. destruct ev as [e|r]; cbn; [done|]. unfold collect. by destruct (Error r). Qed.

(** Once an error is latched the slot never changes. *)
Lemma run_latched (trace : list event) (st : Collector) (e : error) :
  encodeErr st = Some e -> encodeErr (run st trace) = Some e.
Proof.
  revert st. induction trace as [|ev trace IH]; intros st Hst; cbn; [done|].
  apply IH. rewrite step_encodeErr, Hst.
  destruct ev as [e'|r]; [done|]. by destruct (Error r).
Qed.

Lemma failures_cons (ev : event) (trace : list event) :
  failures (ev :: trace)
  = match ev with
    | WorkerSourceFailed e => e :: failures trace
    | Received r =>
        match Error r with
        | Some e => e :: failures trace
        | None => failures trace
        end
    end.
Proof. destruct ev as [e|r]; [done|]. unfold failures. cbn. by destruct (Error r). Qed.

(** The slot after a run holds the first failure of the run. *)
Lemma run_first_failure (trace : list event) (st : Collector) :
  encodeErr st = None -> encodeErr (run st trace) = head (failures trace).
Proof.
  revert st. induction trace as [|ev trace IH]; intros st Hst; [done|].
  rewrite failures_cons.
  change (run st (ev :: trace)) with (run (step st ev) trace).
  pose proof (step_encodeErr st ev) as Hstep. rewrite Hst in Hstep.
  destruct ev as [e|r].
  - by apply run_latched.
  - destruct (Error r) as [e|]; [by apply run_latched | by apply IH].
Qed.

Lemma failures_app (t1 t2 : list event) :
  failures (t1 ++ t2) = failures t1 ++ failures t2.
Proof. unfold failures. apply omap_app. Qed.

Lemma EncodeAll_returned host chunks inf cfg wd cropCalc resume trace :
  encodeDirOk wd = true ->
  GetResume (doneTxt wd) = Ok resume ->
  (countRemaining (DoneSet resume) chunks).1 <> [] ->
  returned (EncodeAll host chunks inf cfg wd (Ok cropCalc) trace)
  = head (failures trace).
Proof.
  intros Hdir Hres Hrem. unfold EncodeAll. rewrite Hdir, Hres. cbn.
  destruct (countRemaining (DoneSet resume) chunks) as [rem total]. cbn in Hrem.
  destruct rem as [|ch rem]; [done|]. cbn.
  by apply run_first_failure.
Qed.

(** C6. When [k >= 1] failures are latched during one run of the
    pipeline (failed chunk encodes reported to the collector, or a worker
    that cannot open its video source), [EncodeAll] returns exactly one
    error, the first one latched into the error slot; the [k - 1] later
    ones are silenced, and no failure still to come changes the returned
    error. *)
Theorem first_error_latched host chunks inf cfg wd cropCalc resume trace e later :
  encodeDirOk wd = true ->
  GetResume (doneTxt wd) = Ok resume ->
  (countRemaining (DoneSet resume) chunks).1 <> [] ->
  failures trace = e :: later ->
  returned (EncodeAll host chunks inf cfg wd (Ok cropCalc) trace) = Some e
  /\ forall more,
      returned (EncodeAll host chunks inf cfg wd (Ok cropCalc) (trace ++ more)) = Some e.
Proof.
  intros Hdir Hres Hrem Hfail. split.
  - rewrite (EncodeAll_returned _ _ _ _ _ _ resume) by done. by rewrite Hfail.
  - intros more. rewrite (EncodeAll_returned _ _ _ _ _ _ resume) by done.
    by rewrite failures_app, Hfail.
Qed.

Lemma first_error_latched_witness :
  let host := {| AvailableMemoryBytes := 0; PhysicalCores := 8; LogicalCores := 16 |} in
  let chunks := [{| Idx := 0; Start := 0; End_ := 10 |};
                 {| Idx := 1; Start := 10; End_ := 20 |}] in
  let wd := {| encodeDirOk := true; doneTxt := NotExist; outputs := ∅ |} in
  let e0 := ErrChunk (str "encoder failed") in
  let trace := [Received {| ChunkIdx := 1; rFrames := 0; rSize := 0; Error := Some e0 |};
                Received {| ChunkIdx := 0; rFrames := 0; rSize := 0; Error := Some ErrCancelled |}] in
  returned (EncodeAll host chunks {| Width := 1280; Height := 720 |}
              {| Workers := 2; ChunkBuffer := 4; LogicalProcessors := 0 |}
              wd (Ok None) trace) = Some e0.
Proof.
  intros host chunks wd e0 trace.
  apply (first_error_latched host chunks _ _ wd None {| ChunksDone := [] |}
           trace e0 [ErrCancelled]); [reflexivity|reflexivity|discriminate|reflexivity].
Defined.

End latching.

(* ===================================================================== *)
(** * Strings: splitting and prefixes *)
(* ===================================================================== *)

Section string_facts.
Import strings.

Lemma cutPrefix_Some (p s t : gostring) : cutPrefix s p = Some t <-> s = p ++ t.
Proof.
  revert s. induction p as [|c p IH]; intros s; cbn.
  - split; [by intros [= ->] | by intros ->].
  - destruct s as [|d s]; [split; discriminate|].
    destruct (Ascii.eqb_spec d c) as [->|Hne].
    + rewrite IH. split; [by intros -> | by intros [= ->]].
    + split; [discriminate|]. intros [= ? _]. contradiction.
Qed.

Lemma cutPrefix_None (p s : gostring) :
  cutPrefix s p = None <-> forall t, s <> p ++ t.
Proof.
  split.
  - intros Hn t Ht. apply cutPrefix_Some in Ht. congruence.
  - intros Hn. destruct (cutPrefix s p) as [t|] eqn:E; [|done].
    apply cutPrefix_Some in E. by apply Hn in E.
Qed.

Lemma splitFrom_notin (sep : ascii) (p cur rest : gostring) :
  sep ∉ p -> splitFrom sep cur (p ++ rest) = splitFrom sep (cur ++ p) rest.
Proof.
  revert cur. induction p as [|c p IH]; intros cur Hp; cbn.
  - by rewrite app_nil_r.
  - apply not_elem_of_cons in Hp as [Hc Hp].
    destruct (Ascii.eqb_spec c sep) as [->|_]; [done|].
    rewrite IH by done. by rewrite <- app_assoc.
Qed.

Lemma splitFrom_single (sep : ascii) (p cur : gostring) :
  sep ∉ p -> splitFrom sep cur p = [cur ++ p].
Proof.
  intros Hp. rewrite <- (app_nil_r p) at 1. by rewrite splitFrom_notin.
Qed.

(** A string either has no separator and is its own single part, or it
    breaks at its first separator. *)
Lemma splitFrom_cases (sep : ascii) (s cur : gostring) :
  ((sep ∉ s) /\ splitFrom sep cur s = [cur ++ s])
  \/ (exists a r, s = a ++ sep :: r /\ (sep ∉ a)
                  /\ splitFrom sep cur s = (cur ++ a) :: splitFrom sep [] r).
Proof.
  revert cur. induction s as [|c s IH]; intros cur; cbn.
  - left. split; [apply not_elem_of_nil | by rewrite app_nil_r].
  - destruct (Ascii.eqb_spec c sep) as [->|Hne].
    + right. exists [], s. split; [done|]. split; [apply not_elem_of_nil|].
      by rewrite app_nil_r.
    + destruct (IH (cur ++ [c])) as [[Hs Heq]|(a & r & -> & Ha & Heq)].
      * left. split; [apply not_elem_of_cons; split; [congruence|done]|].
        by rewrite Heq, <- app_assoc.
      * right. exists (c :: a), r. split; [done|].
        split; [apply not_elem_of_cons; split; [congruence|done]|].
        by rewrite Heq, <- app_assoc.
Qed.

Lemma Split_first_two (s p0 p1 : gostring) :
  (exists tl, Split s ":" = p0 :: p1 :: tl) <-> spec.firstTwoFields s p0 p1.
Proof.
  unfold Split, spec.firstTwoFields. split.
  - intros [tl Hs].
    destruct (splitFrom_cases ":" s []) as [[_ Heq]|(a & r & -> & Ha & Heq)];
      [congruence|].
    rewrite Heq in Hs. injection Hs as <- Hr. cbn.
    destruct (splitFrom_cases ":" r []) as [[Hr' Heq']|(b & r' & -> & Hb & Heq')];
      rewrite Heq' in Hr; injection Hr as <- _; cbn.
    + split; [done|]. split; [done|]. by left.
    + split; [done|]. split; [done|]. right. by exists r'.
  - intros (H0 & H1 & [->|[rest ->]]).
    + rewrite splitFrom_notin by done. cbn.
      rewrite splitFrom_single by done. by exists [].
    + rewrite splitFrom_notin by done. cbn.
      rewrite splitFrom_notin by done. cbn. by eexists.
Qed.

Lemma TrimPrefix_cases (p s t : gostring) :
  (s = p ++ t \/ ((forall t', s <> p ++ t') /\ t = s)) <-> t = TrimPrefix s p.
Proof.
  unfold TrimPrefix.
  destruct (cutPrefix s p) as [u|] eqn:E.
  - apply cutPrefix_Some in E. split.
    + intros [Heq|[Hno _]]; [|by apply Hno in E].
      rewrite E in Heq. by apply app_inv_head in Heq.
    + intros ->. by left.
  - rewrite cutPrefix_None in E. split.
    + intros [Heq|[_ ->]]; [by apply E in Heq|done].
    + intros ->. by right.
Qed.

Lemma TrimPrefix_stripped (s t : gostring) :
  spec.stripped s t <-> t = TrimPrefix s (str "crop=").
Proof. apply TrimPrefix_cases. Qed.

End string_facts.

(* ===================================================================== *)
(** * Output dimensions *)
(* ===================================================================== *)

Section output_dimensions.
Import processing spec.

Lemma ParseUint_range (s : gostring) (bits n : Z) :
  strconv.ParseUint s bits = Some n -> n < 2 ^ bits.
Proof.
  unfold strconv.ParseUint. destruct s; [discriminate|].
  destruct (strconv.parseDigits _ _) as [m|]; [|discriminate].
  destruct (Z.ltb_spec m (2 ^ bits)); [|discriminate]. by intros [= <-].
Qed.

Lemma parseDigits_lower (s : gostring) (acc n : Z) :
  strconv.parseDigits s acc = Some n -> 0 <= acc -> acc <= n.
Proof.
  revert acc. induction s as [|c s IH]; intros acc; cbn.
  - intros [= <-]. lia.
  - unfold strconv.isDigit, strconv.digitVal.
    destruct (_ && _)%bool eqn:Hd; [|discriminate].
    apply andb_prop in Hd as [Hlo _]. apply N.leb_le in Hlo.
    intros Hp Hacc. apply IH in Hp; lia.
Qed.

Lemma ParseUint_nonneg (s : gostring) (bits n : Z) :
  strconv.ParseUint s bits = Some n -> 0 <= n.
Proof.
  unfold strconv.ParseUint. destruct s; [discriminate|].
  destruct (strconv.parseDigits _ _) as [m|] eqn:E; [|discriminate].
  destruct (m <? 2 ^ bits); [|discriminate]. intros [= <-].
  apply parseDigits_lower in E; lia.
Qed.

Lemma ParseUint32_to_uint32 (s : gostring) (n : Z) :
  strconv.ParseUint s 32 = Some n -> goint.to_uint32 n = n.
Proof.
  intros H. unfold goint.to_uint32. apply Z.mod_small.
  split; [by eapply ParseUint_nonneg | by eapply ParseUint_range].
Qed.

(** What [GetOutputDimensions] returns, by cases on the filter. *)
Lemma GetOutputDimensions_cases (ow oh : Z) (cropFilter : gostring) :
  (exists w h, cropFilter <> [] /\ cropDims cropFilter w h
               /\ GetOutputDimensions ow oh cropFilter = (w, h))
  \/ ((cropFilter = [] \/ ~ exists w h, cropDims cropFilter w h)
      /\ GetOutputDimensions ow oh cropFilter = (ow, oh)).
Proof.
  destruct cropFilter as [|c0 s0]; [right; split; [by left|done]|].
  set (cropFilter := c0 :: s0).
  unfold GetOutputDimensions. fold cropFilter.
  set (params := strings.TrimPrefix cropFilter (str "crop=")).
  assert (Hstrip : stripped cropFilter params) by by apply TrimPrefix_stripped.
  assert (Hno : forall w h p0 p1,
             cropDims cropFilter w h ->
             (exists tl, strings.Split params ":" = p0 :: p1 :: tl) ->
             strconv.ParseUint p0 32 = Some w /\ strconv.ParseUint p1 32 = Some h).
  { intros w h p0 p1 (params' & q0 & q1 & Hs & Hf & Hw & Hh) Htl.
    apply TrimPrefix_stripped in Hs. subst params'. fold params in Hf.
    apply Split_first_two in Hf as [tl' Hf]. destruct Htl as [tl Htl].
    rewrite Hf in Htl. by injection Htl as -> -> _. }
  destruct (strings.Split params ":") as [|p0 [|p1 tl]] eqn:Hsplit.
  - right. split; [|done]. right. intros (w & h & params' & q0 & q1 & Hs & Hf & _).
    apply TrimPrefix_stripped in Hs. subst params'.
    apply Split_first_two in Hf as [tl' Hf]. fold params in Hf. congruence.
  - right. split; [|done]. right. intros (w & h & params' & q0 & q1 & Hs & Hf & _).
    apply TrimPrefix_stripped in Hs. subst params'.
    apply Split_first_two in Hf as [tl' Hf]. fold params in Hf. congruence.
  - assert (Hf : firstTwoFields params p0 p1) by (apply Split_first_two; by exists tl).
    destruct (strconv.ParseUint p0 32) as [w|] eqn:Hw.
    + destruct (strconv.ParseUint p1 32) as [h|] eqn:Hh.
      * left. exists w, h. split; [done|]. split.
        { by exists params, p0, p1. }
        by rewrite (ParseUint32_to_uint32 p0), (ParseUint32_to_uint32 p1).
      * right. split; [|done]. right. intros (w' & h' & Hd).
        destruct (Hno w' h' p0 p1 Hd) as [_ ?]; [by exists tl|congruence].
    + right. split; [|done]. right. intros (w' & h' & Hd).
      destruct (Hno w' h' p0 p1 Hd) as [? _]; [by exists tl|congruence].
Qed.

Lemma cropDims_unique (cropFilter : gostring) (w h w' h' : Z) :
  cropDims cropFilter w h -> cropDims cropFilter w' h' -> w = w' /\ h = h'.
Proof.
  intros (pa & p0 & p1 & Hs & Hf & Hw & Hh) (pa' & q0 & q1 & Hs' & Hf' & Hw' & Hh').
  apply TrimPrefix_stripped in Hs, Hs'. subst pa pa'.
  apply Split_first_two in Hf as [tl Hf]. apply Split_first_two in Hf' as [tl' Hf'].
  rewrite Hf in Hf'. injection Hf' as <- <- _. split; congruence.
Qed.

(** C10. [GetOutputDimensions] is total and never fails. If the crop
    filter is empty, or its first two colon-separated fields (after
    stripping an optional ["crop="] prefix) do not both parse as unsigned
    (32-bit) integers, it returns the original width and height
    unchanged; otherwise it returns the two parsed values. A malformed
    filter thus silently falls back to the source dimensions. *)
Theorem output_dimensions_fallback (ow oh : Z) (cropFilter : gostring) :
  (forall w h, cropFilter <> [] -> cropDims cropFilter w h ->
               GetOutputDimensions ow oh cropFilter = (w, h))
  /\ (cropFilter = [] \/ ~ (exists w h, cropDims cropFilter w h) ->
      GetOutputDimensions ow oh cropFilter = (ow, oh)).
Proof.
  destruct (GetOutputDimensions_cases ow oh cropFilter)
    as [(w & h & Hne & Hd & Heq)|[Hbad Heq]]; split.
  - intros w' h' _ Hd'. destruct (cropDims_unique _ _ _ _ _ Hd Hd') as [<- <-]. done.
  - intros [->|Hno]; [done|]. exfalso. apply Hno. by exists w, h.
  - intros w' h' Hne Hd'. destruct Hbad as [->|Hno]; [done|].
    exfalso. apply Hno. by exists w', h'.
  - done.
Qed.

Lemma output_dimensions_fallback_witness :
  GetOutputDimensions 1920 1080 (str "crop=1920:800:0:140") = (1920, 800)
  /\ GetOutputDimensions 1920 1080 [] = (1920, 1080).
Proof.
  split.
  - apply (output_dimensions_fallback 1920 1080 (str "crop=1920:800:0:140"));
      [discriminate|].
    exists (str "1920:800:0:140"), (str "1920"), (str "800").
    split; [by left|]. split; [|split; reflexivity].
    split; [|split].
    + apply (bool_decide_unpack _). reflexivity.
    + apply (bool_decide_unpack _). reflexivity.
    + right. by exists (str "0:140").
  - apply (output_dimensions_fallback 1920 1080 []). by left.
Defined.

End output_dimensions.

(* ===================================================================== *)
(** * Chunk planning: scenes and chunks partition the frames *)
(* ===================================================================== *)

Section planning.
Import chunk spec.

Lemma insertInt_Forall (P : Z -> Prop) (x : Z) (l : list Z) :
  Forall P (insertInt x l) <-> P x /\ Forall P l.
Proof.
  induction l as [|y l IH]; cbn.
  - rewrite Forall_singleton, Forall_nil. tauto.
  - destruct (x <=? y).
    + rewrite (Forall_cons P x). tauto.
    + rewrite !Forall_cons, IH. tauto.
Qed.

Lemma sortInts_Forall (P : Z -> Prop) (l : list Z) :
  Forall P (sortInts l) <-> Forall P l.
Proof.
  induction l as [|x l IH]; cbn; [done|].
  by rewrite insertInt_Forall, Forall_cons, IH.
Qed.

Lemma insertInt_sorted (x : Z) (l : list Z) :
  Sorted Z.le l -> Sorted Z.le (insertInt x l).
Proof.
  induction l as [|y l IH]; cbn; intros Hs.
  - by repeat constructor.
  - destruct (Z.leb_spec x y) as [Hle|Hgt].
    + constructor; [done|]. by constructor.
    + apply Sorted_inv in Hs as [Hs Hhd]. constructor; [by apply IH|].
      destruct l as [|z l]; cbn.
      * constructor. lia.
      * apply HdRel_inv in Hhd. destruct (x <=? z); constructor; lia.
Qed.

(** [sort.Ints] leaves an ascending slice. *)
Lemma sortInts_sorted (l : list Z) : Sorted Z.le (sortInts l).
Proof.
  induction l as [|x l IH]; cbn; [constructor|]. by apply insertInt_sorted.
Qed.

Lemma ensureZero_head (l : list Z) :
  Sorted Z.le l -> Forall (fun n => 0 <= n) l ->
  exists rest, ensureZero l = 0 :: rest /\ Sorted Z.le (0 :: rest)
               /\ forall P : Z -> Prop, P 0 -> Forall P l -> Forall P (0 :: rest).
Proof.
  intros Hs Hnn. destruct l as [|first l]; cbn.
  - exists []. split; [done|]. split; [by repeat constructor|]. by constructor.
  - destruct (Z.eqb_spec first 0) as [->|Hne].
    + exists l. split; [done|]. split; [done|]. done.
    + exists (first :: l). split; [done|]. split.
      * constructor; [done|]. constructor. by apply Forall_cons in Hnn as [? _].
      * intros P H0 HP. by constructor.
Qed.

(** Walking an ascending list of boundaries below [total] yields scenes
    that run without gap from the first boundary to [total]. *)
Lemma scenesOf_chained (total : Z) (l : list Z) (x : Z) :
  Sorted Z.le (x :: l) -> Forall (fun n => n < total) (x :: l) ->
  scenesOf (x :: l) total <> [] /\ chained x (scenesOf (x :: l) total) total.
Proof.
  revert x. induction l as [|y l IH]; intros x Hs Hlt.
  - apply Forall_cons in Hlt as [Hx _]. cbn.
    destruct (Z.ltb_spec x total); [|lia]. cbn. split; [done|]. split; [done|]. split; [lia|done].
  - apply Sorted_inv in Hs as [Hs Hhd]. apply HdRel_inv in Hhd.
    apply Forall_cons in Hlt as [Hx Hlt].
    destruct (IH y Hs Hlt) as [Hne Hch].
    change (scenesOf (x :: y :: l) total)
      with (if x <? y
            then {| StartFrame := x; EndFrame := y |} :: scenesOf (y :: l) total
            else scenesOf (y :: l) total).
    destruct (Z.ltb_spec x y) as [Hxy|Hxy].
    + split; [done|]. cbn [chained StartFrame EndFrame]. split; [done|]. by split.
    + assert (x = y) as -> by lia. by split.
Qed.

Lemma chained_first a scenes b s :
  chained a scenes b -> scenes !! 0%nat = Some s -> StartFrame s = a.
Proof. destruct scenes as [|s0 r]; [done|]. cbn. by intros [? _] [= <-]. Qed.

Lemma chained_adjacent a scenes b i s s' :
  chained a scenes b -> scenes !! i = Some s -> scenes !! S i = Some s' ->
  EndFrame s = StartFrame s'.
Proof.
  revert a i. induction scenes as [|s0 r IH]; intros a i Hch Hi HSi; [done|].
  destruct Hch as (_ & _ & Hch). destruct i as [|i].
  - cbn in Hi. injection Hi as <-. cbn in HSi. symmetry. by eapply chained_first.
  - by eapply IH.
Qed.

Lemma chained_last a scenes b s :
  chained a scenes b -> last scenes = Some s -> EndFrame s = b.
Proof.
  revert a. induction scenes as [|s0 r IH]; intros a Hch Hl; [done|].
  destruct Hch as (_ & _ & Hch). destruct r as [|s1 r].
  - cbn in Hl. injection Hl as <-. done.
  - by eapply IH.
Qed.

Lemma chained_nonempty a scenes b s :
  chained a scenes b -> s ∈ scenes -> StartFrame s < EndFrame s.
Proof.
  revert a. induction scenes as [|s0 r IH]; intros a Hch Hin.
  - by apply not_elem_of_nil in Hin.
  - destruct Hch as (Hs & Hlt & Hch). apply elem_of_cons in Hin as [->|Hin].
    + lia.
    + by eapply IH.
Qed.

Lemma Chunkify_lookup (scenes : list Scene) (i : nat) (c : Chunk) :
  Chunkify scenes !! i = Some c <->
  exists s, scenes !! i = Some s
            /\ c = {| Idx := Z.of_nat i; Start := StartFrame s; End_ := EndFrame s |}.
Proof.
  unfold Chunkify. rewrite list_lookup_imap.
  destruct (scenes !! i) as [s|]; cbn.
  - split; [intros [= <-]; by exists s | by intros (s' & [= <-] & ->)].
  - split; [done | by intros (s' & ? & _)].
Qed.

Lemma Chunkify_length (scenes : list Scene) : length (Chunkify scenes) = length scenes.
Proof. unfold Chunkify. apply length_imap. Qed.

(** Chained scenes become a partition. *)
Lemma Chunkify_partitions (scenes : list Scene) (total : Z) :
  scenes <> [] -> chained 0 scenes total -> partitions (Chunkify scenes) total.
Proof.
  intros Hne Hch. unfold partitions. repeat split.
  - rewrite Chunkify_length. destruct scenes; [done|]. cbn. lia.
  - intros c (s & Hs & ->)%Chunkify_lookup. cbn. by eapply chained_first.
  - intros i c c' (s & Hs & ->)%Chunkify_lookup (s' & Hs' & ->)%Chunkify_lookup. cbn.
    by eapply chained_adjacent.
  - intros c Hl. rewrite last_lookup, Chunkify_length in Hl.
    apply Chunkify_lookup in Hl as (s & Hs & ->). cbn.
    rewrite <- last_lookup in Hs. by eapply chained_last.
  - intros i c (s & Hs & ->)%Chunkify_lookup. done.
  - intros c (i & Hi)%list_elem_of_lookup.
    apply Chunkify_lookup in Hi as (s & Hs & ->). cbn.
    apply list_elem_of_lookup_2 in Hs. pose proof (chained_nonempty _ _ _ _ Hch Hs). lia.
Qed.

(** C2. For every positive [total_frames] and every scenes file that can
    be read and lists boundaries lying in [[0, total_frames)], loading the
    scenes succeeds and the chunk list [Chunkify] makes of them is an exact
    partition of [[0, total_frames)]: the first chunk starts at 0, each
    chunk's end is the next chunk's start, the last chunk ends at
    [total_frames], the indices run 0..N-1 with N >= 1, and every chunk has
    [end - start >= 1]. *)
Theorem load_chunkify_partitions (data : gostring) (lines : list gostring)
    (frameNums : list Z) (totalFrames : Z) :
  0 < totalFrames ->
  strings.Scanner data = (lines, false) ->
  parseFrameNums lines = Ok frameNums ->
  Forall (fun n => 0 <= n < totalFrames) frameNums ->
  exists scenes,
    LoadScenes (Content data) totalFrames = Ok scenes
    /\ partitions (Chunkify scenes) totalFrames.
Proof.
  intros Htotal Hscan Hparse Hrange.
  unfold LoadScenes. rewrite Hscan, Hparse. eexists. split; [reflexivity|].
  assert (Hsorted := sortInts_sorted frameNums).
  apply sortInts_Forall in Hrange.
  destruct (ensureZero_head (sortInts frameNums)) as (rest & -> & Hs0 & Hall).
  - done.
  - eapply Forall_impl; [exact Hrange|]. cbn. lia.
  - destruct (scenesOf_chained totalFrames rest 0) as [Hne Hch]; [done| |].
    + apply Hall; [lia|]. eapply Forall_impl; [exact Hrange|]. cbn. lia.
    + by apply Chunkify_partitions.
Qed.

Lemma load_chunkify_partitions_witness :
  exists scenes,
    LoadScenes (Content (str "200" ++ "010"%char :: str "100" ++ "010"%char :: str " 0 ")) 250
    = Ok scenes
    /\ partitions (Chunkify scenes) 250.
Proof.
  apply (load_chunkify_partitions _ [str "200"; str "100"; str " 0 "] [200; 100; 0] 250).
  - lia.
  - reflexivity.
  - reflexivity.
  - repeat constructor; lia.
Defined.

End planning.

(* ===================================================================== *)
(** * The resume log: formatting and parsing *)
(* ===================================================================== *)

Section resume_log.
Import strings strconv chunk spec.

Lemma isNumeric_plain (c : ascii) :
  isNumeric c = true ->
  isSpace c = false /\ Ascii.eqb c "010" = false /\ Ascii.eqb c "013" = false.
Proof. destruct c as [[] [] [] [] [] [] [] []]; cbn; intros H; try discriminate H; done. Qed.

Lemma isDigit_unsigned (c : ascii) :
  isDigit c = true -> Ascii.eqb c "-" = false /\ Ascii.eqb c "+" = false.
Proof. destruct c as [[] [] [] [] [] [] [] []]; cbn; intros H; try discriminate H; done. Qed.

Lemma digitChar_digit (d : Z) :
  0 <= d < 10 -> isDigit (digitChar d) = true /\ digitVal (digitChar d) = d.
Proof.
  intros Hd.
  assert (d = 0 \/ d = 1 \/ d = 2 \/ d = 3 \/ d = 4 \/ d = 5 \/ d = 6 \/ d = 7
          \/ d = 8 \/ d = 9) as Hcases by lia.
  repeat (destruct Hcases as [->|Hcases]; [done|]). by subst d.
Qed.

(** Reading back what [formatBits] wrote gives the number. *)
Lemma formatBits_parse (fuel : nat) (u : Z) (acc : gostring) :
  0 <= u < 10 ^ Z.of_nat fuel ->
  parseDigits (formatBits fuel u acc) 0 = parseDigits acc u.
Proof.
  revert u acc. induction fuel as [|k IH]; intros u acc Hu.
  - cbn in Hu. assert (u = 0) as -> by lia. done.
  - cbn [formatBits]. destruct (Z.ltb_spec u 10) as [Hlt|Hge].
    + destruct (digitChar_digit u) as [Hd Hv]; [lia|].
      cbn [parseDigits]. by rewrite Hd, Hv.
    + rewrite IH.
      * destruct (digitChar_digit (u mod 10)) as [Hd Hv]; [by apply Z.mod_pos_bound|].
        cbn [parseDigits]. rewrite Hd, Hv. f_equal. pose proof (Z.div_mod u 10). lia.
      * rewrite Nat2Z.inj_succ, Z.pow_succ_r in Hu by lia.
        split; [apply Z.div_pos; lia|]. apply Z.div_lt_upper_bound; lia.
Qed.

Lemma formatBits_digits (fuel : nat) (u : Z) (acc : gostring) :
  0 <= u -> Forall (fun c => isDigit c = true) acc ->
  Forall (fun c => isDigit c = true) (formatBits fuel u acc).
Proof.
  revert u acc. induction fuel as [|k IH]; intros u acc Hu Hacc; [done|].
  cbn [formatBits]. destruct (Z.ltb_spec u 10) as [Hlt|Hge].
  - constructor; [|done]. by apply digitChar_digit.
  - apply IH; [apply Z.div_pos; lia|].
    constructor; [|done]. by apply digitChar_digit, Z.mod_pos_bound.
Qed.

Lemma formatBits_length (fuel : nat) (u : Z) (acc : gostring) :
  (length acc < length (formatBits (S fuel) u acc) <= S fuel + length acc)%nat.
Proof.
  revert u acc. induction fuel as [|k IH]; intros u acc.
  - cbn. destruct (u <? 10); cbn; lia.
  - cbn [formatBits]. destruct (u <? 10); [cbn; lia|].
    specialize (IH (u / 10) (digitChar (u mod 10) :: acc)). cbn [formatBits length] in IH.
    cbn [length]. lia.
Qed.

Lemma FormatUint_digits (u : Z) :
  0 <= u ->
  FormatUint u <> [] /\ (length (FormatUint u) <= 20)%nat
  /\ Forall (fun c => isDigit c = true) (FormatUint u).
Proof.
  intros Hu. unfold FormatUint. pose proof (formatBits_length 19 u []) as Hlen.
  cbn [length] in Hlen. split; [|split].
  - intros Heq. rewrite Heq in Hlen. cbn in Hlen. lia.
  - lia.
  - by apply formatBits_digits.
Qed.

Lemma FormatUint_numeral (u : Z) : 0 <= u -> numeral (FormatUint u).
Proof.
  intros Hu. destruct (FormatUint_digits u Hu) as (Hne & Hlen & Hd).
  split; [done|]. split; [lia|].
  eapply Forall_impl; [exact Hd|]. intros c Hc. unfold isNumeric. by rewrite Hc.
Qed.

Lemma FormatInt_numeral (i : Z) : numeral (FormatInt i).
Proof.
  unfold FormatInt. destruct (Z.ltb_spec i 0) as [Hneg|Hpos].
  - destruct (FormatUint_numeral (- i)) as (Hne & Hlen & Hd); [lia|].
    destruct (FormatUint_digits (- i)) as (_ & Hlen' & _); [lia|].
    split; [done|]. split; [cbn [length]; lia|]. by constructor.
  - by apply FormatUint_numeral.
Qed.

Lemma ParseUint_FormatUint (u : Z) :
  0 <= u <= goint.maxUint64 -> ParseUint (FormatUint u) 64 = Some u.
Proof.
  intros Hu. unfold goint.maxUint64 in Hu.
  destruct (FormatUint_digits u) as (Hne & _ & _); [lia|].
  unfold ParseUint. destruct (FormatUint u) as [|c r] eqn:E; [done|]. rewrite <- E.
  unfold FormatUint. rewrite formatBits_parse by (cbn; lia). cbn [parseDigits].
  destruct (Z.ltb_spec u (2 ^ 64)); [done|lia].
Qed.

Lemma Atoi_FormatInt (i : Z) :
  goint.minInt <= i <= goint.maxInt -> Atoi (FormatInt i) = Some i.
Proof.
  unfold goint.minInt, goint.maxInt. intros Hi. unfold FormatInt.
  destruct (Z.ltb_spec i 0) as [Hneg|Hpos].
  - destruct (FormatUint_digits (- i)) as (Hne & _ & _); [lia|].
    unfold Atoi. rewrite Ascii.eqb_refl. cbn [orb].
    destruct (FormatUint (- i)) as [|c r] eqn:E; [done|]. rewrite <- E.
    unfold FormatUint. rewrite formatBits_parse by (cbn; lia). cbn [parseDigits].
    destruct (Z.leb_spec (- i) (2 ^ 63)); [|lia]. f_equal. lia.
  - destruct (FormatUint_digits i) as (Hne & _ & Hd); [lia|].
    unfold Atoi. destruct (FormatUint i) as [|c r] eqn:E; [done|].
    apply Forall_cons in Hd as [Hc _]. destruct (isDigit_unsigned c Hc) as [-> ->].
    cbn [orb]. rewrite <- E.
    unfold FormatUint. rewrite formatBits_parse by (cbn; lia). cbn [parseDigits].
    destruct (Z.ltb_spec i (2 ^ 63)); [done|lia].
Qed.

Lemma fieldsFrom_word (w cur s : gostring) :
  Forall (fun c => isSpace c = false) w ->
  fieldsFrom cur (w ++ s) = fieldsFrom (cur ++ w) s.
Proof.
  revert cur. induction w as [|c w IH]; intros cur Hw; cbn.
  - by rewrite app_nil_r.
  - apply Forall_cons in Hw as [Hc Hw]. rewrite Hc, IH by done. by rewrite <- app_assoc.
Qed.

Lemma fieldsFrom_space (cur s : gostring) :
  cur <> [] -> fieldsFrom cur (" "%char :: s) = cur :: fieldsFrom [] s.
Proof. intros Hcur. cbn. by destruct cur. Qed.

Lemma fieldsFrom_last (w : gostring) :
  w <> [] -> Forall (fun c => isSpace c = false) w -> fieldsFrom [] w = [w].
Proof.
  intros Hne Hw. rewrite <- (app_nil_r w) at 1. rewrite fieldsFrom_word by done.
  cbn. by destruct w.
Qed.

Lemma Fields_three (a b c : gostring) :
  a <> [] -> b <> [] -> c <> [] ->
  Forall (fun x => isSpace x = false) a ->
  Forall (fun x => isSpace x = false) b ->
  Forall (fun x => isSpace x = false) c ->
  Fields (a ++ " "%char :: b ++ " "%char :: c) = [a; b; c].
Proof.
  intros Ha Hb Hc Fa Fb Fc. unfold Fields.
  rewrite fieldsFrom_word by done. cbn [app]. rewrite fieldsFrom_space by done. f_equal.
  rewrite fieldsFrom_word by done. cbn [app]. rewrite fieldsFrom_space by done. f_equal.
  by apply fieldsFrom_last.
Qed.

Lemma TrimSpace_id (s : gostring) :
  (forall c r, s = c :: r -> isSpace c = false) ->
  (forall l d, s = l ++ [d] -> isSpace d = false) ->
  TrimSpace s = s.
Proof.
  intros Hfirst Hlast. unfold TrimSpace.
  assert (trimLeft s = s) as ->.
  { destruct s as [|c r]; [done|]. cbn. by rewrite (Hfirst c r). }
  destruct (rev s) as [|d l] eqn:E.
  - by apply (f_equal (@rev ascii)) in E; rewrite rev_involutive in E.
  - assert (s = rev l ++ [d]) as Hs.
    { by rewrite <- (rev_involutive s), E. }
    cbn [trimLeft]. rewrite (Hlast _ _ Hs), Hs. cbn. reflexivity.
Qed.

Lemma rawLinesFrom_line (w cur rest : gostring) :
  Forall (fun c => Ascii.eqb c "010" = false) w ->
  rawLinesFrom cur (w ++ rest) = rawLinesFrom (cur ++ w) rest.
Proof.
  revert cur. induction w as [|c w IH]; intros cur Hw; cbn.
  - by rewrite app_nil_r.
  - apply Forall_cons in Hw as [Hc Hw]. rewrite Hc, IH by done. by rewrite <- app_assoc.
Qed.

Lemma rawLinesFrom_newline (cur : gostring) :
  rawLinesFrom cur ["010"%char] = [cur].
Proof. reflexivity. Qed.

Lemma dropCR_id (l : gostring) (d : ascii) :
  Ascii.eqb d "013" = false -> dropCR (l ++ [d]) = l ++ [d].
Proof. intros Hd. unfold dropCR. rewrite rev_unit. by rewrite Hd. Qed.

Lemma numeral_plain (s : gostring) :
  numeral s -> Forall (fun c => isSpace c = false) s
               /\ Forall (fun c => Ascii.eqb c "010" = false) s.
Proof.
  intros (_ & _ & Hs). split; (eapply Forall_impl; [exact Hs|]);
    intros c Hc; by destruct (isNumeric_plain c Hc) as (? & ? & ?).
Qed.

Lemma doneLine_last (a b c l : gostring) (d : ascii) :
  numeral c -> doneLine a b c = l ++ [d] -> isNumeric d = true.
Proof.
  intros (Hne & _ & Hc) Heq.
  destruct (exists_last Hne) as (c' & d' & ->).
  unfold doneLine in Heq.
  replace (a ++ " "%char :: b ++ " "%char :: c' ++ [d'])
    with ((a ++ " "%char :: b ++ " "%char :: c') ++ [d']) in Heq
    by (rewrite <- !app_assoc; cbn; by rewrite <- !app_assoc).
  apply app_inj_tail in Heq as [_ <-].
  apply Forall_app in Hc as [_ Hd]. apply (Forall_singleton (fun c => isNumeric c = true)) in Hd. exact Hd.
Qed.

(** A line of three numerals is scanned and split into just these. *)
Lemma doneLine_scanned (a b c : gostring) :
  numeral a -> numeral b -> numeral c ->
  Scanner (doneLine a b c ++ ["010"%char]) = ([doneLine a b c], false)
  /\ TrimSpace (doneLine a b c) = doneLine a b c
  /\ Fields (doneLine a b c) = [a; b; c].
Proof.
  intros Ha Hb Hc.
  destruct (numeral_plain a Ha) as [Sa Na], (numeral_plain b Hb) as [Sb Nb],
    (numeral_plain c Hc) as [Sc Nc].
  assert (Hlen : (length (doneLine a b c) <= 65)%nat).
  { unfold doneLine. rewrite length_app. cbn [length]. rewrite length_app. cbn [length].
    destruct Ha as (_ & ? & _), Hb as (_ & ? & _), Hc as (_ & ? & _). lia. }
  assert (Hlast : forall l d, doneLine a b c = l ++ [d] -> isNumeric d = true)
    by (intros l d; by apply doneLine_last).
  split; [|split].
  - unfold Scanner. rewrite rawLinesFrom_line.
    2:{ unfold doneLine. apply Forall_app. split; [done|]. constructor; [done|].
        apply Forall_app. split; [done|]. by constructor. }
    cbn [app]. rewrite rawLinesFrom_newline. cbn [scanTokens].
    unfold tooLong, MaxScanTokenSize.
    destruct (Z.leb_spec (64 * 1024) (Z.of_nat (length (doneLine a b c)))); [lia|].
    destruct Hc as (Hne & _). destruct (exists_last Hne) as (c' & d & Hc').
    assert (doneLine a b c = (a ++ " "%char :: b ++ " "%char :: c') ++ [d]) as Heq.
    { unfold doneLine. rewrite Hc'. rewrite <- !app_assoc. cbn. by rewrite <- !app_assoc. }
    rewrite Heq at 1. rewrite dropCR_id.
    + by rewrite <- Heq.
    + by destruct (isNumeric_plain d (Hlast _ _ Heq)) as (_ & _ & ?).
  - apply TrimSpace_id.
    + intros x r Heq. destruct Ha as (Hne & _ & Hall). destruct a as [|a0 a]; [done|].
      unfold doneLine in Heq. injection Heq as <- _.
      apply Forall_cons in Hall as [H0 _]. by destruct (isNumeric_plain a0 H0).
    + intros l d Heq. by destruct (isNumeric_plain d (Hlast _ _ Heq)).
  - destruct Ha as (? & _), Hb as (? & _), Hc as (? & _). by apply Fields_three.
Qed.

Lemma formatDone_doneLine (c : ChunkComp) :
  formatDone c
  = doneLine (FormatInt (cIdx c)) (FormatInt (cFrames c)) (FormatUint (cSize c))
    ++ ["010"%char].
Proof.
  unfold formatDone, doneLine. rewrite <- !app_assoc. cbn. by rewrite <- !app_assoc.
Qed.

Lemma parseDoneLine_doneLine (c : ChunkComp) :
  goint.is_int (cIdx c) -> goint.is_int (cFrames c) -> goint.is_uint64 (cSize c) ->
  parseDoneLine
    (doneLine (FormatInt (cIdx c)) (FormatInt (cFrames c)) (FormatUint (cSize c)))
  = Some c.
Proof.
  intros Hi Hf Hs.
  destruct (doneLine_scanned (FormatInt (cIdx c)) (FormatInt (cFrames c))
              (FormatUint (cSize c))) as (_ & Htrim & Hfields);
    [apply FormatInt_numeral | apply FormatInt_numeral
     | apply FormatUint_numeral; apply Hs |].
  unfold parseDoneLine. rewrite Htrim, Hfields.
  rewrite !Atoi_FormatInt, ParseUint_FormatUint by done.
  destruct (doneLine _ _ _) eqn:E.
  - destruct (FormatInt_numeral (cIdx c)) as (Hne & _).
    unfold doneLine in E. by destruct (FormatInt (cIdx c)).
  - by destruct c.
Qed.

(** C7. For every chunk completion record [(idx, frames, bytes)] whose
    fields fit their types ([int], [int], [uint64]), and so for every one
    with non-negative fields, the line [AppendDone] writes for it into a
    fresh resume log is read back by [GetResume] as that same record:
    [parse(format(c)) = c]. *)
Theorem resume_log_roundtrip (c : ChunkComp) :
  goint.is_int (cIdx c) -> goint.is_int (cFrames c) -> goint.is_uint64 (cSize c) ->
  AppendDone c NotExist = (Content (formatDone c), None)
  /\ GetResume (AppendDone c NotExist).1 = Ok {| ChunksDone := [c] |}.
Proof.
  intros Hi Hf Hs. split; [done|].
  cbn [AppendDone fst GetResume]. rewrite formatDone_doneLine.
  destruct (doneLine_scanned (FormatInt (cIdx c)) (FormatInt (cFrames c))
              (FormatUint (cSize c))) as (-> & _ & _);
    [apply FormatInt_numeral | apply FormatInt_numeral
     | apply FormatUint_numeral; apply Hs |].
  cbn [omap]. unfold omap, mbind, option_bind. cbn.
  by rewrite parseDoneLine_doneLine.
Qed.

Lemma resume_log_roundtrip_witness :
  let c := {| cIdx := 7; cFrames := 720; cSize := 1234567 |} in
  AppendDone c NotExist = (Content (formatDone c), None)
  /\ GetResume (AppendDone c NotExist).1 = Ok {| ChunksDone := [c] |}.
Proof.
  intros c. apply (resume_log_roundtrip c); vm_compute; split; discriminate.
Defined.

End resume_log.

(* ===================================================================== *)
(** * Crop decision *)
(* ===================================================================== *)

Section crop_decision.
Import processing spec.

Lemma dominantTable_true : dominantTable = true.
Proof. vm_compute. reflexivity. Qed.

(** For the counts a run can produce, [ratio > 0.8] in binary64 is the
    exact comparison. *)
Lemma dominant_exact (n total : Z) :
  1 <= n <= total -> total <= numSamples ->
  dominant n total = true <-> exceeds80 n total.
Proof.
  intros Hn Ht.
  assert (Htab : forallb (fun total =>
                            forallb (fun n => Bool.eqb (dominant n total) (4 * total <? 5 * n))
                                    (seqZ 1 total))
                         (seqZ 1 numSamples) = true) by (vm_compute; reflexivity).
  rewrite forallb_forall in Htab.
  specialize (Htab total). rewrite forallb_forall in Htab.
  assert (Bool.eqb (dominant n total) (4 * total <? 5 * n) = true) as Heq.
  { apply Htab.
    - apply list_elem_of_In, elem_of_seqZ. lia.
    - apply list_elem_of_In, elem_of_seqZ. lia. }
  apply Bool.eqb_prop in Heq. rewrite Heq. unfold exceeds80. apply Z.ltb_lt.
Qed.

Lemma insertByCount_head (x : gostring * Z) (l : list (gostring * Z)) :
  exists m rest, insertByCount x l = m :: rest
                 /\ (m = x \/ exists l', l = m :: l') /\ x.2 <= m.2
                 /\ (forall y l', l = y :: l' -> y.2 <= m.2).
Proof.
  destruct l as [|y l]; cbn.
  - exists x, []. split; [done|]. split; [by left|]. split; [lia|done].
  - destruct (Z.ltb_spec x.2 y.2).
    + eexists y, _. split; [done|]. split; [right; by eexists|]. split; [lia|].
      intros ? ? [= <- _]. lia.
    + eexists x, _. split; [done|]. split; [by left|]. split; [lia|].
      intros ? ? [= <- _]. lia.
Qed.

(** The first entry after sorting is a most common one. *)
Lemma sortByCount_head (l : list (gostring * Z)) :
  l <> [] ->
  exists m rest, sortByCount l = m :: rest /\ m ∈ l /\ forall e, e ∈ l -> e.2 <= m.2.
Proof.
  induction l as [|x l IH]; [done|]. intros _.
  change (sortByCount (x :: l)) with (insertByCount x (sortByCount l)).
  destruct (insertByCount_head x (sortByCount l)) as (m & rest & -> & Hm & Hx & Hhd).
  exists m, rest. split; [done|].
  destruct l as [|y l].
  - cbn in Hm. destruct Hm as [->|(l' & Hl')]; [|done].
    split; [apply list_elem_of_here|]. intros e ->%list_elem_of_singleton. lia.
  - destruct IH as (m' & rest' & Hs & Hin & Hmax); [done|].
    specialize (Hhd _ _ Hs). split.
    + destruct Hm as [->|(l' & Hl')]; [apply list_elem_of_here|].
      rewrite Hs in Hl'. injection Hl' as <- _. by apply list_elem_of_further.
    + intros e [->|He]%elem_of_cons; [done|]. specialize (Hmax e He). lia.
Qed.

Lemma wrap_int_small (z : Z) : goint.minInt <= z <= goint.maxInt -> goint.wrap_int z = z.
Proof.
  unfold goint.minInt, goint.maxInt, goint.wrap_int. intros Hz.
  rewrite Z.mod_small; lia.
Qed.

Lemma wrap_int_add (a b : Z) :
  goint.wrap_int (goint.wrap_int a + b) = goint.wrap_int (a + b).
Proof.
  unfold goint.wrap_int.
  replace ((a + 2 ^ 63) mod 2 ^ 64 - 2 ^ 63 + b + 2 ^ 63)
    with ((a + 2 ^ 63) mod 2 ^ 64 + b) by lia.
  rewrite Zplus_mod_idemp_l. f_equal. f_equal. lia.
Qed.

Lemma totalOf_cons (e : gostring * Z) (l : list (gostring * Z)) :
  totalOf (e :: l) = e.2 + totalOf l.
Proof. reflexivity. Qed.

Lemma totalSamples_wrap (l : list (gostring * Z)) (acc : Z) :
  foldl (fun total e => goint.wrap_int (total + e.2)) (goint.wrap_int acc) l
  = goint.wrap_int (acc + totalOf l).
Proof.
  revert acc. induction l as [|e l IH]; intros acc; cbn [foldl].
  - f_equal. change (totalOf []) with 0. lia.
  - rewrite wrap_int_add, IH, totalOf_cons. f_equal. lia.
Qed.

Lemma totalOf_bounds (l : list (gostring * Z)) :
  Forall (fun e => 1 <= e.2) l ->
  Z.of_nat (length l) <= totalOf l /\ forall e, e ∈ l -> e.2 <= totalOf l.
Proof.
  induction 1 as [|e l He Hl [IHlen IHin]].
  - split; [done|]. intros e []%not_elem_of_nil.
  - rewrite totalOf_cons. cbn [length]. split; [lia|].
    intros e' [->|Hin]%elem_of_cons; [lia|]. specialize (IHin e' Hin). lia.
Qed.

(** Two different rectangles of a walk account for different samples. *)
Lemma totalOf_two (l : list (gostring * Z)) (r r' : gostring) (n n' : Z) :
  Forall (fun e => 1 <= e.2) l -> (r, n) ∈ l -> (r', n') ∈ l -> r <> r' ->
  n + n' <= totalOf l.
Proof.
  intros Hpos. induction Hpos as [|e l He Hl IH]; intros Hin Hin' Hne.
  - by apply not_elem_of_nil in Hin.
  - pose proof (totalOf_bounds l Hl) as [Hb0 Hb]. rewrite totalOf_cons.
    assert (0 <= totalOf l) by lia.
    apply elem_of_cons in Hin as [Heq|Hin]; apply elem_of_cons in Hin' as [Heq'|Hin'].
    + congruence.
    + subst e. specialize (Hb _ Hin'). cbn in *. lia.
    + subst e. specialize (Hb _ Hin). cbn in *. lia.
    + specialize (IH Hin Hin' Hne). lia.
Qed.

(** [isEffectiveCrop] fails exactly on the rectangles that have the
    source's width and height. *)
Lemma isEffectiveCrop_rectDims (r : gostring) (w h : Z) :
  isEffectiveCrop r w h = false <-> rectDims r w h.
Proof.
  unfold isEffectiveCrop, rectDims. split.
  - destruct (strings.Split r ":") as [|p0 [|p1 tl]] eqn:Hs; [done|done|].
    destruct (strconv.ParseUint p0 32) as [cw|] eqn:Hw; [|done].
    destruct (strconv.ParseUint p1 32) as [ch|] eqn:Hh; [|done].
    rewrite (ParseUint32_to_uint32 p0), (ParseUint32_to_uint32 p1) by done.
    intros Hb. apply orb_false_elim in Hb as [Hbw Hbh].
    apply negb_false_iff in Hbw, Hbh. apply Z.eqb_eq in Hbw, Hbh. subst cw ch.
    exists p0, p1. split; [|done]. apply Split_first_two. by exists tl.
  - intros (p0 & p1 & Hf & Hw & Hh). apply Split_first_two in Hf as [tl ->].
    rewrite Hw, Hh.
    rewrite (ParseUint32_to_uint32 p0), (ParseUint32_to_uint32 p1) by done.
    by rewrite !Z.eqb_refl.
Qed.

(** The walk of a count map: no rectangle twice, as many entries as the
    map has. *)
Lemma walk_facts (cropCounts : gmap gostring Z) (walk : list (gostring * Z)) :
  walk ≡ₚ map_to_list cropCounts ->
  map_Forall (fun _ n => 1 <= n) cropCounts ->
  NoDup (walk.*1) /\ length walk = size cropCounts /\ Forall (fun e => 1 <= e.2) walk.
Proof.
  intros Hperm Hpos. split; [|split].
  - rewrite Hperm. apply NoDup_fst_map_to_list.
  - rewrite Hperm. apply length_map_to_list.
  - rewrite Hperm. apply Forall_forall. intros [r n] Hin.
    apply elem_of_map_to_list in Hin. by apply (Hpos r n).
Qed.

(** What [DetectCrop] decides when the samples show at least two
    different rectangles. *)
Lemma analyze_cases (cropCounts : gmap gostring Z) (walk : list (gostring * Z)) (w h : Z) :
  walk ≡ₚ map_to_list cropCounts ->
  (2 <= size cropCounts)%nat ->
  map_Forall (fun _ n => 1 <= n) cropCounts ->
  totalOf walk <= numSamples ->
  exists r n,
    mostCommon walk r n
    /\ ((exceeds80 n (totalOf walk) /\ ~ rectDims r w h
         /\ DetectCrop false walk w h = cropTo r)
        \/ (exceeds80 n (totalOf walk) /\ rectDims r w h
            /\ DetectCrop false walk w h = noCrop sampleMsg)
        \/ (~ exceeds80 n (totalOf walk)
            /\ DetectCrop false walk w h
               = {| CropFilter := []; Required := false; MultipleRatios := true;
                    Message := str "Multiple aspect ratios detected" |})).
Proof.
  intros Hperm Hsize Hpos Htotal.
  destruct (walk_facts _ _ Hperm Hpos) as (Hnd & Hlen & Hall).
  destruct (totalOf_bounds walk Hall) as [Hlb Hub].
  destruct walk as [|e1 [|e2 tl]] eqn:Hw; [cbn in Hlen; lia|cbn in Hlen; lia|].
  rewrite <- Hw in *.
  destruct (sortByCount_head walk) as ([r n] & rest & Hsort & Hin & Hmax); [by rewrite Hw|].
  exists r, n. split; [by split|].
  assert (Hfold : foldl (fun total e => goint.wrap_int (total + e.2)) 0 walk = totalOf walk).
  { change 0 with (goint.wrap_int 0) at 1. rewrite totalSamples_wrap.
    apply wrap_int_small. unfold goint.minInt, goint.maxInt, numSamples in *. lia. }
  assert (Hcode : DetectCrop false walk w h
                  = if dominant n (totalOf walk)
                    then if negb (isEffectiveCrop r w h) then noCrop sampleMsg else cropTo r
                    else {| CropFilter := []; Required := false; MultipleRatios := true;
                            Message := str "Multiple aspect ratios detected" |}).
  { unfold DetectCrop, analyze. rewrite Hw at 1. destruct e1 as [r1 n1].
    rewrite Hfold, Hsort. done. }
  rewrite Hcode.
  assert (Hn : 1 <= n <= totalOf walk).
  { split; [|by apply (Hub (r, n))]. rewrite Forall_forall in Hall. by apply (Hall (r, n)). }
  pose proof (dominant_exact n (totalOf walk) Hn Htotal) as Hdom.
  destruct (dominant n (totalOf walk)).
  - assert (exceeds80 n (totalOf walk)) as Hex by by apply Hdom.
    destruct (isEffectiveCrop r w h) eqn:Heff; cbn [negb].
    + left. split; [done|]. split; [|done].
      intros Hd%isEffectiveCrop_rectDims. congruence.
    + right. left. split; [done|]. split; [|done]. by apply isEffectiveCrop_rectDims.
  - right. right. split; [|done]. intros Hex%Hdom. discriminate.
Qed.

(** A rectangle seen in more than 80% of the samples is the only most
    common one. *)
Lemma mostCommon_dominant_unique (walk : list (gostring * Z)) r n r' n' :
  Forall (fun e => 1 <= e.2) walk ->
  mostCommon walk r n -> mostCommon walk r' n' ->
  n = n' /\ (exceeds80 n (totalOf walk) -> r = r').
Proof.
  intros Hall [Hin Hmax] [Hin' Hmax'].
  assert (n = n') as <-.
  { specialize (Hmax _ Hin'). specialize (Hmax' _ Hin). cbn in *. lia. }
  split; [done|]. intros Hex. destruct (decide (r = r')) as [|Hne]; [done|].
  pose proof (totalOf_two walk r r' n n Hall Hin Hin' Hne).
  rewrite Forall_forall in Hall. specialize (Hall _ Hin). unfold exceeds80 in Hex. cbn in *.
  lia.
Qed.

(** C5 as stated fails: a rectangle seen in more than 80% of the samples
    that equals the source dimensions means no crop, but the result is not
    flagged as multiple aspect ratios. *)
Lemma dominant_source_rectangle_not_flagged :
  ~ (forall (cropCounts : gmap gostring Z) (walk : list (gostring * Z)) (w h : Z),
        walk ≡ₚ map_to_list cropCounts ->
        (2 <= size cropCounts)%nat ->
        map_Forall (fun _ n => 1 <= n) cropCounts ->
        totalOf walk <= numSamples ->
        let res := DetectCrop false walk w h in
        (Required res = true <->
         exists r n, mostCommon walk r n /\ exceeds80 n (totalOf walk) /\ ~ rectDims r w h)
        /\ (Required res = false -> MultipleRatios res = true)).
Proof.
  intros H.
  pose (walk := [(str "1920:1080:0:0", 130); (str "1920:800:0:140", 5)]).
  specialize (H (list_to_map walk) walk 1920 1080).
  assert (Hnd : NoDup (walk.*1)).
  { apply (bool_decide_unpack _). reflexivity. }
  destruct H as [_ Hflag].
  - symmetry. by apply map_to_list_to_map.
  - rewrite <- length_map_to_list, map_to_list_to_map by done. cbn. lia.
  - intros r n Hrn. apply elem_of_list_to_map in Hrn; [|done].
    apply elem_of_cons in Hrn as [[= _ ->]|Hrn]; [lia|].
    apply list_elem_of_singleton in Hrn as [= _ ->]. lia.
  - vm_compute. discriminate.
  - specialize (Hflag eq_refl). vm_compute in Hflag. discriminate Hflag.
Qed.

(** C5, as the code has it. For every aggregated multiset of per-sample
    crop rectangles with at least two distinct rectangles (and at most the
    141 samples of a run), [DetectCrop] decides to crop, and crops to the
    most common rectangle, exactly when that rectangle's share of the
    samples exceeds 0.80 and it differs from the source dimensions. When
    the share does not exceed 0.80 it decides no crop and flags the result
    as multiple aspect ratios; when the share exceeds 0.80 but the
    rectangle has the source dimensions it decides no crop without that
    flag. *)
Theorem crop_decision (cropCounts : gmap gostring Z) (walk : list (gostring * Z)) (w h : Z) :
  walk ≡ₚ map_to_list cropCounts ->
  (2 <= size cropCounts)%nat ->
  map_Forall (fun _ n => 1 <= n) cropCounts ->
  totalOf walk <= numSamples ->
  let res := DetectCrop false walk w h in
  (Required res = true <->
   exists r n, mostCommon walk r n /\ exceeds80 n (totalOf walk) /\ ~ rectDims r w h)
  /\ (forall r n, mostCommon walk r n -> Required res = true -> res = cropTo r)
  /\ (MultipleRatios res = true <->
      exists r n, mostCommon walk r n /\ ~ exceeds80 n (totalOf walk))
  /\ (forall r n, mostCommon walk r n -> exceeds80 n (totalOf walk) -> rectDims r w h ->
                  res = noCrop sampleMsg).
Proof.
  intros Hperm Hsize Hpos Htotal res.
  destruct (walk_facts _ _ Hperm Hpos) as (_ & _ & Hall).
  destruct (analyze_cases cropCounts walk w h Hperm Hsize Hpos Htotal)
    as (r & n & Hmc & Hcases).
  fold res in Hcases.
  assert (Huniq : forall r' n', mostCommon walk r' n' ->
                                n = n' /\ (exceeds80 n (totalOf walk) -> r = r')).
  { intros r' n' Hmc'. by apply mostCommon_dominant_unique. }
  destruct Hcases as [(Hex & Hdiff & Hres)|[(Hex & Hsame & Hres)|(Hnex & Hres)]];
    rewrite Hres; cbn [Required MultipleRatios cropTo noCrop].
  - split; [|split; [|split]].
    + split; [|done]. intros _. by exists r, n.
    + intros r' n' Hmc' _. destruct (Huniq r' n' Hmc') as [_ Hr]. by rewrite <- (Hr Hex).
    + split; [done|]. intros (r' & n' & Hmc' & Hnex').
      destruct (Huniq r' n' Hmc') as [<- _]. done.
    + intros r' n' Hmc' _ Hsame. destruct (Huniq r' n' Hmc') as [_ Hr].
      rewrite <- (Hr Hex) in Hsame. done.
  - split; [|split; [|split]].
    + split; [done|]. intros (r' & n' & Hmc' & Hex' & Hdiff').
      destruct (Huniq r' n' Hmc') as [_ Hr]. rewrite <- (Hr Hex) in Hdiff'. done.
    + done.
    + split; [done|]. intros (r' & n' & Hmc' & Hnex').
      destruct (Huniq r' n' Hmc') as [<- _]. done.
    + done.
  - split; [|split; [|split]].
    + split; [done|]. intros (r' & n' & Hmc' & Hex' & _).
      destruct (Huniq r' n' Hmc') as [<- _]. done.
    + done.
    + split; [|done]. intros _. by exists r, n.
    + intros r' n' Hmc' Hex'. destruct (Huniq r' n' Hmc') as [<- _]. done.
Qed.

Lemma crop_decision_witness :
  let walk := [(str "1920:800:0:140", 120); (str "1920:1080:0:0", 21)] in
  Required (DetectCrop false walk 1920 1080) = true <->
  exists r n, mostCommon walk r n /\ exceeds80 n (totalOf walk) /\ ~ rectDims r 1920 1080.
Proof.
  intros walk.
  assert (Hnd : NoDup (walk.*1)) by (apply (bool_decide_unpack _); reflexivity).
  apply (crop_decision (list_to_map walk) walk 1920 1080).
  - symmetry. by apply map_to_list_to_map.
  - rewrite <- length_map_to_list, map_to_list_to_map by done. cbn. lia.
  - intros r n Hrn. apply elem_of_list_to_map in Hrn; [|done].
    apply elem_of_cons in Hrn as [[= _ ->]|Hrn]; [lia|].
    apply list_elem_of_singleton in Hrn as [= _ ->]. lia.
  - vm_compute. discriminate.
Defined.

End crop_decision.

(* ===================================================================== *)
(** * Progress *)
(* ===================================================================== *)

Section progress.
Import chunk encode spec.

Lemma sumZ_app (l1 l2 : list Z) : sumZ (l1 ++ l2) = sumZ l1 + sumZ l2.
Proof. induction l1 as [|x l1 IH]; cbn; [done|]. fold (sumZ (l1 ++ l2)) (sumZ l1). lia. Qed.

Lemma sumZ_cons (x : Z) (l : list Z) : sumZ (x :: l) = x + sumZ l.
Proof. reflexivity. Qed.

Lemma sumZ_Permutation (l k : list Z) : l ≡ₚ k -> sumZ l = sumZ k.
Proof.
  induction 1 as [|x l k _ IH|x y l|l k m _ IH1 _ IH2]; rewrite ?sumZ_cons; lia.
Qed.

Lemma sumZ_nonneg (l : list Z) : Forall (fun x => 0 <= x) l -> 0 <= sumZ l.
Proof. induction 1 as [|x l Hx _ IH]; [done|]. rewrite sumZ_cons. lia. Qed.

Lemma framesOf_cons (ch : Chunk) (l : list Chunk) :
  framesOf (ch :: l) = End_ ch - Start ch + framesOf l.
Proof. reflexivity. Qed.

Lemma framesOf_app (l1 l2 : list Chunk) : framesOf (l1 ++ l2) = framesOf l1 + framesOf l2.
Proof. unfold framesOf. by rewrite fmap_app, sumZ_app. Qed.

Lemma framesOf_Permutation (l k : list Chunk) : l ≡ₚ k -> framesOf l = framesOf k.
Proof. intros H. unfold framesOf. apply sumZ_Permutation. by rewrite H. Qed.

Lemma framesOf_lower (l : list Chunk) :
  Forall (fun ch => Start ch < End_ ch) l -> Z.of_nat (length l) <= framesOf l.
Proof.
  induction 1 as [|ch l Hch _ IH]; [done|]. rewrite framesOf_cons. cbn [length]. lia.
Qed.

Lemma framesOf_elem (l : list Chunk) (ch : Chunk) :
  Forall (fun ch => Start ch < End_ ch) l -> ch ∈ l -> End_ ch - Start ch <= framesOf l.
Proof.
  intros Hl. induction Hl as [|c l Hc Hl IH]; intros Hin.
  - by apply not_elem_of_nil in Hin.
  - rewrite framesOf_cons. pose proof (framesOf_lower l Hl).
    apply elem_of_cons in Hin as [->|Hin]; [lia|]. specialize (IH Hin). lia.
Qed.

Lemma wrap_uint64_small (z : Z) :
  0 <= z <= goint.maxUint64 -> goint.wrap_uint64 z = z.
Proof. unfold goint.maxUint64, goint.wrap_uint64. intros Hz. apply Z.mod_small. lia. Qed.

Lemma wrap_uint64_add (a b : Z) :
  goint.wrap_uint64 (goint.wrap_uint64 a + b) = goint.wrap_uint64 (a + b).
Proof. unfold goint.wrap_uint64. by rewrite Zplus_mod_idemp_l. Qed.

(** Summing with wrap-around is the wrapped sum. *)
Lemma foldl_wrap_int {A} (f : A -> Z) (l : list A) (acc : Z) :
  foldl (fun total x => goint.wrap_int (total + f x)) (goint.wrap_int acc) l
  = goint.wrap_int (acc + sumZ (f <$> l)).
Proof.
  revert acc. induction l as [|x l IH]; intros acc; cbn [foldl fmap list_fmap].
  - f_equal. cbn. lia.
  - rewrite wrap_int_add, IH, sumZ_cons. f_equal. lia.
Qed.

Lemma foldl_wrap_uint64 {A} (f : A -> Z) (l : list A) (acc : Z) :
  foldl (fun total x => goint.wrap_uint64 (total + f x)) (goint.wrap_uint64 acc) l
  = goint.wrap_uint64 (acc + sumZ (f <$> l)).
Proof.
  revert acc. induction l as [|x l IH]; intros acc; cbn [foldl fmap list_fmap].
  - f_equal. cbn. lia.
  - rewrite wrap_uint64_add, IH, sumZ_cons. f_equal. lia.
Qed.

Lemma TotalEncodedFrames_sum (resume : ResumeInf) :
  TotalEncodedFrames resume = goint.wrap_int (sumZ (cFrames <$> ChunksDone resume)).
Proof.
  unfold TotalEncodedFrames. change 0 with (goint.wrap_int 0) at 1.
  by rewrite foldl_wrap_int.
Qed.

Lemma TotalEncodedSize_sum (resume : ResumeInf) :
  TotalEncodedSize resume = goint.wrap_uint64 (sumZ (cSize <$> ChunksDone resume)).
Proof.
  unfold TotalEncodedSize. change 0 with (goint.wrap_uint64 0) at 1.
  by rewrite foldl_wrap_uint64.
Qed.

Lemma countRemaining_total_from (doneSet : gmap Z bool) (chunks acc : list Chunk) (total : Z) :
  (foldl (fun '(remainingChunks, totalFrames) ch =>
            (if negb (index doneSet (Idx ch))
             then remainingChunks ++ [ch] else remainingChunks,
             goint.wrap_int (totalFrames + Frames ch)))
         (acc, goint.wrap_int total) chunks).2
  = goint.wrap_int (total + sumZ (Frames <$> chunks)).
Proof.
  revert acc total. induction chunks as [|ch chunks IH]; intros acc total;
    cbn [foldl fmap list_fmap].
  - cbn. f_equal. lia.
  - rewrite wrap_int_add, IH, sumZ_cons. f_equal. lia.
Qed.

Lemma Frames_exact (ch : Chunk) :
  0 <= End_ ch - Start ch <= goint.maxInt -> Frames ch = End_ ch - Start ch.
Proof.
  intros H. unfold Frames. apply wrap_int_small. unfold goint.minInt, goint.maxInt in *. lia.
Qed.

(** [totalFrames] is the frame count of the plan when that fits an [int]. *)
Lemma countRemaining_total (doneSet : gmap Z bool) (chunks : list Chunk) :
  Forall (fun ch => Start ch < End_ ch) chunks ->
  framesOf chunks <= goint.maxInt ->
  (countRemaining doneSet chunks).2 = framesOf chunks.
Proof.
  intros Hwf Hfit. unfold countRemaining. change 0 with (goint.wrap_int 0) at 1.
  rewrite countRemaining_total_from.
  assert (Frames <$> chunks = (fun ch => End_ ch - Start ch) <$> chunks) as ->.
  { apply list_fmap_ext. intros i ch Hi. apply Frames_exact.
    apply list_elem_of_lookup_2 in Hi. pose proof (framesOf_elem _ _ Hwf Hi).
    rewrite Forall_forall in Hwf. specialize (Hwf _ Hi). lia. }
  fold (framesOf chunks). pose proof (framesOf_lower _ Hwf).
  apply wrap_int_small. unfold goint.minInt, goint.maxInt in *. lia.
Qed.

Lemma countRemaining_complement (doneSet : gmap Z bool) (chunks : list Chunk) :
  (countRemaining doneSet chunks).1
  = filter (fun ch => ~ index doneSet (Idx ch) = true) chunks.
Proof.
  rewrite countRemaining_filter. induction chunks as [|ch chunks IH]; [done|].
  cbn [List.filter]. rewrite filter_cons, IH.
  destruct (index doneSet (Idx ch)); cbn [negb]; by case_decide.
Qed.

Lemma le_progress_refl (p : Progress) : le_progress p p.
Proof. unfold le_progress. lia. Qed.

Lemma le_progress_trans (p q r : Progress) :
  le_progress p q -> le_progress q r -> le_progress p r.
Proof. unfold le_progress. lia. Qed.

Lemma monotone_snoc (ps : list Progress) (p p' : Progress) :
  monotone ps -> Forall (fun q => le_progress q p) ps -> le_progress p p' ->
  monotone (ps ++ [p']).
Proof.
  intros Hm Hall Hle i a b Ha Hb.
  apply lookup_snoc_Some in Hb as [[Hlt Hb]|[Heq <-]].
  - rewrite lookup_app_l in Ha by lia. by eapply Hm.
  - rewrite lookup_app_l in Ha by lia.
    apply list_elem_of_lookup_2 in Ha. rewrite Forall_forall in Hall.
    eapply le_progress_trans; [by apply Hall|done].
Qed.

Lemma bytesIn_cons (ev : event) (trace : list event) :
  bytesIn (ev :: trace)
  = match ev with
    | Received r =>
        match Error r with None => rSize r + bytesIn trace | Some _ => bytesIn trace end
    | WorkerSourceFailed _ => bytesIn trace
    end.
Proof. destruct ev as [e|r]; [done|]. unfold bytesIn. cbn. by destruct (Error r). Qed.

Lemma bytesIn_nonneg (rem : list Chunk) (trace : list event) :
  admissible rem trace -> 0 <= bytesIn trace.
Proof.
  induction 1 as [rem|rem e trace _ IH|rem1 ch rem2 r trace [_ Hr] _ IH];
    rewrite ?bytesIn_cons; [done|done|].
  destruct (Error r); [done|]. destruct Hr as [_ ?]; [done|]. lia.
Qed.

Lemma framesOf_nonneg (l : list Chunk) :
  Forall (fun ch => 0 <= End_ ch - Start ch <= goint.maxInt) l -> 0 <= framesOf l.
Proof.
  intros H. apply sumZ_nonneg, Forall_fmap. eapply Forall_impl; [exact H|]. cbn. lia.
Qed.

(** The collector's bookkeeping survives every trace a run can produce. *)
Lemma run_collecting (N F : Z) (rem : list Chunk) (trace : list event) :
  admissible rem trace ->
  Forall (fun ch => 0 <= End_ ch - Start ch <= goint.maxInt) rem ->
  forall st, collecting N F rem trace st ->
             monotone (reported (run st trace)) /\ Forall bounded (reported (run st trace)).
Proof.
  induction 1 as [rem|rem e trace _ IH|rem1 ch rem2 r trace [_ Hr] Hadm IH];
    intros Hwf st Hinv.
  - destruct Hinv as (_ & _ & _ & _ & _ & _ & _ & _ & _ & _ & Hall & Hmono).
    split; [done|]. eapply Forall_impl; [exact Hall|]. by intros q [_ ?].
  - change (run st (WorkerSourceFailed e :: trace))
      with (run (step st (WorkerSourceFailed e)) trace).
    apply IH; [done|]. unfold collecting in *. rewrite bytesIn_cons in Hinv. exact Hinv.
  - change (run st (Received r :: trace)) with (run (collect st r) trace).
    assert (Hwf' : Forall (fun ch => 0 <= End_ ch - Start ch <= goint.maxInt) (rem1 ++ rem2)).
    { apply Forall_app in Hwf as [H1 H2]. apply Forall_cons in H2 as [_ H2].
      by apply Forall_app. }
    assert (Hch : 0 <= End_ ch - Start ch <= goint.maxInt).
    { apply Forall_app in Hwf as [_ H2]. by apply Forall_cons in H2 as [? _]. }
    pose proof (framesOf_nonneg _ Hwf') as Hnn. rewrite framesOf_app in Hnn.
    apply IH; [done|].
    unfold collecting in *. rewrite bytesIn_cons in Hinv.
    rewrite length_app in Hinv. cbn [length] in Hinv.
    rewrite framesOf_app, framesOf_cons in Hinv.
    rewrite length_app, framesOf_app.
    destruct Hinv as (HN & HF & HNmax & HFmax & Hc0 & Hc & Hf0 & Hf & Hb0 & Hb & Hall & Hmono).
    unfold collect. destruct (Error r) as [e|].
    + cbn [progress reported]. split_and!; try done; lia.
    + destruct Hr as [Hfr Hsz]; [done|].
      rewrite (Frames_exact ch Hch) in Hfr.
      pose proof (bytesIn_nonneg _ _ Hadm) as Hbn.
      destruct st as [[ct cc ft fc bc] df err rep].
      cbn [progress reported ChunksTotal ChunksComplete FramesTotal FramesComplete
             BytesComplete] in *.
      unfold goint.maxInt, goint.maxUint64 in *.
      rewrite !wrap_int_small by (unfold goint.minInt, goint.maxInt; lia).
      rewrite wrap_uint64_small by (unfold goint.maxUint64; lia).
      split_and!; try lia.
      * apply Forall_app. split.
        -- eapply Forall_impl; [exact Hall|]. intros q [Hle Hbd]. split; [|done].
           eapply le_progress_trans; [exact Hle|]. unfold le_progress. cbn. lia.
        -- constructor; [|done]. split; [apply le_progress_refl|].
           unfold bounded. cbn. lia.
      * eapply monotone_snoc; [done| |].
        -- eapply Forall_impl; [exact Hall|]. by intros q [? _].
        -- unfold le_progress. cbn. lia.
Qed.

Lemma parseDoneLine_size (text : gostring) (c : ChunkComp) :
  parseDoneLine text = Some c -> 0 <= cSize c.
Proof.
  unfold parseDoneLine. destruct (strings.TrimSpace text); [done|].
  destruct (strings.Fields _) as [|p0 [|p1 [|p2 [|]]]]; try done.
  destruct (strconv.Atoi p0); [|done]. destruct (strconv.Atoi p1); [|done].
  destruct (strconv.ParseUint p2 64) as [size|] eqn:Hs; [|done].
  intros [= <-]. cbn. by eapply ParseUint_nonneg.
Qed.

(** The sizes read from a log are those of a [uint64]. *)
Lemma GetResume_sizes (f : file) (resume : ResumeInf) :
  GetResume f = Ok resume -> Forall (fun c => 0 <= cSize c) (ChunksDone resume).
Proof.
  destruct f as [| |data]; cbn.
  - intros [= <-]. constructor.
  - done.
  - destruct (strings.Scanner data) as [lines []]; [done|]. intros [= <-]. cbn.
    apply Forall_forall. intros c (text & _ & Hc)%list_elem_of_omap.
    by eapply parseDoneLine_size.
Qed.

Lemma consistent_frames (doneChunks : list Chunk) (log : list ChunkComp) :
  Forall2 (fun ch c => cIdx c = Idx ch /\ cFrames c = End_ ch - Start ch) doneChunks log ->
  sumZ (cFrames <$> log) = framesOf doneChunks
  /\ forall ch, ch ∈ doneChunks -> exists c, c ∈ log /\ cIdx c = Idx ch.
Proof.
  induction 1 as [|ch c l k [Hi Hf] _ [IHs IHin]].
  - split; [done|]. intros ch []%not_elem_of_nil.
  - split.
    + rewrite fmap_cons, sumZ_cons, framesOf_cons. lia.
    + intros ch' [->|Hin]%elem_of_cons.
      * exists c. split; [apply list_elem_of_here|done].
      * destruct (IHin ch' Hin) as (c' & Hc' & Heq). exists c'.
        split; [by apply list_elem_of_further|done].
Qed.

Lemma framesOf_filter_le (P : Chunk -> Prop) `{forall ch, Decision (P ch)} (l : list Chunk) :
  Forall (fun ch => Start ch < End_ ch) l -> framesOf (filter P l) <= framesOf l.
Proof.
  induction 1 as [|ch l Hch _ IH]; [done|].
  rewrite filter_cons, framesOf_cons. case_decide; rewrite ?framesOf_cons; lia.
Qed.

Lemma filter_none (P : Chunk -> Prop) `{forall ch, Decision (P ch)} (l : list Chunk) :
  Forall (fun ch => ~ P ch) l -> filter P l = [].
Proof.
  induction 1 as [|ch l Hch _ IH]; [done|]. by rewrite filter_cons_False.
Qed.

(** With a log that agrees with the plan, the frames of the log and the
    frames still to encode together stay within the plan. *)
Lemma consistent_frames_bound (chunks : list Chunk) (resume : ResumeInf) :
  Forall (fun ch => Start ch < End_ ch) chunks ->
  consistent chunks resume ->
  0 <= sumZ (cFrames <$> ChunksDone resume)
  /\ sumZ (cFrames <$> ChunksDone resume)
     + framesOf (countRemaining (DoneSet resume) chunks).1 <= framesOf chunks.
Proof.
  intros Hwf (doneChunks & Hsub & Hmatch).
  destruct (consistent_frames _ _ Hmatch) as [-> Hlogged].
  apply submseteq_Permutation in Hsub as [k Hperm].
  rewrite countRemaining_complement, (framesOf_Permutation _ _ Hperm).
  rewrite Hperm in Hwf. apply Forall_app in Hwf as [Hwd Hwk].
  rewrite (framesOf_Permutation
             (filter (fun ch => ~ index (DoneSet resume) (Idx ch) = true) chunks)
             (filter (fun ch => ~ index (DoneSet resume) (Idx ch) = true) (doneChunks ++ k)))
    by (by apply filter_Permutation).
  rewrite filter_app, !framesOf_app.
  rewrite (filter_none _ doneChunks).
  - pose proof (framesOf_filter_le (fun ch => ~ index (DoneSet resume) (Idx ch) = true) k Hwk).
    pose proof (framesOf_lower _ Hwd). change (framesOf []) with 0. lia.
  - apply Forall_forall. intros ch Hin Hno. apply Hno.
    apply index_DoneSet. unfold logged. by apply Hlogged.
Qed.

(** C3 as stated fails: a log left by an earlier plan (chunk 0 with 720
    frames where the plan now has 480) pushes the reported frame count
    over the frame total. *)
Lemma progress_exceeds_total_on_stale_log :
  ~ (forall host chunks inf cfg wd cropCalc resume trace,
        encodeDirOk wd = true ->
        GetResume (doneTxt wd) = Ok resume ->
        admissible (countRemaining (DoneSet resume) chunks).1 trace ->
        let out := EncodeAll host chunks inf cfg wd (Ok cropCalc) trace in
        monotone (updates out) /\ Forall bounded (updates out)).
Proof.
  intros H.
  pose (ch0 := {| Idx := 0; Start := 0; End_ := 480 |}).
  pose (ch1 := {| Idx := 1; Start := 480; End_ := 500 |}).
  pose (r := {| ChunkIdx := 1; rFrames := 20; rSize := 900; Error := None |}).
  specialize (H {| AvailableMemoryBytes := 0; PhysicalCores := 8; LogicalCores := 16 |}
                [ch0; ch1] {| Width := 1280; Height := 720 |}
                {| Workers := 2; ChunkBuffer := 4; LogicalProcessors := 0 |}
                {| encodeDirOk := true;
                   doneTxt := Content (str "0 720 5000" ++ ["010"%char]);
                   outputs := {[ 0 ]} |}
                None
                {| ChunksDone := [{| cIdx := 0; cFrames := 720; cSize := 5000 |}] |}
                [Received r]).
  destruct H as [_ Hb]; [reflexivity|reflexivity| |].
  - apply (admissible_result [] ch1 [] r []); [|constructor].
    split; [reflexivity|]. intros _. split; [reflexivity|]. vm_compute. split; discriminate.
  - apply Forall_cons in Hb as [[_ Hf] _]. vm_compute in Hf. by apply Hf.
Qed.

(** C3, as the code has it. Take a chunk list whose chunks have
    [start < end] and whose frames fit an [int], and a resume log that
    agrees with it: its records are, one for one, different chunks of the
    list with their frame counts. Then over the collector updates of one
    run [chunks_done] and [frames_done] are non-decreasing and never exceed
    [ChunksTotal] and [FramesTotal]; [bytes_done], for which the code keeps
    no total, is non-decreasing as long as the bytes of the run fit a
    [uint64]. *)
Theorem progress_monotone_bounded host chunks inf cfg wd cropCalc resume trace :
  encodeDirOk wd = true ->
  GetResume (doneTxt wd) = Ok resume ->
  Forall (fun ch => Start ch < End_ ch) chunks ->
  framesOf chunks <= goint.maxInt ->
  consistent chunks resume ->
  admissible (countRemaining (DoneSet resume) chunks).1 trace ->
  bytesOf resume trace <= goint.maxUint64 ->
  let out := EncodeAll host chunks inf cfg wd (Ok cropCalc) trace in
  monotone (updates out) /\ Forall bounded (updates out).
Proof.
  intros Hdir Hres Hwf Hfit Hcons Hadm Hbytes.
  pose proof (countRemaining_total (DoneSet resume) chunks Hwf Hfit) as Htotal.
  pose proof (consistent_frames_bound chunks resume Hwf Hcons) as [Hf0 Hf].
  pose proof (countRemaining_complement (DoneSet resume) chunks) as Hrem.
  unfold EncodeAll. rewrite Hdir, Hres. cbn [negb].
  destruct (countRemaining (DoneSet resume) chunks) as [rem total] eqn:Hcount.
  cbn [fst snd] in *. subst total.
  destruct rem as [|ch0 rem0] eqn:Hrem0.
  { cbn. split; [by intros i p q Hp|constructor]. }
  rewrite <- Hrem0 in *. cbn [updates].
  pose proof (framesOf_lower _ Hwf) as Hlen.
  assert (Hwf_rem : Forall (fun ch => 0 <= End_ ch - Start ch <= goint.maxInt) rem).
  { rewrite Hrem. apply Forall_forall. intros ch [_ Hin]%list_elem_of_filter.
    pose proof (framesOf_elem _ _ Hwf Hin). rewrite Forall_forall in Hwf.
    specialize (Hwf _ Hin). lia. }
  pose proof (framesOf_nonneg _ Hwf_rem) as Hrem_nn.
  pose proof (bytesIn_nonneg _ _ Hadm) as Hbn.
  pose proof (sumZ_nonneg (cSize <$> ChunksDone resume)) as Hsz.
  unfold bytesOf in Hbytes.
  assert (0 <= sumZ (cSize <$> ChunksDone resume)) as Hs0.
  { apply Hsz, Forall_fmap. by apply (GetResume_sizes (doneTxt wd)). }
  apply (run_collecting (Z.of_nat (length chunks)) (framesOf chunks) rem trace Hadm Hwf_rem).
  unfold collecting. cbn [progress reported ChunksTotal ChunksComplete FramesTotal
                            FramesComplete BytesComplete].
  rewrite TotalEncodedFrames_sum, TotalEncodedSize_sum.
  rewrite wrap_int_small by (unfold goint.minInt, goint.maxInt in *; lia).
  rewrite wrap_uint64_small by lia.
  assert (length rem <= length chunks)%nat by (rewrite Hrem; apply length_filter).
  split_and!; try lia; done.
Qed.

Lemma progress_monotone_bounded_witness :
  let ch0 := {| Idx := 0; Start := 0; End_ := 480 |} in
  let ch1 := {| Idx := 1; Start := 480; End_ := 500 |} in
  let r := {| ChunkIdx := 1; rFrames := 20; rSize := 900; Error := None |} in
  let out :=
    EncodeAll {| AvailableMemoryBytes := 0; PhysicalCores := 8; LogicalCores := 16 |}
              [ch0; ch1] {| Width := 1280; Height := 720 |}
              {| Workers := 2; ChunkBuffer := 4; LogicalProcessors := 0 |}
              {| encodeDirOk := true;
                 doneTxt := Content (str "0 480 5000" ++ ["010"%char]);
                 outputs := {[ 0 ]} |}
              (Ok None) [Received r] in
  monotone (updates out) /\ Forall bounded (updates out).
Proof.
  intros ch0 ch1 r.
  apply (progress_monotone_bounded _ [ch0; ch1] _ _ _ None
           {| ChunksDone := [{| cIdx := 0; cFrames := 480; cSize := 5000 |}] |}
           [Received r]).
  - reflexivity.
  - reflexivity.
  - repeat constructor.
  - vm_compute. discriminate.
  - exists [ch0]. split.
    + apply submseteq_skip, submseteq_nil_l.
    + repeat constructor.
  - apply (admissible_result [] ch1 [] r []); [|constructor].
    split; [reflexivity|]. intros _. split; [reflexivity|]. vm_compute. split; discriminate.
  - vm_compute. discriminate.
Defined.

End progress.

(* ===================================================================== *)
(** * The resume log across runs *)
(* ===================================================================== *)

Section log_across_runs.
Import strings strconv chunk encode spec runs.

Lemma rawLinesFrom_after_newline (d cur rest : gostring) :
  rawLinesFrom cur (d ++ "010"%char :: rest)
  = rawLinesFrom cur (d ++ ["010"%char]) ++ rawLinesFrom [] rest.
Proof.
  revert cur. induction d as [|c d IH]; intros cur; [done|].
  cbn [app rawLinesFrom]. destruct (Ascii.eqb c "010"); [|by rewrite IH].
  by rewrite IH.
Qed.

Lemma rawLinesFrom_app (data rest : gostring) :
  data = [] \/ (exists d, data = d ++ ["010"%char]) ->
  rawLinesFrom [] (data ++ rest) = rawLinesFrom [] data ++ rawLinesFrom [] rest.
Proof.
  intros [->|[d ->]]; [done|].
  rewrite <- app_assoc. cbn [app]. apply rawLinesFrom_after_newline.
Qed.

Lemma scanTokens_app (raws1 raws2 : list gostring) (toks : list gostring) :
  scanTokens raws1 = (toks, false) ->
  scanTokens (raws1 ++ raws2) = ((toks ++ (scanTokens raws2).1), (scanTokens raws2).2).
Proof.
  revert toks. induction raws1 as [|raw raws1 IH]; intros toks; cbn [scanTokens app].
  - intros [= <-]. by destruct (scanTokens raws2).
  - destruct (tooLong raw); [done|].
    destruct (scanTokens raws1) as [t1 e1]. intros [= <- ->].
    by rewrite (IH t1).
Qed.

(** Reading a well-terminated text followed by more text reads the one
    and then the other. *)
Lemma Scanner_app (data rest : gostring) (toks : list gostring) :
  data = [] \/ (exists d, data = d ++ ["010"%char]) ->
  Scanner data = (toks, false) ->
  Scanner (data ++ rest) = (toks ++ (Scanner rest).1, (Scanner rest).2).
Proof.
  intros Hterm Hscan. unfold Scanner in *. rewrite rawLinesFrom_app by done.
  by apply scanTokens_app.
Qed.

Lemma Scanner_formatDone (c : ChunkComp) :
  inRange c ->
  Scanner (formatDone c)
  = ([doneLine (FormatInt (cIdx c)) (FormatInt (cFrames c)) (FormatUint (cSize c))], false).
Proof.
  intros (_ & _ & Hs). rewrite formatDone_doneLine.
  by destruct (doneLine_scanned (FormatInt (cIdx c)) (FormatInt (cFrames c))
                 (FormatUint (cSize c))) as (-> & _ & _);
    [apply FormatInt_numeral | apply FormatInt_numeral
     | apply FormatUint_numeral; apply Hs |].
Qed.

Lemma formatDone_terminated (c : ChunkComp) (data : gostring) :
  exists d, data ++ formatDone c = d ++ ["010"%char].
Proof.
  rewrite formatDone_doneLine. eexists. by rewrite app_assoc.
Qed.

Lemma GetResume_formatDone (c : ChunkComp) :
  inRange c -> GetResume (Content (formatDone c)) = Ok {| ChunksDone := [c] |}.
Proof.
  intros Hc. pose proof Hc as (Hi & Hf & Hs). cbn [GetResume].
  rewrite (Scanner_formatDone c Hc). cbn [omap]. unfold omap, mbind, option_bind. cbn.
  by rewrite parseDoneLine_doneLine.
Qed.

Lemma append_load (c : ChunkComp) (f : file) (old : ResumeInf) :
  wellTerminated f -> inRange c -> GetResume f = Ok old ->
  GetResume (AppendDone c f).1 = Ok {| ChunksDone := ChunksDone old ++ [c] |}
  /\ (AppendDone c f).2 = None
  /\ wellTerminated (AppendDone c f).1.
Proof.
  intros Hterm Hc Hold. pose proof Hc as (Hi & Hf & Hs).
  destruct Hterm as [->|(data & -> & Hdata)].
  - injection Hold as <-. split; [|split; [done|]].
    + by apply GetResume_formatDone.
    + right. exists (formatDone c). split; [done|]. right.
      destruct (formatDone_terminated c []) as [d Hd]. by exists d.
  - cbn [AppendDone fst snd]. split; [|split; [done|]].
    + cbn [GetResume] in *.
      destruct (Scanner data) as [toks err] eqn:Hscan.
      destruct err; [done|]. injection Hold as <-.
      rewrite (Scanner_app data (formatDone c) toks Hdata Hscan).
      rewrite (Scanner_formatDone c Hc). cbn [fst snd ChunksDone].
      rewrite omap_app. cbn [omap]. unfold omap at 2, mbind, option_bind. cbn.
      by rewrite parseDoneLine_doneLine.
    + right. eexists. split; [done|]. right. apply formatDone_terminated.
Qed.

(** X1. Appending any number of records, one after the other, to a
    well-terminated log and loading the log gives the records it had,
    followed by the new ones in the order they were appended; the log stays
    well-terminated. *)
Theorem append_then_load (cs : list ChunkComp) (f : file) (old : ResumeInf) :
  wellTerminated f -> Forall inRange cs -> GetResume f = Ok old ->
  let f' := foldl (fun f c => (AppendDone c f).1) f cs in
  GetResume f' = Ok {| ChunksDone := ChunksDone old ++ cs |}
  /\ wellTerminated f'.
Proof.
  revert f old. induction cs as [|c cs IH]; intros f old Hterm Hall Hold; cbn [foldl].
  - rewrite app_nil_r. split; [by destruct old|done].
  - apply Forall_cons in Hall as [Hc Hall].
    destruct (append_load c f old Hterm Hc Hold) as (Hnew & _ & Hterm').
    destruct (IH _ _ Hterm' Hall Hnew) as [Hload Hterm''].
    split; [|done]. rewrite Hload. cbn [ChunksDone]. by rewrite <- app_assoc.
Qed.

Lemma append_then_load_witness :
  let c1 := {| cIdx := 1; cFrames := 20; cSize := 900 |} in
  let c2 := {| cIdx := 2; cFrames := 30; cSize := 1200 |} in
  let f := Content (str "0 480 5000" ++ ["010"%char]) in
  let f' := foldl (fun f c => (AppendDone c f).1) f [c1; c2] in
  GetResume f'
  = Ok {| ChunksDone := [{| cIdx := 0; cFrames := 480; cSize := 5000 |}] ++ [c1; c2] |}
  /\ wellTerminated f'.
Proof.
  intros c1 c2 f.
  apply (append_then_load [c1; c2] f
           {| ChunksDone := [{| cIdx := 0; cFrames := 480; cSize := 5000 |}] |}).
  - right. exists (str "0 480 5000" ++ ["010"%char]). split; [done|]. right. by eexists.
  - repeat constructor; vm_compute; discriminate.
  - reflexivity.
Defined.













End log_across_runs.

(* ===================================================================== *)
(** * Scenes: what LoadScenes and ValidateScenes guarantee *)
(* ===================================================================== *)

Section scene_facts.
Import chunk scenes.

Lemma scenesOf_not_empty (frameNums : list Z) (totalFrames : Z) :
  Forall (fun s => StartFrame s < EndFrame s) (scenesOf frameNums totalFrames).
Proof.
  induction frameNums as [|start rest IH]; [constructor|].
  cbn [scenesOf]. destruct (Z.ltb_spec start (match rest with [] => totalFrames | next :: _ => next end));
    [|done].
  by constructor.
Qed.

(** X5. Whatever the scenes file lists (unsorted, repeated, negative or too
    large frame numbers) and whatever [totalFrames] is, no scene that
    [LoadScenes] returns is empty or reversed: each has [start < end]. *)
Theorem LoadScenes_no_empty_scene (f : file) (totalFrames : Z) (scenes : list Scene) :
  LoadScenes f totalFrames = Ok scenes ->
  Forall (fun s => StartFrame s < EndFrame s) scenes.
Proof.
  destruct f as [| |data]; [done|done|]. cbn [LoadScenes].
  destruct (strings.Scanner data) as [lines scanErr].
  destruct (parseFrameNums lines) as [frameNums|e]; [|done].
  destruct scanErr; [done|]. intros [= <-]. apply scenesOf_not_empty.
Qed.

Lemma LoadScenes_no_empty_scene_witness :
  Forall (fun s => StartFrame s < EndFrame s)
    [{| StartFrame := -5; EndFrame := 7 |}; {| StartFrame := 7; EndFrame := 300 |}].
Proof.
  apply (LoadScenes_no_empty_scene
           (Content (str "7" ++ "010"%char :: str "300" ++ "010"%char :: str "-5")) 250).
  reflexivity.
Defined.

Lemma insertInt_Permutation (x : Z) (l : list Z) : insertInt x l ≡ₚ x :: l.
Proof.
  induction l as [|y l IH]; cbn; [done|].
  destruct (x <=? y); [done|]. rewrite IH. apply Permutation_swap.
Qed.

Lemma sortInts_Permutation (l : list Z) : sortInts l ≡ₚ l.
Proof.
  induction l as [|x l IH]; cbn; [done|]. by rewrite insertInt_Permutation, IH.
Qed.

(** [sort.Ints] gives the same slice for every arrangement of the same
    numbers. *)
Lemma sortInts_unique (l k : list Z) : l ≡ₚ k -> sortInts l = sortInts k.
Proof.
  intros Hperm. apply (Sorted_unique Z.le).
  - apply sortInts_sorted.
  - apply sortInts_sorted.
  - by rewrite !sortInts_Permutation.
Qed.

(** X6. The order in which the scenes file lists its frame numbers does not
    matter: two readable files that list the same numbers, each as often
    as the other, load to the same scenes. *)
Theorem LoadScenes_order_irrelevant (data1 data2 : gostring)
    (lines1 lines2 : list gostring) (nums1 nums2 : list Z) (totalFrames : Z) :
  strings.Scanner data1 = (lines1, false) -> parseFrameNums lines1 = Ok nums1 ->
  strings.Scanner data2 = (lines2, false) -> parseFrameNums lines2 = Ok nums2 ->
  nums1 ≡ₚ nums2 ->
  LoadScenes (Content data1) totalFrames = LoadScenes (Content data2) totalFrames.
Proof.
  intros Hs1 Hp1 Hs2 Hp2 Hperm. unfold LoadScenes.
  rewrite Hs1, Hp1, Hs2, Hp2. by rewrite (sortInts_unique nums1 nums2).
Qed.

Lemma LoadScenes_order_irrelevant_witness :
  LoadScenes (Content (str "100" ++ "010"%char :: str "200")) 250
  = LoadScenes (Content (str "200" ++ "010"%char :: str " 100 ")) 250.
Proof.
  apply (LoadScenes_order_irrelevant _ _ [str "100"; str "200"] [str "200"; str " 100 "]
           [100; 200] [200; 100]); try reflexivity.
  apply Permutation_swap.
Defined.

Lemma validateFrom_None (i : Z) (scenes : list Scene) (maxFrames : Z) :
  validateFrom i scenes maxFrames = None ->
  Forall (fun s => 0 < goint.wrap_int (EndFrame s - StartFrame s) <= maxFrames) scenes.
Proof.
  revert i. induction scenes as [|scene rest IH]; intros i; [constructor|].
  cbn [validateFrom].
  destruct (Z.ltb_spec maxFrames (goint.wrap_int (EndFrame scene - StartFrame scene))); [done|].
  destruct (Z.leb_spec (goint.wrap_int (EndFrame scene - StartFrame scene)) 0); [done|].
  intros Hrest. constructor; [lia|]. by eapply IH.
Qed.

(** X7. [ValidateScenes] accepts a scene list only if it is not empty, the
    frame-rate denominator is not zero, and every scene has between 1 and
    1000 frames, whatever the frame rate. *)
Theorem ValidateScenes_accepts (scenes : list Scene) (fpsNum fpsDen : Z) :
  ValidateScenes scenes fpsNum fpsDen = None ->
  scenes <> [] /\ fpsDen <> 0
  /\ Forall (fun s => 0 < goint.wrap_int (EndFrame s - StartFrame s) <= 1000) scenes.
Proof.
  unfold ValidateScenes. destruct scenes as [|scene rest] eqn:Hsc; [done|].
  rewrite <- Hsc. destruct (Z.eqb_spec fpsDen 0); [done|]. intros Hv.
  split; [by rewrite Hsc|]. split; [done|].
  apply validateFrom_None in Hv. eapply Forall_impl; [exact Hv|].
  intros s Hs. cbn in Hs. unfold maxSceneFrames in Hs. lia.
Qed.

Lemma ValidateScenes_accepts_witness :
  let scenes := [{| StartFrame := 0; EndFrame := 480 |}; {| StartFrame := 480; EndFrame := 500 |}] in
  scenes <> [] /\ 1 <> 0
  /\ Forall (fun s => 0 < goint.wrap_int (EndFrame s - StartFrame s) <= 1000) scenes.
Proof.
  intros scenes. apply (ValidateScenes_accepts scenes 24 1). vm_compute. reflexivity.
Defined.

End scene_facts.

(* ===================================================================== *)
(** * Admission: bounds *)
(* ===================================================================== *)

Section admission_bounds.
Import encode spec.

Lemma CapWorkers_cases (host : Host) (requested width height : Z) :
  exists maxByMemory,
    (0 < AvailableMemoryBytes host ->
     maxByMemory = Z.max (usable (AvailableMemoryBytes host) / memoryPerWorker width height) 1)
    /\ (AvailableMemoryBytes host <= 0 -> maxByMemory = requested)
    /\ CapWorkers host requested width height
       = if maxByMemory <? requested then (maxByMemory, true) else (requested, false).
Proof.
  unfold CapWorkers. destruct (Z.ltb_spec 0 (AvailableMemoryBytes host)).
  - eexists. split; [intros _; reflexivity|]. split; [lia|reflexivity].
  - eexists. split; [lia|]. split; [intros _; reflexivity|reflexivity].
Qed.

(** X8. For a request of at least one worker, [CapWorkers] never admits more
    workers than requested and never fewer than one, whatever the host
    reports; it says "capped" exactly when it admits fewer than
    requested. *)
Theorem CapWorkers_bounds (host : Host) (requested width height : Z) :
  1 <= requested ->
  1 <= (CapWorkers host requested width height).1 <= requested
  /\ ((CapWorkers host requested width height).2 = true
      <-> (CapWorkers host requested width height).1 < requested).
Proof.
  intros Hreq.
  destruct (CapWorkers_cases host requested width height) as (m & Hpos & Hzero & ->).
  assert (1 <= m).
  { destruct (Z.ltb_spec 0 (AvailableMemoryBytes host)); [rewrite Hpos by done|rewrite Hzero by done]; lia. }
  destruct (Z.ltb_spec m requested); cbn [fst snd]; split; try lia; split; try done; lia.
Qed.

Lemma CapWorkers_bounds_witness :
  let host := {| AvailableMemoryBytes := 12 * GiB; PhysicalCores := 8; LogicalCores := 16 |} in
  1 <= (CapWorkers host 24 1920 1080).1 <= 24
  /\ ((CapWorkers host 24 1920 1080).2 = true <-> (CapWorkers host 24 1920 1080).1 < 24).
Proof. intros host. apply (CapWorkers_bounds host 24 1920 1080). lia. Defined.

(** X9. When the host reports its memory and more than one worker is
    admitted, the memory estimated for the admitted workers fits into the
    usable share of the available memory. *)
Theorem CapWorkers_fits_memory (host : Host) (requested width height : Z) :
  0 < AvailableMemoryBytes host ->
  1 < (CapWorkers host requested width height).1 ->
  (CapWorkers host requested width height).1 * memoryPerWorker width height
  <= usable (AvailableMemoryBytes host).
Proof.
  intros Hav.
  destruct (CapWorkers_cases host requested width height) as (m & Hpos & _ & ->).
  specialize (Hpos Hav).
  pose proof (memoryPerWorker_pos width height) as Hc.
  pose proof (usable_nonneg (AvailableMemoryBytes host)) as Hu.
  set (u := usable (AvailableMemoryBytes host)) in *.
  set (c := memoryPerWorker width height) in *.
  pose proof (Z.mul_div_le u c Hc) as Hdiv.
  destruct (Z.ltb_spec m requested); cbn [fst]; intros Hw; nia.
Qed.

Lemma CapWorkers_fits_memory_witness :
  let host := {| AvailableMemoryBytes := 12 * GiB; PhysicalCores := 8; LogicalCores := 16 |} in
  (CapWorkers host 24 1920 1080).1 * memoryPerWorker 1920 1080 <= usable (12 * GiB).
Proof.
  intros host. apply (CapWorkers_fits_memory host 24 1920 1080); vm_compute; reflexivity.
Defined.

(** X10. With at least one worker requested, a non-negative buffer and a sum
    that fits an [int], the semaphore gets exactly [workers + buffer]
    permits for the admitted workers, so never fewer permits than
    workers. *)
Theorem permits_cover_workers (host : Host) (requested buffer width height : Z) :
  1 <= requested -> 0 <= buffer -> requested + buffer <= goint.maxInt ->
  let W := (CapWorkers host requested width height).1 in
  CalculatePermits W buffer = W + buffer /\ W <= CalculatePermits W buffer.
Proof.
  intros Hreq Hbuf Hfit W.
  destruct (CapWorkers_cases host requested width height) as (m & Hpos & Hzero & Hcap).
  assert (1 <= W <= requested) as HW.
  { subst W. rewrite Hcap.
    assert (1 <= m).
    { destruct (Z.ltb_spec 0 (AvailableMemoryBytes host));
        [rewrite Hpos by done|rewrite Hzero by done]; lia. }
    destruct (Z.ltb_spec m requested); cbn [fst]; lia. }
  unfold CalculatePermits. rewrite wrap_int_small by (unfold goint.minInt, goint.maxInt in *; lia).
  lia.
Qed.

Lemma permits_cover_workers_witness :
  let host := {| AvailableMemoryBytes := 12 * GiB; PhysicalCores := 8; LogicalCores := 16 |} in
  let W := (CapWorkers host 24 1920 1080).1 in
  CalculatePermits W 4 = W + 4 /\ W <= CalculatePermits W 4.
Proof.
  intros host. apply (permits_cover_workers host 24 4 1920 1080); vm_compute; discriminate.
Defined.

(** X11. [calculateThreadsPerWorker] always returns at least one thread and at
    most the limit of the width tier, hence at most 16, for every worker
    count (zero and negative ones included) and every core reading. *)
Theorem threads_per_worker_bounds (host : Host) (workers width : Z) :
  1 <= calculateThreadsPerWorker host workers width <= maxThreadsFor width
  /\ maxThreadsFor width <= 16.
Proof.
  assert (6 <= maxThreadsFor width <= 16) as Hmax.
  { unfold maxThreadsFor. repeat case_match; lia. }
  split; [|lia]. unfold calculateThreadsPerWorker.
  destruct (workers <=? 0); [lia|]. lia.
Qed.

Lemma threads_step_mono (q1 q2 m : Z) (smt : bool) :
  q1 <= q2 ->
  Z.max 1 (Z.min (if smt && (q1 <? m) then q1 + 1 else q1) m)
  <= Z.max 1 (Z.min (if smt && (q2 <? m) then q2 + 1 else q2) m).
Proof.
  intros Hq. destruct smt; cbn [andb];
    destruct (Z.ltb_spec q1 m), (Z.ltb_spec q2 m); lia.
Qed.

(** X12. On one host and one width, more workers never get more threads each:
    for [1 <= W1 <= W2] and a non-negative core count the thread budget
    for [W2] workers is at most the one for [W1]. *)
Theorem threads_per_worker_antitone (host : Host) (W1 W2 width : Z) :
  0 <= PhysicalCores host -> 1 <= W1 <= W2 ->
  calculateThreadsPerWorker host W2 width <= calculateThreadsPerWorker host W1 width.
Proof.
  intros Hp HW. unfold calculateThreadsPerWorker.
  destruct (Z.leb_spec W1 0); [lia|]. destruct (Z.leb_spec W2 0); [lia|].
  apply threads_step_mono. apply Z.quot_le_compat_l; lia.
Qed.

Lemma threads_per_worker_antitone_witness :
  let host := {| AvailableMemoryBytes := 0; PhysicalCores := 16; LogicalCores := 32 |} in
  calculateThreadsPerWorker host 8 1920 <= calculateThreadsPerWorker host 2 1920.
Proof.
  intros host. apply (threads_per_worker_antitone host 2 8 1920); cbn; lia.
Defined.

End admission_bounds.

(* ===================================================================== *)
(** * The pipeline: idle runs and clean runs *)
(* ===================================================================== *)

Section pipeline_facts.
Import chunk encode spec.

Lemma countRemaining_all_logged (resume : ResumeInf) (chunks : list Chunk) :
  (forall ch, ch ∈ chunks -> logged resume (Idx ch)) ->
  (countRemaining (DoneSet resume) chunks).1 = [].
Proof.
  intros Hall. rewrite countRemaining_filter.
  induction chunks as [|ch chunks IH]; [done|]. cbn [List.filter].
  assert (index (DoneSet resume) (Idx ch) = true) as ->.
  { apply index_DoneSet, Hall, list_elem_of_here. }
  cbn [negb]. apply IH. intros ch' Hin. by apply Hall, list_elem_of_further.
Qed.

(** X13. When every planned chunk is in the resume log, [EncodeAll] does no
    work: it returns the configured worker count and no error, leaves
    [done.txt] as it is and reports no progress, whatever the decoder, the
    host and the workers would have done. *)
Theorem all_logged_no_work host chunks inf cfg wd strat trace resume :
  encodeDirOk wd = true ->
  GetResume (doneTxt wd) = Ok resume ->
  (forall ch, ch ∈ chunks -> logged resume (Idx ch)) ->
  EncodeAll host chunks inf cfg wd strat trace
  = {| actualWorkers := Workers cfg; returned := None;
       doneAfter := doneTxt wd; updates := [] |}.
Proof.
  intros Hdir Hres Hall. unfold EncodeAll. rewrite Hdir, Hres. cbn [negb].
  pose proof (countRemaining_all_logged resume chunks Hall) as Hrem.
  destruct (countRemaining (DoneSet resume) chunks) as [rem total]. cbn [fst] in Hrem.
  by subst rem.
Qed.

Lemma all_logged_no_work_witness :
  let ch0 := {| Idx := 0; Start := 0; End_ := 480 |} in
  let wd := {| encodeDirOk := true; doneTxt := Content (str "0 480 5000"); outputs := ∅ |} in
  let cfg := {| Workers := 2; ChunkBuffer := 4; LogicalProcessors := 0 |} in
  EncodeAll {| AvailableMemoryBytes := 0; PhysicalCores := 8; LogicalCores := 16 |}
            [ch0] {| Width := 1280; Height := 720 |} cfg wd (Fail ErrDecodeStrat)
            [WorkerSourceFailed ErrCancelled]
  = {| actualWorkers := 2; returned := None; doneAfter := doneTxt wd; updates := [] |}.
Proof.
  intros ch0 wd cfg.
  apply (all_logged_no_work _ [ch0] _ cfg wd _ _
           {| ChunksDone := [{| cIdx := 0; cFrames := 480; cSize := 5000 |}] |}).
  - reflexivity.
  - reflexivity.
  - intros ch ->%list_elem_of_singleton.
    exists {| cIdx := 0; cFrames := 480; cSize := 5000 |}. split; [apply list_elem_of_here|done].
Defined.

(** X14. Once the workers run, [EncodeAll] returns no error exactly when no
    failure was latched: no worker failed to open its source and every
    result the collector received was a success. *)
Theorem returns_nil_iff_no_failure host chunks inf cfg wd cropCalc resume trace :
  encodeDirOk wd = true ->
  GetResume (doneTxt wd) = Ok resume ->
  (countRemaining (DoneSet resume) chunks).1 <> [] ->
  returned (EncodeAll host chunks inf cfg wd (Ok cropCalc) trace) = None
  <-> failures trace = [].
Proof.
  intros Hdir Hres Hrem. rewrite (EncodeAll_returned _ _ _ _ _ _ resume) by done.
  by destruct (failures trace).
Qed.

Lemma returns_nil_iff_no_failure_witness :
  let ch0 := {| Idx := 0; Start := 0; End_ := 480 |} in
  let r0 := {| ChunkIdx := 0; rFrames := 480; rSize := 5000; Error := None |} in
  returned (EncodeAll {| AvailableMemoryBytes := 0; PhysicalCores := 8; LogicalCores := 16 |}
              [ch0] {| Width := 1280; Height := 720 |}
              {| Workers := 2; ChunkBuffer := 4; LogicalProcessors := 0 |}
              {| encodeDirOk := true; doneTxt := NotExist; outputs := ∅ |}
              (Ok None) [Received r0]) = None
  <-> failures [Received r0] = [].
Proof.
  intros ch0 r0.
  apply (returns_nil_iff_no_failure _ [ch0] _ _ _ None {| ChunksDone := [] |});
    [reflexivity|reflexivity|discriminate].
Defined.

End pipeline_facts.

(* ===================================================================== *)
(** * One chunk on one worker *)
(* ===================================================================== *)

Section chunk_encode.
Import chunk encode spec worker.

(** The frames the loop hands to the encoder are the next ones in order,
    all [n] of them when the loop runs to its end. *)
Lemma streamFrames_written (io : ChunkIO) (start : Z) (n : nat) :
  forall i written e w',
    streamFrames io start i n written = (e, w') ->
    exists j, 0 <= j <= Z.of_nat n
              /\ w' = written ++ ((fun k => goint.wrap_int (start + k)) <$> seqZ i j)
              /\ (e = LoopDone -> j = Z.of_nat n).
Proof.
  induction n as [|n IH]; intros i written e w'; cbn [streamFrames].
  - intros [= <- <-]. exists 0. split; [lia|]. split; [by rewrite app_nil_r|done].
  - destruct (cancelled io i).
    { intros [= <- <-]. exists 0. split; [lia|]. split; [by rewrite app_nil_r|done]. }
    destruct (extractFrame io (goint.wrap_int (start + i))).
    { intros [= <- <-]. exists 0. split; [lia|]. split; [by rewrite app_nil_r|done]. }
    destruct (writeFrame io i).
    { intros [= <- <-]. exists 0. split; [lia|]. split; [by rewrite app_nil_r|done]. }
    intros Hrec. apply IH in Hrec as (j & Hj & -> & Hdone).
    exists (j + 1). split; [lia|]. split.
    + rewrite (seqZ_cons i (j + 1)) by lia.
      replace (Z.pred (j + 1)) with j by lia. replace (Z.succ i) with (i + 1) by lia.
      by rewrite <- app_assoc.
    + intros He. rewrite (Hdone He). lia.
Qed.

Lemma wrapped_frames (start j : Z) :
  0 <= start -> start + j <= goint.maxInt ->
  (fun k => goint.wrap_int (start + k)) <$> seqZ 0 j = seqZ start j.
Proof.
  intros Hs Hj. replace (seqZ start j) with (seqZ (start + 0) j) by (f_equal; lia).
  rewrite <- fmap_add_seqZ.
  apply list_fmap_ext. intros i k Hk. apply lookup_seqZ in Hk as [-> Hi].
  apply wrap_int_small. unfold goint.minInt, goint.maxInt in *. lia.
Qed.

Lemma encodeChunkStreaming_loop (io : ChunkIO) (ch : Chunk) :
  exists e w,
    streamFrames io (Start ch) 0 (Z.to_nat (Frames ch)) [] = (e, w)
    /\ (encodeChunkStreaming io ch).2
       = match stdinPipe io, startCmd io with None, None => w | _, _ => [] end
    /\ (Error (encodeChunkStreaming io ch).1 = None ->
        e = LoopDone /\ stdinPipe io = None /\ startCmd io = None
        /\ rFrames (encodeChunkStreaming io ch).1 = Frames ch).
Proof.
  unfold encodeChunkStreaming.
  destruct (streamFrames io (Start ch) 0 (Z.to_nat (Frames ch)) []) as [e w].
  exists e, w. split; [done|].
  destruct (stdinPipe io); [by split|]. destruct (startCmd io); [by split|].
  destruct e; [|by split..].
  destruct (waitCmd io); [by split|]. destruct (statErr io); by split.
Qed.

Lemma encodeChunkStreaming_idx (io : ChunkIO) (ch : Chunk) :
  ChunkIdx (encodeChunkStreaming io ch).1 = Idx ch.
Proof.
  unfold encodeChunkStreaming.
  destruct (stdinPipe io); [done|]. destruct (startCmd io); [done|].
  destruct (streamFrames _ _ _ _ _) as [[] w]; try done.
  destruct (waitCmd io); [done|]. by destruct (statErr io).
Qed.

Lemma encodeChunkStreaming_size (io : ChunkIO) (ch : Chunk) :
  0 <= rSize (encodeChunkStreaming io ch).1 <= goint.maxUint64.
Proof.
  assert (0 <= 0 <= goint.maxUint64) by (unfold goint.maxUint64; lia).
  unfold encodeChunkStreaming.
  destruct (stdinPipe io); [done|]. destruct (startCmd io); [done|].
  destruct (streamFrames _ _ _ _ _) as [[] w]; try done.
  destruct (waitCmd io); [done|]. destruct (statErr io); [done|].
  cbn [fst rSize]. unfold goint.wrap_uint64, goint.maxUint64.
  pose proof (Z.mod_pos_bound (statSize io) (2 ^ 64)). lia.
Qed.

Lemma encodeChunkStreaming_resultFor (io : ChunkIO) (ch : Chunk) :
  resultFor ch (encodeChunkStreaming io ch).1.
Proof.
  split; [apply encodeChunkStreaming_idx|]. intros Hok.
  destruct (encodeChunkStreaming_loop io ch) as (e & w & _ & _ & Hsucc).
  destruct (Hsucc Hok) as (_ & _ & _ & Hfr).
  split; [done|apply encodeChunkStreaming_size].
Qed.

(** X15. Every result of [encodeChunkStreaming] names the chunk that was
    handed in, and its size always fits a [uint64]; a result without error
    reports that chunk's frame count, a result with an error reports no
    frames and no bytes. *)
Theorem chunk_result_wellformed (io : ChunkIO) (ch : Chunk) :
  let r := (encodeChunkStreaming io ch).1 in
  resultFor ch r
  /\ (Error r <> None -> rFrames r = 0 /\ rSize r = 0).
Proof.
  intros r. subst r. split; [apply encodeChunkStreaming_resultFor|].
  unfold encodeChunkStreaming.
  destruct (stdinPipe io); [done|]. destruct (startCmd io); [done|].
  destruct (streamFrames _ _ _ _ _) as [[] w]; try done.
  destruct (waitCmd io); [done|]. by destruct (statErr io).
Qed.

(** X16. For a chunk [0 <= start <= end] within [int], the frames written to
    the encoder are always the chunk's frames from [start] on, in order,
    without gap or repetition; when the result carries no error they are
    all the frames [start .. end-1]. *)
Theorem chunk_frames_in_order (io : ChunkIO) (ch : Chunk) :
  0 <= Start ch <= End_ ch -> End_ ch <= goint.maxInt ->
  (encodeChunkStreaming io ch).2 `prefix_of` seqZ (Start ch) (End_ ch - Start ch)
  /\ (Error (encodeChunkStreaming io ch).1 = None ->
      (encodeChunkStreaming io ch).2 = seqZ (Start ch) (End_ ch - Start ch)).
Proof.
  intros Hse Hmax.
  assert (Hfr : Frames ch = End_ ch - Start ch) by (apply Frames_exact; lia).
  destruct (encodeChunkStreaming_loop io ch) as (e & w & Hloop & Hw & Hsucc).
  apply streamFrames_written in Hloop as (j & Hj & Hwj & Hdone).
  rewrite Hfr, Z2Nat.id in Hj, Hdone by lia. cbn [app] in Hwj.
  rewrite wrapped_frames in Hwj by lia. subst w.
  assert (Hpre : seqZ (Start ch) j `prefix_of` seqZ (Start ch) (End_ ch - Start ch)).
  { exists (seqZ (Start ch + j) (End_ ch - Start ch - j)).
    rewrite <- seqZ_app by lia. f_equal. lia. }
  split.
  - rewrite Hw. destruct (stdinPipe io); [apply prefix_nil|].
    destruct (startCmd io); [apply prefix_nil|done].
  - intros Hok. destruct (Hsucc Hok) as (-> & Hp & Hs & _).
    rewrite Hw, Hp, Hs. by rewrite Hdone.
Qed.

Lemma chunk_frames_in_order_witness :
  let io := {| stdinPipe := None; startCmd := None; cancelled := fun i => 2 <=? i;
               extractFrame := fun _ => None; writeFrame := fun _ => None;
               waitCmd := None; statErr := None; statSize := 900 |} in
  let ch := {| Idx := 1; Start := 480; End_ := 500 |} in
  (encodeChunkStreaming io ch).2 `prefix_of` seqZ 480 (500 - 480)
  /\ (Error (encodeChunkStreaming io ch).1 = None ->
      (encodeChunkStreaming io ch).2 = seqZ 480 (500 - 480)).
Proof.
  intros io ch. apply (chunk_frames_in_order io ch); cbn; [lia|discriminate].
Defined.

End chunk_encode.

(* ===================================================================== *)
(** * Batched merge *)
(* ===================================================================== *)

Section batched_merge.
Import merge.

Lemma concat_members_snoc (done : list Batch) (b : Batch) :
  concat (members <$> (done ++ [b])) = concat (members <$> done) ++ members b.
Proof. by rewrite fmap_app, concat_app, (right_id [] app (members b)). Qed.

(** With a file system and an ffmpeg that do not fail, the loop walks the
    chunk indices from [start] on in blocks of 500. *)
Lemma batchLoop_blocks (io : MergeIO) (numChunks : Z) :
  (forall k, concatOk io k = true) -> (forall k, batchOk io k = true) ->
  numChunks <= goint.maxInt - batchSize ->
  forall fuel start num done,
    0 <= num -> start = batchSize * num -> start <= numChunks + batchSize ->
    (start < numChunks -> (numChunks - start + 499) / 500 <= Z.of_nat fuel) ->
    exists done',
      batchLoop fuel io numChunks start num done = Some (done', None)
      /\ concat (members <$> done')
         = concat (members <$> done) ++ seqZ start (numChunks - start)
      /\ (Forall batchSized done -> Forall batchSized done')
      /\ batchNum <$> done'
         = (batchNum <$> done) ++ seqZ num ((numChunks - start + 499) / 500).
Proof.
  unfold batchSize. intros Hconcat Hbatch Hmax.
  induction fuel as [|fuel IH]; intros start num done Hnum Hstart Hle Hfuel.
  - destruct (Z.ltb_spec start numChunks) as [Hlt|Hge].
    + specialize (Hfuel Hlt). exfalso. revert Hfuel.
      Z.div_mod_to_equations. lia.
    + exists done. cbn [batchLoop]. destruct (Z.ltb_spec start numChunks); [lia|].
      cbn [negb]. split; [done|].
      rewrite !seqZ_nil, !app_nil_r by (try lia; Z.div_mod_to_equations; lia). done.
  - cbn [batchLoop]. destruct (Z.ltb_spec start numChunks) as [Hlt|Hge]; cbn [negb].
    2:{ exists done. split; [done|].
        rewrite !seqZ_nil, !app_nil_r by (try lia; Z.div_mod_to_equations; lia). done. }
    rewrite Hconcat, Hbatch. cbn [negb].
    unfold batchSize.
    rewrite !wrap_int_small by (unfold goint.minInt, goint.maxInt in *; lia).
    set (end_ := if numChunks <? start + 500 then numChunks else start + 500).
    assert (Hend : end_ = Z.min numChunks (start + 500)).
    { subst end_. destruct (Z.ltb_spec numChunks (start + 500)); lia. }
    specialize (Hfuel Hlt).
    destruct (IH (start + 500) (num + 1)
                 (done ++ [{| batchNum := num; members := seqZ start (end_ - start) |}]))
      as (done' & -> & Hcat & Hsized & Hnums).
    + lia.
    + lia.
    + lia.
    + intros Hlt'. revert Hfuel. Z.div_mod_to_equations. lia.
    + exists done'. split; [done|]. split; [|split].
      * rewrite Hcat, concat_members_snoc. cbn [members]. rewrite <- app_assoc. f_equal.
        destruct (Z.le_gt_cases (start + 500) numChunks).
        -- replace (end_ - start) with 500 by lia.
           replace (numChunks - start) with (500 + (numChunks - (start + 500))) by lia.
           by rewrite seqZ_app by lia.
        -- replace (end_ - start) with (numChunks - start) by lia.
           by rewrite (seqZ_nil (start + 500)), app_nil_r by lia.
      * intros Hdone. apply Hsized, Forall_app. split; [done|].
        constructor; [|done]. unfold batchSized. cbn [members]. rewrite length_seqZ. lia.
      * rewrite Hnums, fmap_app. cbn [fmap list_fmap batchNum]. rewrite <- app_assoc. f_equal.
        cbn [app].
        rewrite (seqZ_cons num ((numChunks - start + 499) / 500))
          by (Z.div_mod_to_equations; lia).
        f_equal. replace (Z.succ num) with (num + 1) by lia. f_equal.
        Z.div_mod_to_equations. lia.
Qed.

(** X17. When nothing fails, [MergeBatched] on more than 500 chunks merges
    [ceil(numChunks / 500)] batches, numbered from 0, each of 1 to 500
    chunk files, which together list every chunk index [0 .. numChunks-1]
    exactly once and in order; with 500 chunks or fewer it merges
    nothing. *)
Theorem MergeBatched_batches (io : MergeIO) (numChunks : Z) :
  mkdirOk io = true -> (forall k, concatOk io k = true) -> (forall k, batchOk io k = true) ->
  finalConcatOk io = true -> finalOk io = true -> renameOk io = true ->
  numChunks <= goint.maxInt - batchSize ->
  exists batches,
    MergeBatched io numChunks = Some (batches, None)
    /\ (numChunks <= batchSize -> batches = [])
    /\ (batchSize < numChunks ->
        concat (members <$> batches) = seqZ 0 numChunks
        /\ Forall batchSized batches
        /\ batchNum <$> batches = seqZ 0 ((numChunks + 499) / 500)).
Proof.
  intros Hmk Hconcat Hbatch Hfc Hf Hren Hmax. unfold MergeBatched.
  destruct (Z.leb_spec numChunks batchSize) as [Hsmall|Hbig].
  { exists []. split; [done|]. split; [done|]. lia. }
  rewrite Hmk. cbn [negb].
  destruct (batchLoop_blocks io numChunks Hconcat Hbatch Hmax
              (Z.to_nat (numChunks / batchSize + 1)) 0 0 [])
    as (batches & -> & Hcat & Hsized & Hnums).
  - lia.
  - unfold batchSize. lia.
  - unfold batchSize in *. lia.
  - intros _. unfold batchSize in *. rewrite Z2Nat.id by (Z.div_mod_to_equations; lia).
    Z.div_mod_to_equations. lia.
  - rewrite Hfc, Hf, Hren. cbn [negb]. exists batches. split; [done|].
    split; [lia|]. intros _.
    rewrite Z.sub_0_r in Hcat, Hnums. cbn [fmap list_fmap concat app] in Hcat, Hnums.
    split; [done|]. split; [|done]. apply Hsized. constructor.
Qed.

Lemma MergeBatched_batches_witness :
  let io := {| mkdirOk := true; concatOk := fun _ => true; batchOk := fun _ => true;
               finalConcatOk := true; finalOk := true; renameOk := true |} in
  exists batches,
    MergeBatched io 1200 = Some (batches, None)
    /\ (1200 <= batchSize -> batches = [])
    /\ (batchSize < 1200 ->
        concat (members <$> batches) = seqZ 0 1200
        /\ Forall batchSized batches
        /\ batchNum <$> batches = seqZ 0 ((1200 + 499) / 500)).
Proof.
  intros io. apply (MergeBatched_batches io 1200); try reflexivity.
  vm_compute. discriminate.
Defined.

End batched_merge.

(* ===================================================================== *)
(** * Crop detection: counting and the shape of the result *)
(* ===================================================================== *)

Section crop_facts.
Import processing spec runs.

Lemma mapTotal_empty : mapTotal ∅ = 0.
Proof. unfold mapTotal. by rewrite map_to_list_empty. Qed.

Lemma mapTotal_insert_fresh (m : gmap gostring Z) (r : gostring) (v : Z) :
  m !! r = None -> mapTotal (<[r := v]> m) = v + mapTotal m.
Proof.
  intros Hr. unfold mapTotal.
  rewrite (sumZ_Permutation _ (((r, v) :: map_to_list m).*2)).
  - done.
  - by rewrite map_to_list_insert.
Qed.

Lemma mapTotal_delete (m : gmap gostring Z) (r : gostring) (v : Z) :
  m !! r = Some v -> mapTotal m = v + mapTotal (delete r m).
Proof.
  intros Hr. unfold mapTotal.
  rewrite (sumZ_Permutation _ (((r, v) :: map_to_list (delete r m)).*2)).
  - done.
  - by rewrite map_to_list_delete.
Qed.

Lemma mapTotal_nonneg (m : gmap gostring Z) :
  map_Forall (fun _ n => 1 <= n) m -> 0 <= mapTotal m.
Proof.
  intros Hm. unfold mapTotal. apply sumZ_nonneg, Forall_fmap, Forall_forall.
  intros [r n] Hin%elem_of_map_to_list. specialize (Hm r n Hin). cbn in *. lia.
Qed.

Lemma mapTotal_bump (m : gmap gostring Z) (r : gostring) :
  map_Forall (fun _ n => 1 <= n) m ->
  mapTotal (<[r := default 0 (m !! r) + 1]> m) = mapTotal m + 1
  /\ default 0 (m !! r) <= mapTotal m
  /\ map_Forall (fun _ n => 1 <= n) (<[r := default 0 (m !! r) + 1]> m).
Proof.
  intros Hm. destruct (m !! r) as [v|] eqn:Hr; cbn [default].
  - pose proof (Hm r v Hr) as Hv. cbn in Hv.
    assert (map_Forall (fun _ n => 1 <= n) (delete r m)) as Hd.
    { intros k n Hk. apply lookup_delete_Some in Hk as [_ Hk]. by apply (Hm k n). }
    pose proof (mapTotal_nonneg _ Hd).
    rewrite (mapTotal_delete m r v Hr).
    rewrite <- (insert_delete_eq m), mapTotal_insert_fresh by apply lookup_delete_eq.
    unfold id. split; [lia|]. split; [lia|].
    apply map_Forall_insert_2; [lia|done].
  - pose proof (mapTotal_nonneg _ Hm).
    rewrite mapTotal_insert_fresh by done. split; [lia|]. split; [lia|].
    apply map_Forall_insert_2; [lia|done].
Qed.

Lemma hits_cons (crop : gostring) (samples : list gostring) :
  hits (crop :: samples) = (match crop with [] => 0 | _ => 1 end) + hits samples.
Proof.
  unfold hits. rewrite filter_cons. destruct crop; case_decide; try done; cbn [length]; lia.
Qed.

Lemma hits_bounds (samples : list gostring) :
  0 <= hits samples <= Z.of_nat (length samples).
Proof.
  unfold hits. pose proof (length_filter (fun crop : gostring => crop <> []) samples). lia.
Qed.

Lemma countCrops_from (samples : list gostring) (m : gmap gostring Z) :
  map_Forall (fun _ n => 1 <= n) m ->
  mapTotal m + Z.of_nat (length samples) <= goint.maxInt ->
  let m' := foldl (fun counts crop =>
                     match crop with
                     | [] => counts
                     | _ => <[crop := goint.wrap_int (default 0 (counts !! crop) + 1)]> counts
                     end) m samples in
  map_Forall (fun _ n => 1 <= n) m' /\ mapTotal m' = mapTotal m + hits samples.
Proof.
  revert m. induction samples as [|crop samples IH]; intros m Hm Hfit; cbn [foldl].
  - split; [done|]. change (hits []) with 0. lia.
  - rewrite hits_cons. cbn [length] in Hfit. destruct crop as [|c0 crop].
    + destruct (IH m Hm) as [? ->]; [lia|]. split; [done|lia].
    + destruct (mapTotal_bump m (c0 :: crop) Hm) as (Htot & Hle & Hpos).
      pose proof (mapTotal_nonneg m Hm).
      assert (0 <= default 0 (m !! (c0 :: crop))).
      { destruct (m !! (c0 :: crop)) as [v|] eqn:Hv; cbn; [|lia].
        specialize (Hm _ _ Hv). cbn in Hm. lia. }
      rewrite wrap_int_small by (unfold goint.minInt, goint.maxInt in *; lia).
      destruct (IH _ Hpos) as [? ->]; [lia|]. split; [done|lia].
Qed.

(** X18. The counts [DetectCrop] aggregates add up to the number of samples
    that produced a rectangle, so to at most the number of samples, and
    every rectangle in the map was seen at least once. *)
Theorem countCrops_total (samples : list gostring) :
  Z.of_nat (length samples) <= goint.maxInt ->
  mapTotal (countCrops samples) = hits samples
  /\ mapTotal (countCrops samples) <= Z.of_nat (length samples)
  /\ map_Forall (fun _ n => 1 <= n) (countCrops samples).
Proof.
  intros Hfit. unfold countCrops.
  destruct (countCrops_from samples ∅) as [Hpos Htot].
  - apply map_Forall_empty.
  - rewrite mapTotal_empty. lia.
  - cbn zeta in *. rewrite Htot, mapTotal_empty.
    pose proof (hits_bounds samples). split; [lia|]. split; [lia|done].
Qed.

Lemma countCrops_total_witness :
  let samples := [str "1920:800:0:140"; []; str "1920:800:0:140"; str "1920:1080:0:0"] in
  mapTotal (countCrops samples) = hits samples
  /\ mapTotal (countCrops samples) <= Z.of_nat (length samples)
  /\ map_Forall (fun _ n => 1 <= n) (countCrops samples).
Proof. intros samples. apply (countCrops_total samples). vm_compute. discriminate. Defined.

Lemma DetectCrop_cases (disableCrop : bool) (cropCounts : list (gostring * Z))
    (width height : Z) :
  let res := DetectCrop disableCrop cropCounts width height in
  (Required res = false /\ CropFilter res = [])
  \/ (disableCrop = false
      /\ exists r n, (r, n) ∈ cropCounts /\ res = cropTo r
                     /\ isEffectiveCrop r width height = true).
Proof.
  unfold DetectCrop. destruct disableCrop; [by left|].
  unfold analyze. destruct cropCounts as [|[r1 n1] [|e2 tl]].
  - by left.
  - destruct (isEffectiveCrop r1 width height) eqn:Heff; cbn [negb]; [|by left].
    right. split; [done|]. exists r1, n1. split; [apply list_elem_of_here|done].
  - destruct (sortByCount_head ((r1, n1) :: e2 :: tl)) as ([r n] & rest & -> & Hin & _); [done|].
    cbn [fst snd]. destruct (dominant _ _); [|by left].
    destruct (isEffectiveCrop r width height) eqn:Heff; cbn [negb]; [|by left].
    right. split; [done|]. by exists r, n.
Qed.

(** X19. Whenever [DetectCrop] asks for a crop, detection was not disabled, the
    filter is ["crop="] followed by one of the sampled rectangles, that
    rectangle removes pixels from the source, and the result is not
    flagged; whenever it asks for none, the filter is empty. *)
Theorem DetectCrop_result_shape (disableCrop : bool) (cropCounts : list (gostring * Z))
    (width height : Z) :
  let res := DetectCrop disableCrop cropCounts width height in
  (Required res = true ->
   disableCrop = false
   /\ exists r n, (r, n) ∈ cropCounts /\ res = cropTo r
                  /\ isEffectiveCrop r width height = true)
  /\ (Required res = false -> CropFilter res = []).
Proof.
  intros res. subst res.
  destruct (DetectCrop_cases disableCrop cropCounts width height)
    as [[Hr Hf]|(Hd & r & n & Hin & Heq & Heff)].
  - split; [|done]. rewrite Hr. done.
  - split; [|by rewrite Heq]. intros _. split; [done|]. by exists r, n.
Qed.

Lemma isValidCropFormat_fields (crop : gostring) :
  isValidCropFormat crop = true ->
  exists p0 p1 p2 p3 w h,
    strings.Split crop ":" = [p0; p1; p2; p3]
    /\ strconv.ParseUint p0 32 = Some w /\ strconv.ParseUint p1 32 = Some h.
Proof.
  unfold isValidCropFormat.
  destruct (strings.Split crop ":") as [|p0 [|p1 [|p2 [|p3 [|]]]]]; try done.
  cbn [length Nat.eqb negb forallb]. intros Hall.
  apply andb_prop in Hall as [H0 Hall]. apply andb_prop in Hall as [H1 _].
  apply bool_decide_eq_true in H0 as [w Hw]. apply bool_decide_eq_true in H1 as [h Hh].
  by exists p0, p1, p2, p3, w, h.
Qed.

(** The filter built from a rectangle is read back as that rectangle's
    first two fields. *)
Lemma GetOutputDimensions_cropTo (crop p0 p1 : gostring) (rest : list gostring)
    (w h sourceWidth sourceHeight : Z) :
  strings.Split crop ":" = p0 :: p1 :: rest ->
  strconv.ParseUint p0 32 = Some w -> strconv.ParseUint p1 32 = Some h ->
  GetOutputDimensions sourceWidth sourceHeight (CropFilter (cropTo crop)) = (w, h).
Proof.
  intros Hsplit Hw Hh. cbn [cropTo CropFilter]. unfold GetOutputDimensions.
  assert (strings.TrimPrefix (str "crop=" ++ crop) (str "crop=") = crop) as Htrim.
  { symmetry. apply TrimPrefix_cases. by left. }
  change (str "crop=" ++ crop) with ("c"%char :: (str "rop=" ++ crop)) at 1.
  cbv beta iota. rewrite Htrim, Hsplit, Hw, Hh.
  by rewrite (ParseUint32_to_uint32 p0), (ParseUint32_to_uint32 p1).
Qed.

(** X20. For a rectangle [w:h:x:y] that passed [isValidCropFormat], the filter
    [DetectCrop] builds from it leads [GetOutputDimensions] to the
    rectangle's own width and height, whatever the source dimensions; if
    the rectangle is an effective crop of the source, these differ from the
    source dimensions. *)
Theorem crop_filter_dimensions (crop : gostring) (sourceWidth sourceHeight : Z) :
  isValidCropFormat crop = true ->
  exists w h,
    rectDims crop w h
    /\ GetOutputDimensions sourceWidth sourceHeight (CropFilter (cropTo crop)) = (w, h)
    /\ (isEffectiveCrop crop sourceWidth sourceHeight = true ->
        (w, h) <> (sourceWidth, sourceHeight)).
Proof.
  intros (p0 & p1 & p2 & p3 & w & h & Hsplit & Hw & Hh)%isValidCropFormat_fields.
  exists w, h.
  assert (Hdims : rectDims crop w h).
  { exists p0, p1. split; [|done]. apply Split_first_two. rewrite Hsplit. by eexists. }
  split; [done|]. split.
  - by apply (GetOutputDimensions_cropTo crop p0 p1 [p2; p3]).
  - intros Heff [= -> ->]. apply isEffectiveCrop_rectDims in Hdims. congruence.
Qed.

Lemma crop_filter_dimensions_witness :
  exists w h,
    rectDims (str "1920:800:0:140") w h
    /\ GetOutputDimensions 1920 1080 (CropFilter (cropTo (str "1920:800:0:140"))) = (w, h)
    /\ (isEffectiveCrop (str "1920:800:0:140") 1920 1080 = true -> (w, h) <> (1920, 1080)).
Proof. apply (crop_filter_dimensions (str "1920:800:0:140") 1920 1080). reflexivity. Defined.

(** X21. When every sampled rectangle has the form [w:h:x:y], the dimensions
    the output is later checked against ([GetOutputDimensions] on the
    filter of the [DetectCrop] result) differ from the source dimensions
    exactly when [DetectCrop] asks for a crop. *)
Theorem crop_required_iff_dimensions_change (disableCrop : bool)
    (cropCounts : list (gostring * Z)) (width height : Z) :
  Forall (fun e => isValidCropFormat e.1 = true) cropCounts ->
  let res := DetectCrop disableCrop cropCounts width height in
  Required res = true
  <-> GetOutputDimensions width height (CropFilter res) <> (width, height).
Proof.
  intros Hvalid res. subst res.
  destruct (DetectCrop_cases disableCrop cropCounts width height)
    as [[Hr Hf]|(Hd & r & n & Hin & Heq & Heff)].
  - rewrite Hr, Hf. cbn [GetOutputDimensions]. split; [done|]. by intros [].
  - rewrite Heq. cbn [Required cropTo]. split; [intros _|done].
    rewrite Forall_forall in Hvalid. specialize (Hvalid _ Hin). cbn [fst] in Hvalid.
    destruct (isValidCropFormat_fields r Hvalid)
      as (p0 & p1 & p2 & p3 & w & h & Hsplit & Hw & Hh).
    change (str "crop=" ++ r) with (CropFilter (cropTo r)).
    rewrite (GetOutputDimensions_cropTo r p0 p1 [p2; p3] w h) by done.
    intros [= -> ->]. unfold isEffectiveCrop in Heff. rewrite Hsplit, Hw, Hh in Heff.
    rewrite (ParseUint32_to_uint32 p0), (ParseUint32_to_uint32 p1) in Heff by done.
    by rewrite !Z.eqb_refl in Heff.
Qed.

Lemma crop_required_iff_dimensions_change_witness :
  let res := DetectCrop false [(str "1920:800:0:140", 141)] 1920 1080 in
  Required res = true <-> GetOutputDimensions 1920 1080 (CropFilter res) <> (1920, 1080).
Proof.
  apply (crop_required_iff_dimensions_change false [(str "1920:800:0:140", 141)] 1920 1080).
  repeat constructor.
Defined.

End crop_facts.

(* ===================================================================== *)
(** * Configuration *)
(* ===================================================================== *)

Section config_facts.
Import config.

(** X22. A configuration that [Validate] accepts has a preset of at most 13,
    at least one worker and a non-negative chunk buffer, and for every
    width it yields a CRF of at most 63 and a chunk duration that is
    neither below 1 nor above 120 seconds. *)
Theorem validated_config_in_range (c : Config) (width : Z) :
  Validate c = None ->
  SVTAV1Preset c <= 13 /\ 1 <= Workers c /\ 0 <= ChunkBuffer c
  /\ CRFForWidth c width <= 63
  /\ durationOutOfRange (ChunkDurationForWidth c width) = false.
Proof.
  unfold Validate, CRFForWidth, ChunkDurationForWidth.
  destruct (Z.ltb_spec 13 (SVTAV1Preset c)); [done|].
  destruct (Z.ltb_spec 63 (CRFSD c)); [done|].
  destruct (Z.ltb_spec 63 (CRFHD c)); [done|].
  destruct (Z.ltb_spec 63 (CRFUHD c)); [done|].
  destruct (Z.ltb_spec (Workers c) 1); [done|].
  destruct (Z.ltb_spec (ChunkBuffer c) 0); [done|].
  destruct (durationOutOfRange (ChunkDurationSD c)) eqn:Hsd; [done|].
  destruct (durationOutOfRange (ChunkDurationHD c)) eqn:Hhd; [done|].
  destruct (durationOutOfRange (ChunkDurationUHD c)) eqn:Huhd; [done|].
  intros _. repeat case_match; split_and!; done || lia.
Qed.

Lemma validated_config_in_range_witness :
  let c := {| SVTAV1Preset := 6; CRFSD := 25; CRFHD := 27; CRFUHD := 29;
              Workers := 24; ChunkBuffer := 4;
              ChunkDurationSD := float64.of_int 20; ChunkDurationHD := float64.of_int 30;
              ChunkDurationUHD := float64.of_int 45 |} in
  SVTAV1Preset c <= 13 /\ 1 <= Workers c /\ 0 <= ChunkBuffer c
  /\ CRFForWidth c 1920 <= 63
  /\ durationOutOfRange (ChunkDurationForWidth c 1920) = false.
Proof. intros c. apply (validated_config_in_range c 1920). reflexivity. Defined.

(** A duration that is not a number passes the range test of [Validate]:
    both comparisons are false on NaN. *)
Example durationOutOfRange_nan : durationOutOfRange S754_nan = false.
Proof. reflexivity. Qed.

End config_facts.

(* ===================================================================== *)
(** * Whole runs: the frame total of a plan, completion, the run after *)
(* ===================================================================== *)

Section whole_runs.
Import chunk encode spec runs.

Lemma LoadScenes_chained (data : gostring) (lines : list gostring)
    (frameNums : list Z) (totalFrames : Z) :
  0 < totalFrames ->
  strings.Scanner data = (lines, false) ->
  parseFrameNums lines = Ok frameNums ->
  Forall (fun n => 0 <= n < totalFrames) frameNums ->
  exists scenes,
    LoadScenes (Content data) totalFrames = Ok scenes
    /\ scenes <> [] /\ chained 0 scenes totalFrames.
Proof.
  intros Htotal Hscan Hparse Hrange.
  unfold LoadScenes. rewrite Hscan, Hparse. eexists. split; [reflexivity|].
  assert (Hsorted := sortInts_sorted frameNums).
  apply sortInts_Forall in Hrange.
  destruct (ensureZero_head (sortInts frameNums)) as (rest & -> & Hs0 & Hall).
  - done.
  - eapply Forall_impl; [exact Hrange|]. cbn. lia.
  - apply (scenesOf_chained totalFrames rest 0); [done|].
    apply Hall; [lia|]. eapply Forall_impl; [exact Hrange|]. cbn. lia.
Qed.

Lemma chained_frames (a b : Z) (scenes : list Scene) :
  chained a scenes b ->
  sumZ ((fun s => EndFrame s - StartFrame s) <$> scenes) = b - a.
Proof.
  revert a. induction scenes as [|s rest IH]; intros a; cbn [chained].
  - intros ->. cbn. lia.
  - intros (Hs & _ & Hch). rewrite fmap_cons, sumZ_cons, (IH _ Hch). lia.
Qed.

Lemma framesOf_Chunkify (scenes : list Scene) :
  framesOf (Chunkify scenes) = sumZ ((fun s => EndFrame s - StartFrame s) <$> scenes).
Proof.
  unfold framesOf, Chunkify. f_equal. rewrite fmap_imap, <- imap_const.
  by apply imap_ext.
Qed.

(** X23. For a readable scenes file whose boundaries lie in [[0, totalFrames)],
    the frames of the chunks add up to [totalFrames], and this is the
    frame total [EncodeAll] computes for its progress reports, whatever the
    resume log holds. *)
Theorem plan_counts_every_frame (data : gostring) (lines : list gostring)
    (frameNums : list Z) (totalFrames : Z) (doneSet : gmap Z bool) :
  0 < totalFrames <= goint.maxInt ->
  strings.Scanner data = (lines, false) ->
  parseFrameNums lines = Ok frameNums ->
  Forall (fun n => 0 <= n < totalFrames) frameNums ->
  exists scenes,
    LoadScenes (Content data) totalFrames = Ok scenes
    /\ framesOf (Chunkify scenes) = totalFrames
    /\ (countRemaining doneSet (Chunkify scenes)).2 = totalFrames.
Proof.
  intros [Hpos Hmax] Hscan Hparse Hrange.
  destruct (LoadScenes_chained data lines frameNums totalFrames Hpos Hscan Hparse Hrange)
    as (scenes & Hload & Hne & Hch).
  exists scenes. split; [done|].
  assert (Hframes : framesOf (Chunkify scenes) = totalFrames).
  { rewrite framesOf_Chunkify, (chained_frames 0 totalFrames) by done. lia. }
  split; [done|]. rewrite countRemaining_total; [done| |lia].
  apply Forall_forall. intros c (i & Hi)%list_elem_of_lookup.
  apply Chunkify_lookup in Hi as (s & Hs & ->). cbn.
  apply list_elem_of_lookup_2 in Hs. by eapply chained_nonempty.
Qed.

Lemma plan_counts_every_frame_witness :
  exists scenes,
    LoadScenes (Content (str "200" ++ "010"%char :: str "100" ++ "010"%char :: str " 0 ")) 250
    = Ok scenes
    /\ framesOf (Chunkify scenes) = 250
    /\ (countRemaining ∅ (Chunkify scenes)).2 = 250.
Proof.
  apply (plan_counts_every_frame _ [str "200"; str "100"; str " 0 "] [200; 100; 0] 250 ∅).
  - vm_compute. split; [reflexivity|discriminate].
  - reflexivity.
  - reflexivity.
  - repeat constructor; lia.
Defined.

Lemma consistent_logged_back (doneChunks : list Chunk) (log : list ChunkComp) :
  Forall2 (fun ch c => cIdx c = Idx ch /\ cFrames c = End_ ch - Start ch) doneChunks log ->
  forall c, c ∈ log -> exists ch, ch ∈ doneChunks /\ Idx ch = cIdx c.
Proof.
  induction 1 as [|ch c l k [Hi Hf] _ IH]; intros c' Hin.
  - by apply not_elem_of_nil in Hin.
  - apply elem_of_cons in Hin as [->|Hin].
    + exists ch. split; [apply list_elem_of_here|done].
    + destruct (IH c' Hin) as (ch' & Hch' & Heq). exists ch'.
      split; [by apply list_elem_of_further|done].
Qed.

Lemma filter_all (P : Chunk -> Prop) `{forall ch, Decision (P ch)} (l : list Chunk) :
  Forall P l -> filter P l = l.
Proof.
  induction 1 as [|ch l Hch _ IH]; [done|]. by rewrite filter_cons_True, IH.
Qed.

(** With distinct chunk indices and a log that agrees with the plan, the
    frames of the log and the frames still to encode are exactly the frames
    of the plan. *)
Lemma consistent_frames_exact (chunks : list Chunk) (resume : ResumeInf) :
  NoDup (Idx <$> chunks) ->
  consistent chunks resume ->
  sumZ (cFrames <$> ChunksDone resume)
  + framesOf (countRemaining (DoneSet resume) chunks).1 = framesOf chunks.
Proof.
  intros Hnd (doneChunks & Hsub & Hmatch).
  destruct (consistent_frames _ _ Hmatch) as [-> Hlogged].
  pose proof (consistent_logged_back _ _ Hmatch) as Hback.
  apply submseteq_Permutation in Hsub as [k Hperm].
  rewrite countRemaining_complement, (framesOf_Permutation _ _ Hperm).
  rewrite (framesOf_Permutation
             (filter (fun ch => ~ index (DoneSet resume) (Idx ch) = true) chunks)
             (filter (fun ch => ~ index (DoneSet resume) (Idx ch) = true) (doneChunks ++ k)))
    by (by apply filter_Permutation).
  rewrite filter_app, !framesOf_app.
  rewrite (filter_none _ doneChunks), (filter_all _ k).
  - change (framesOf []) with 0. lia.
  - apply Forall_forall. intros ch Hin Hidx.
    apply index_DoneSet in Hidx as (c & Hc & Hci).
    destruct (Hback c Hc) as (ch' & Hch' & Heq).
    rewrite Hperm, fmap_app in Hnd. apply NoDup_app in Hnd as (_ & Hdisj & _).
    apply (Hdisj (Idx ch')).
    + by apply list_elem_of_fmap_2.
    + rewrite Heq, Hci. by apply list_elem_of_fmap_2.
  - apply Forall_forall. intros ch Hin Hno. apply Hno.
    apply index_DoneSet. unfold logged. by apply Hlogged.
Qed.

(** The collector over a run of successes: every result adds one chunk and
    the chunk's frames, and the last snapshot handed to the callback is the
    final progress. *)
Lemma run_clean (order : list Chunk) (results : list EncodeResult) :
  Forall2 (fun ch r => resultFor ch r /\ Error r = None) order results ->
  Forall (fun ch => 0 <= End_ ch - Start ch <= goint.maxInt) order ->
  forall st,
    0 <= ChunksComplete (progress st) ->
    ChunksComplete (progress st) + Z.of_nat (length order) <= goint.maxInt ->
    0 <= FramesComplete (progress st) ->
    FramesComplete (progress st) + framesOf order <= goint.maxInt ->
    ChunksTotal (progress (run st (Received <$> results))) = ChunksTotal (progress st)
    /\ FramesTotal (progress (run st (Received <$> results))) = FramesTotal (progress st)
    /\ ChunksComplete (progress (run st (Received <$> results)))
       = ChunksComplete (progress st) + Z.of_nat (length order)
    /\ FramesComplete (progress (run st (Received <$> results)))
       = FramesComplete (progress st) + framesOf order
    /\ encodeErr (run st (Received <$> results)) = encodeErr st
    /\ length (reported (run st (Received <$> results)))
       = (length (reported st) + length order)%nat
    /\ (order <> [] ->
        last (reported (run st (Received <$> results)))
        = Some (progress (run st (Received <$> results)))).
Proof.
  induction 1 as [|ch r order results [[_ Hr] Hok] Hall IH]; intros Hwf st Hc0 Hc Hf0 Hf.
  - cbn. split_and!; try done; lia.
  - apply Forall_cons in Hwf as [Hch Hwf].
    pose proof (framesOf_nonneg _ Hwf) as Hnn.
    rewrite framesOf_cons in Hf. cbn [length] in Hc.
    destruct (Hr Hok) as [Hfr _]. rewrite (Frames_exact ch Hch) in Hfr.
    rewrite fmap_cons.
    change (run st (Received r :: (Received <$> results)))
      with (run (collect st r) (Received <$> results)).
    assert (Hst : progress (collect st r)
                  = {| ChunksTotal := ChunksTotal (progress st);
                       ChunksComplete := ChunksComplete (progress st) + 1;
                       FramesTotal := FramesTotal (progress st);
                       FramesComplete := FramesComplete (progress st) + (End_ ch - Start ch);
                       BytesComplete :=
                         goint.wrap_uint64 (BytesComplete (progress st) + rSize r) |}
                  /\ encodeErr (collect st r) = encodeErr st
                  /\ reported (collect st r) = reported st ++ [progress (collect st r)]).
    { unfold collect. rewrite Hok. cbn [progress encodeErr reported]. rewrite Hfr.
      rewrite !wrap_int_small by (unfold goint.minInt, goint.maxInt in *; lia). done. }
    destruct Hst as (Hp & He & Hrep).
    destruct (IH Hwf (collect st r)) as (HcT & HfT & Hcc & Hfc & Herr & Hlen & Hlast);
      rewrite ?Hp; cbn [ChunksComplete FramesComplete]; try lia.
    rewrite HcT, HfT, Hcc, Hfc, Herr, Hlen, Hp, He, Hrep.
    cbn [ChunksTotal FramesTotal ChunksComplete FramesComplete].
    rewrite framesOf_cons, length_app. cbn [length].
    split_and!; try done; try lia.
    intros _. destruct order as [|ch' order].
    + apply Forall2_nil_inv_l in Hall as ->. cbn [fmap list_fmap run foldl].
      rewrite Hrep at 1. by rewrite last_snoc.
    + apply Hlast. done.
Qed.

(** X24. A clean and complete run ends at exactly 100 percent. Take a plan with
    distinct chunk indices, [start < end] in every chunk and a frame total
    that fits an [int], and a log that agrees with it; let every chunk that
    is still to encode be reported once, as a success. Then [EncodeAll]
    returns no error, the callback is called once per encoded chunk, and
    the last snapshot has [ChunksComplete = ChunksTotal], the number of
    chunks, and [FramesComplete = FramesTotal], the frames of the plan. *)
Theorem clean_run_reaches_totals host chunks inf cfg wd cropCalc resume trace :
  encodeDirOk wd = true ->
  GetResume (doneTxt wd) = Ok resume ->
  Forall (fun ch => Start ch < End_ ch) chunks ->
  framesOf chunks <= goint.maxInt ->
  NoDup (Idx <$> chunks) ->
  consistent chunks resume ->
  (countRemaining (DoneSet resume) chunks).1 <> [] ->
  completes (countRemaining (DoneSet resume) chunks).1 trace ->
  let out := EncodeAll host chunks inf cfg wd (Ok cropCalc) trace in
  returned out = None
  /\ length (updates out) = length (countRemaining (DoneSet resume) chunks).1
  /\ exists p, last (updates out) = Some p
               /\ ChunksComplete p = Z.of_nat (length chunks)
               /\ ChunksTotal p = Z.of_nat (length chunks)
               /\ FramesComplete p = framesOf chunks
               /\ FramesTotal p = framesOf chunks.
Proof.
  intros Hdir Hres Hwf Hfit Hnd Hcons Hne (order & results & Hperm & -> & Hall).
  pose proof (countRemaining_total (DoneSet resume) chunks Hwf Hfit) as Htotal.
  pose proof (consistent_frames_bound chunks resume Hwf Hcons) as [Hf0 _].
  pose proof (consistent_frames_exact chunks resume Hnd Hcons) as Hexact.
  pose proof (countRemaining_complement (DoneSet resume) chunks) as Hrem.
  unfold EncodeAll. rewrite Hdir, Hres. cbn [negb].
  destruct (countRemaining (DoneSet resume) chunks) as [rem total] eqn:Hcount.
  cbn [fst snd] in *. subst total.
  destruct rem as [|ch0 rem0] eqn:Hrem0; [done|].
  rewrite <- Hrem0 in *. cbn [returned updates].
  pose proof (framesOf_lower _ Hwf) as Hlen.
  assert (Hwf_order : Forall (fun ch => 0 <= End_ ch - Start ch <= goint.maxInt) order).
  { rewrite Hperm, Hrem. apply Forall_forall. intros ch [_ Hin]%list_elem_of_filter.
    pose proof (framesOf_elem _ _ Hwf Hin). rewrite Forall_forall in Hwf.
    specialize (Hwf _ Hin). lia. }
  assert (Hlen_rem : (length rem <= length chunks)%nat)
    by (rewrite Hrem; apply length_filter).
  pose proof (Permutation_length Hperm) as Hlo.
  pose proof (framesOf_Permutation _ _ Hperm) as Hfo.
  pose proof (framesOf_nonneg _ Hwf_order) as Hnn.
  rewrite TotalEncodedFrames_sum, (wrap_int_small (sumZ (cFrames <$> ChunksDone resume)))
    by (unfold goint.minInt, goint.maxInt in *; lia).
  match goal with
  | |- context [run ?s _] =>
      destruct (run_clean order results Hall Hwf_order s)
        as (HcT & HfT & Hcc & Hfc & Herr & Hn & Hlast)
  end; cbn [progress ChunksComplete FramesComplete]; try lia.
  cbn [progress reported encodeErr ChunksTotal FramesTotal ChunksComplete FramesComplete
         length] in *.
  split; [by rewrite Herr|]. split; [by rewrite Hn, Hlo|].
  eexists. split.
  - apply Hlast. intros ->. apply Permutation_nil_l in Hperm. by subst rem.
  - rewrite HcT, HfT, Hcc, Hfc. split_and!; try done; lia.
Qed.

Lemma clean_run_reaches_totals_witness :
  let ch0 := {| Idx := 0; Start := 0; End_ := 480 |} in
  let ch1 := {| Idx := 1; Start := 480; End_ := 500 |} in
  let r := {| ChunkIdx := 1; rFrames := 20; rSize := 900; Error := None |} in
  let out :=
    EncodeAll {| AvailableMemoryBytes := 0; PhysicalCores := 8; LogicalCores := 16 |}
              [ch0; ch1] {| Width := 1280; Height := 720 |}
              {| Workers := 2; ChunkBuffer := 4; LogicalProcessors := 0 |}
              {| encodeDirOk := true;
                 doneTxt := Content (str "0 480 5000" ++ ["010"%char]);
                 outputs := {[ 0 ]} |}
              (Ok None) [Received r] in
  returned out = None
  /\ length (updates out) = 1%nat
  /\ exists p, last (updates out) = Some p
               /\ ChunksComplete p = 2 /\ ChunksTotal p = 2
               /\ FramesComplete p = 500 /\ FramesTotal p = 500.
Proof.
  intros ch0 ch1 r.
  apply (clean_run_reaches_totals _ [ch0; ch1] _ _ _ None
           {| ChunksDone := [{| cIdx := 0; cFrames := 480; cSize := 5000 |}] |}
           [Received r]).
  - reflexivity.
  - reflexivity.
  - repeat constructor.
  - vm_compute. discriminate.
  - apply (bool_decide_unpack _). vm_compute. exact I.
  - exists [ch0]. split.
    + apply submseteq_skip, submseteq_nil_l.
    + repeat constructor.
  - discriminate.
  - exists [ch1], [r]. split; [done|]. split; [done|].
    constructor; [|constructor]. split; [|done]. split; [reflexivity|].
    intros _. split; [reflexivity|]. vm_compute. split; discriminate.
Defined.



End whole_runs.

(* ===================================================================== *)
(** * One worker: permits and results *)
(* ===================================================================== *)

Section worker_pool.
Import chunk encode spec worker pool.

Lemma drain_releases (chunks : list Chunk) (n : nat) :
  foldl (fun n _ => S n) n chunks = (n + length chunks)%nat.
Proof.
  revert n. induction chunks as [|ch chunks IH]; intros n; cbn [foldl length]; [lia|].
  rewrite IH. lia.
Qed.

Lemma workerLoop_accounts (io : WorkerIO) (chunks : list Chunk) :
  forall i n results,
    exists taken new,
      workerLoop io i chunks n results = ((n + length chunks)%nat, results ++ new)
      /\ taken `sublist_of` chunks
      /\ Forall2 resultFor taken new.
Proof.
  induction chunks as [|ch chunks IH]; intros i n results; cbn [workerLoop length].
  - exists [], []. rewrite app_nil_r, Nat.add_0_r. by split_and!.
  - destruct (ctxDone io i); [|destruct (errLatched io i)].
    + destruct (IH (S i) (S n)
                   (results ++ [{| ChunkIdx := Idx ch; rFrames := 0; rSize := 0;
                                   Error := Some ErrCancelled |}]))
        as (taken & new & -> & Hsub & Hall).
      exists (ch :: taken), ({| ChunkIdx := Idx ch; rFrames := 0; rSize := 0;
                                Error := Some ErrCancelled |} :: new).
      split_and!.
      * rewrite <- app_assoc. f_equal. lia.
      * by apply sublist_skip.
      * constructor; [|done]. by split.
    + destruct (IH (S i) (S n) results) as (taken & new & -> & Hsub & Hall).
      exists taken, new. split_and!; [f_equal; lia | by apply sublist_cons | done].
    + destruct (IH (S i) (S n) (results ++ [(encodeChunkStreaming (chunkIO io i) ch).1]))
        as (taken & new & -> & Hsub & Hall).
      exists (ch :: taken), ((encodeChunkStreaming (chunkIO io i) ch).1 :: new).
      split_and!.
      * rewrite <- app_assoc. f_equal. lia.
      * by apply sublist_skip.
      * constructor; [apply encodeChunkStreaming_resultFor|done].
Qed.

(** X26. A worker gives back one permit for every chunk it takes from the
    channel, whether the chunk is encoded, skipped because an error is
    latched, cancelled, or drained after the video source failed to open.
    The results it sends are results for chunks it took, in the order it
    took them, at most one per chunk; a worker that latches the source
    error sends none. *)
Theorem worker_returns_every_permit (io : WorkerIO) (chunks : list Chunk) :
  released (streamingWorker io chunks) = length chunks
  /\ (exists taken, taken `sublist_of` chunks
                    /\ Forall2 resultFor taken (sent (streamingWorker io chunks)))
  /\ (latched (streamingWorker io chunks) <> None ->
      openSrc io <> None /\ sent (streamingWorker io chunks) = []).
Proof.
  unfold streamingWorker. destruct (openSrc io) as [msg|].
  - cbn [released sent latched]. rewrite drain_releases. split; [done|]. split; [|done].
    exists []. split; [apply sublist_nil_l|constructor].
  - destruct (workerLoop_accounts io chunks 0%nat 0%nat []) as (taken & new & -> & Hsub & Hall).
    cbn [released sent latched app]. split; [done|]. split; [|done]. by exists taken.
Qed.

End worker_pool.

(* ===================================================================== *)
(** * The --crf flag *)
(* ===================================================================== *)

Section crf_flag.
Import strings strconv config cli spec.

Lemma isDigit_plain (c : ascii) :
  isDigit c = true -> isSpace c = false /\ c <> ","%char.
Proof. destruct c as [[] [] [] [] [] [] [] []]; cbn; intros H; try discriminate H; done. Qed.

Lemma digits_no_comma (s : gostring) :
  Forall (fun c => isDigit c = true) s -> ","%char ∉ s.
Proof.
  intros Hs Hin. rewrite Forall_forall in Hs. by destruct (isDigit_plain _ (Hs _ Hin)).
Qed.

Lemma TrimSpace_digits (s : gostring) :
  Forall (fun c => isDigit c = true) s -> TrimSpace s = s.
Proof.
  intros Hs. rewrite Forall_forall in Hs. apply TrimSpace_id.
  - intros c r ->. apply isDigit_plain, Hs, list_elem_of_here.
  - intros l d ->. apply isDigit_plain, Hs, elem_of_app. right. apply list_elem_of_here.
Qed.

(** A value up to 255, written in decimal, is read back by
    [ParseUint(_, 10, 8)] after [TrimSpace]. *)
Lemma parse_value (v : Z) :
  0 <= v <= 255 ->
  Forall (fun c => isDigit c = true) (FormatUint v)
  /\ ParseUint (TrimSpace (FormatUint v)) 8 = Some v
  /\ to_uint8 v = v.
Proof.
  intros Hv. destruct (FormatUint_digits v) as (Hne & _ & Hd); [lia|].
  split; [done|]. split.
  - rewrite TrimSpace_digits by done.
    unfold ParseUint. destruct (FormatUint v) as [|c r] eqn:E; [done|]. rewrite <- E.
    unfold FormatUint. rewrite formatBits_parse by (cbn; lia). cbn [parseDigits].
    destruct (Z.ltb_spec v (2 ^ 8)); [done|lia].
  - unfold to_uint8. apply Z.mod_small. lia.
Qed.

(** X27. [--crf v] with one value up to 255 sets that value for every width;
    if the configuration was valid before, it is valid afterwards exactly
    when the value is at most 63. *)
Theorem crf_single_value_all_widths (v : Z) (cfg : Config) :
  0 <= v <= 255 ->
  exists cfg',
    parseCRF (FormatUint v) cfg = inl cfg'
    /\ (forall width, CRFForWidth cfg' width = v)
    /\ (Validate cfg = None -> (Validate cfg' = None <-> v <= 63)).
Proof.
  intros Hv. destruct (parse_value v Hv) as (Hd & Hp & Hu).
  exists (withCRF cfg v v v). split; [|split].
  - unfold parseCRF, Split. rewrite splitFrom_single by (by apply digits_no_comma).
    cbn [app]. by rewrite Hp, Hu.
  - intros width. unfold CRFForWidth. cbn. by repeat case_match.
  - unfold Validate. cbn [withCRF SVTAV1Preset CRFSD CRFHD CRFUHD Workers ChunkBuffer
                            ChunkDurationSD ChunkDurationHD ChunkDurationUHD].
    destruct (13 <? SVTAV1Preset cfg); [done|].
    destruct (63 <? CRFSD cfg); [done|]. destruct (63 <? CRFHD cfg); [done|].
    destruct (63 <? CRFUHD cfg); [done|].
    destruct (Workers cfg <? 1); [done|]. destruct (ChunkBuffer cfg <? 0); [done|].
    destruct (durationOutOfRange (ChunkDurationSD cfg)); [done|].
    destruct (durationOutOfRange (ChunkDurationHD cfg)); [done|].
    destruct (durationOutOfRange (ChunkDurationUHD cfg)); [done|].
    intros _. destruct (Z.ltb_spec 63 v); split; (done || lia).
Qed.

Lemma crf_single_value_all_widths_witness :
  exists cfg',
    parseCRF (FormatUint 27)
      {| SVTAV1Preset := 6; CRFSD := 25; CRFHD := 27; CRFUHD := 29;
         Workers := 24; ChunkBuffer := 4;
         ChunkDurationSD := float64.of_int 20; ChunkDurationHD := float64.of_int 30;
         ChunkDurationUHD := float64.of_int 45 |} = inl cfg'
    /\ (forall width, CRFForWidth cfg' width = 27)
    /\ (Validate {| SVTAV1Preset := 6; CRFSD := 25; CRFHD := 27; CRFUHD := 29;
                    Workers := 24; ChunkBuffer := 4;
                    ChunkDurationSD := float64.of_int 20;
                    ChunkDurationHD := float64.of_int 30;
                    ChunkDurationUHD := float64.of_int 45 |} = None ->
        (Validate cfg' = None <-> 27 <= 63)).
Proof. apply (crf_single_value_all_widths 27). lia. Defined.

(** X28. [--crf sd,hd,uhd] with three values up to 255 assigns them by width
    tier: [uhd] from 3840 on, [hd] from 1920 on, [sd] below. *)
Theorem crf_triple_by_tier (sd hd uhd : Z) (cfg : Config) :
  0 <= sd <= 255 -> 0 <= hd <= 255 -> 0 <= uhd <= 255 ->
  exists cfg',
    parseCRF (FormatUint sd ++ ","%char :: FormatUint hd ++ ","%char :: FormatUint uhd) cfg
    = inl cfg'
    /\ forall width,
         CRFForWidth cfg' width
         = if 3840 <=? width then uhd else if 1920 <=? width then hd else sd.
Proof.
  intros Hsd Hhd Huhd.
  destruct (parse_value sd Hsd) as (Hd0 & Hp0 & Hu0).
  destruct (parse_value hd Hhd) as (Hd1 & Hp1 & Hu1).
  destruct (parse_value uhd Huhd) as (Hd2 & Hp2 & Hu2).
  exists (withCRF cfg sd hd uhd). split.
  - unfold parseCRF, Split.
    rewrite splitFrom_notin by (by apply digits_no_comma). cbn [splitFrom Ascii.eqb Bool.eqb app].
    rewrite splitFrom_notin by (by apply digits_no_comma). cbn [splitFrom Ascii.eqb Bool.eqb app].
    rewrite splitFrom_single by (by apply digits_no_comma). cbn [app].
    by rewrite Hp0, Hp1, Hp2, Hu0, Hu1, Hu2.
  - intros width. unfold CRFForWidth, UHDWidthThreshold, HDWidthThreshold. by cbn.
Qed.

Lemma crf_triple_by_tier_witness :
  exists cfg',
    parseCRF (FormatUint 25 ++ ","%char :: FormatUint 27 ++ ","%char :: FormatUint 29)
      {| SVTAV1Preset := 6; CRFSD := 0; CRFHD := 0; CRFUHD := 0;
         Workers := 24; ChunkBuffer := 4;
         ChunkDurationSD := float64.of_int 20; ChunkDurationHD := float64.of_int 30;
         ChunkDurationUHD := float64.of_int 45 |} = inl cfg'
    /\ forall width,
         CRFForWidth cfg' width
         = if 3840 <=? width then 29 else if 1920 <=? width then 27 else 25.
Proof. apply (crf_triple_by_tier 25 27 29); lia. Defined.

Lemma splitFrom_length (sep : ascii) (s cur : gostring) :
  length (splitFrom sep cur s) = S (length (filter (fun c => c = sep) s)).
Proof.
  revert cur. induction s as [|c s IH]; intros cur; cbn [splitFrom]; [done|].
  rewrite filter_cons. destruct (Ascii.eqb_spec c sep) as [->|Hne].
  - rewrite decide_True by done. cbn [length]. by rewrite IH.
  - rewrite decide_False by done. apply IH.
Qed.

(** X29. A [--crf] string with one comma, or with three or more, is rejected
    with the number of values it holds, whatever the values are. *)
Theorem crf_wrong_count_rejected (crfStr : gostring) (cfg : Config) :
  commas crfStr <> 0%nat -> commas crfStr <> 2%nat ->
  parseCRF crfStr cfg = inr (ErrCRFCount (Z.of_nat (commas crfStr) + 1)).
Proof.
  intros H0 H2. unfold parseCRF.
  pose proof (splitFrom_length ","%char crfStr []) as Hlen. fold (commas crfStr) in Hlen.
  unfold Split. destruct (splitFrom "," [] crfStr) as [|p0 [|p1 [|p2 [|p3 tl]]]] eqn:E;
    cbn [length] in Hlen; try lia.
  - do 2 f_equal. cbn [length]. lia.
  - do 2 f_equal. cbn [length]. lia.
Qed.

Lemma crf_wrong_count_rejected_witness :
  parseCRF (str "25,27")
    {| SVTAV1Preset := 6; CRFSD := 0; CRFHD := 0; CRFUHD := 0;
       Workers := 24; ChunkBuffer := 4;
       ChunkDurationSD := float64.of_int 20; ChunkDurationHD := float64.of_int 30;
       ChunkDurationUHD := float64.of_int 45 |}
  = inr (ErrCRFCount (Z.of_nat (commas (str "25,27")) + 1)).
Proof. apply (crf_wrong_count_rejected (str "25,27")); vm_compute; discriminate. Defined.

End crf_flag.
